(** * TSAR (Traits Static Analyzer): pragma handlers, distribution limits
      and the dependency-analysis report

    Shallow embedding of
      - src/test/private/private_array_2.c      (the FileCheck fixture),
      - PragmaHandlers.cpp                      (src/unnamed/part_000),
      - DefaultPragmaHandlers.h,
      - DistributionLimits.cpp                  (src/unnamed/part_001),
    together with models of the trait classifier and of trait emission,
    whose implementation is not part of the sources at hand. *)

From Stdlib Require Import ZArith Ascii String Permutation.
From stdpp Require Import base option list gmap strings.
From stdpp Require Import pretty.

Local Open Scope string_scope.
Local Open Scope list_scope.

(* ===================================================================== *)
(** * Part I: definitions                                                 *)
(* ===================================================================== *)

(* --------------------------------------------------------------------- *)
(** ** Small string toolkit used to read report text                      *)
(* --------------------------------------------------------------------- *)

Module Text.

Fixpoint strip_prefix (p s : string) : option string :=
  match p, s with
  | EmptyString, _ => Some s
  | String a p', String b s' =>
      if Ascii.eqb a b then strip_prefix p' s' else None
  | String _ _, EmptyString => None
  end.

Fixpoint drop_spaces (s : string) : string :=
  match s with
  | String " " s' => drop_spaces s'
  | _ => s
  end.

(** Cut [s] at the first occurrence of [c]. *)
Fixpoint break_at (c : ascii) (s : string) : option (string * string) :=
  match s with
  | EmptyString => None
  | String a s' =>
      if Ascii.eqb a c then Some (EmptyString, s')
      else match break_at c s' with
           | Some (l, r) => Some (String a l, r)
           | None => None
           end
  end.

(** All fields of [s] separated by [c]; an empty field stays an empty
    string, so ["Int,1,,1"] has four fields. *)
Fixpoint split_on (c : ascii) (s : string) : list string :=
  match s with
  | EmptyString => [EmptyString]
  | String a s' =>
      if Ascii.eqb a c then EmptyString :: split_on c s'
      else match split_on c s' with
           | x :: xs => String a x :: xs
           | [] => [String a EmptyString]
           end
  end.

Fixpoint last_char (s : string) : option ascii :=
  match s with
  | EmptyString => None
  | String a EmptyString => Some a
  | String _ s' => last_char s'
  end.

Fixpoint drop_last (s : string) : string :=
  match s with
  | EmptyString => EmptyString
  | String _ EmptyString => EmptyString
  | String a s' => String a (drop_last s')
  end.

Definition digit (a : ascii) : option nat :=
  let n := nat_of_ascii a in
  if (48 <=? n)%nat && (n <=? 57)%nat then Some (n - 48)%nat else None.

Fixpoint parse_digits (acc : nat) (s : string) : option nat :=
  match s with
  | EmptyString => Some acc
  | String a s' =>
      match digit a with
      | Some d => parse_digits (10 * acc + d)%nat s'
      | None => None
      end
  end.

Definition parse_nat (s : string) : option nat :=
  match s with
  | EmptyString => None
  | _ => parse_digits 0 s
  end.

End Text.

(* --------------------------------------------------------------------- *)
(** ** The fixture: src/test/private/private_array_2.c                    *)
(* --------------------------------------------------------------------- *)

Module Fixture.
Import Text.

(** Lines 1-9 of the fixture, verbatim: the function under analysis. *)
Definition source_lines : list string :=
  [ "void foo(double *X, int N) {";
    "  double T[3];";
    "  T[0] = N;";
    "  for (int I = 1; I < N - 1; ++I) {";
    "      T[1] = X[I-1];";
    "      T[2] = X[I+1];";
    "      X[I] += T[0] * T[1] + T[2];";
    "    }";
    "}" ].

Fixpoint drop_chars (n : nat) (s : string) : string :=
  match n, s with
  | S n', String _ s' => drop_chars n' s'
  | _, _ => s
  end.

(** The source text from a position on (lines and columns count from 1). *)
Definition text_at (line col : nat) : option string :=
  drop_chars (col - 1) <$> source_lines !! (line - 1).

(** Lines 10-29 of the fixture, verbatim: the FileCheck directives that pin
    down the report printed for the loop of [foo]. *)
Definition check_lines : list string :=
  [ "//CHECK: Printing analysis 'Dependency Analysis (Metadata)' for function 'foo':";
    "//CHECK:  loop at depth 1 private_array_2.c:4:3";
    "//CHECK:    first private:";
    "//CHECK:     <T:2:10, 24>";
    "//CHECK:    anti:";
    "//CHECK:     <*X:1:18, ?>:[1,1]";
    "//CHECK:    flow:";
    "//CHECK:     <*X:1:18, ?>:[1,1]";
    "//CHECK:    induction:";
    "//CHECK:     <I:4:12, 4>:[Int,1,,1]";
    "//CHECK:    read only:";
    "//CHECK:     <N:1:25, 4> | <X:1:18, 8>";
    "//CHECK:    lock:";
    "//CHECK:     <I:4:12, 4> | <N:1:25, 4>";
    "//CHECK:    header access:";
    "//CHECK:     <*X:1:18, ?> | <I:4:12, 4> | <N:1:25, 4>";
    "//CHECK:    explicit access:";
    "//CHECK:     <I:4:12, 4> | <N:1:25, 4> | <X:1:18, 8>";
    "//CHECK:    explicit access (separate):";
    "//CHECK:     <I:4:12, 4> <N:1:25, 4> <X:1:18, 8>" ].

(** One printed memory location [<name:line:col, size>] with the optional
    bracketed suffix that follows it ([e_size = None] stands for [?]). *)
Record Entry := mkEntry {
  e_name : string;
  e_line : nat;
  e_col : nat;
  e_size : option nat;
  e_suffix : option (list string)
}.

(** How two neighbouring entries of one line are delimited. *)
Inductive Sep := Bar | Blank.

Record EntryLine := mkLine {
  l_entries : list Entry;
  l_seps : list Sep
}.

Record Section := mkSection {
  s_title : string;
  s_lines : list EntryLine
}.

Record LoopReport := mkReport {
  r_depth : nat;
  r_file : string;
  r_line : nat;
  r_col : nat;
  r_sections : list Section
}.

Inductive CheckLine :=
| LPrinting (text : string)
| LLoop (depth : nat) (file : string) (line col : nat)
| LSection (title : string)
| LEntries (l : EntryLine).

(** Modelled from the spec: the location-spec grammar of section 6,
    [<name>:<line>:<col>, <size-or-?>] (the printer is not in src/). *)
Definition parse_location_spec (inner : string)
  : option (string * nat * nat * option nat) :=
  match break_at "," inner with
  | None => None
  | Some (loc, sz) =>
      match strip_prefix " " sz, split_on ":" loc with
      | Some sz', [n; l; c] =>
          match parse_nat l, parse_nat c with
          | Some l', Some c' =>
              if String.eqb sz' "?" then Some (n, l', c', None)
              else match parse_nat sz' with
                   | Some k => Some (n, l', c', Some k)
                   | None => None
                   end
          | _, _ => None
          end
      | _, _ => None
      end
  end.

(** One entry and the text that follows it. *)
Definition parse_entry (s : string) : option (Entry * string) :=
  match strip_prefix "<" s with
  | None => None
  | Some s1 =>
      match break_at ">" s1 with
      | None => None
      | Some (inner, rest) =>
          match parse_location_spec inner with
          | None => None
          | Some (n, l, c, sz) =>
              match strip_prefix ":[" rest with
              | None => Some (mkEntry n l c sz None, rest)
              | Some r1 =>
                  match break_at "]" r1 with
                  | None => None
                  | Some (fields, rest') =>
                      Some (mkEntry n l c sz (Some (split_on "," fields)),
                            rest')
                  end
              end
          end
      end
  end.

Fixpoint parse_entries (fuel : nat) (s : string) : option EntryLine :=
  match fuel with
  | O => None
  | S f =>
      match parse_entry s with
      | None => None
      | Some (e, EmptyString) => Some (mkLine [e] [])
      | Some (e, rest) =>
          match strip_prefix " | " rest with
          | Some r =>
              match parse_entries f r with
              | Some l => Some (mkLine (e :: l_entries l) (Bar :: l_seps l))
              | None => None
              end
          | None =>
              match strip_prefix " " rest with
              | Some r =>
                  match parse_entries f r with
                  | Some l =>
                      Some (mkLine (e :: l_entries l) (Blank :: l_seps l))
                  | None => None
                  end
              | None => None
              end
          end
      end
  end.

Definition parse_loop_line (s : string) : option CheckLine :=
  match break_at " " s with
  | None => None
  | Some (d, pos) =>
      match parse_nat d, split_on ":" pos with
      | Some d', [f; l; c] =>
          match parse_nat l, parse_nat c with
          | Some l', Some c' => Some (LLoop d' f l' c')
          | _, _ => None
          end
      | _, _ => None
      end
  end.

(** A FileCheck directive: the prefix and the leading blanks are not part
    of the pattern. *)
Definition parse_line (raw : string) : option CheckLine :=
  match strip_prefix "//CHECK:" raw with
  | None => None
  | Some body =>
      let s := drop_spaces body in
      match strip_prefix "Printing analysis" s with
      | Some _ => Some (LPrinting s)
      | None =>
          match strip_prefix "loop at depth " s with
          | Some r => parse_loop_line r
          | None =>
              match s with
              | String "<" _ =>
                  match parse_entries (String.length s) s with
                  | Some l => Some (LEntries l)
                  | None => None
                  end
              | _ =>
                  match last_char s with
                  | Some ":"%char => Some (LSection (drop_last s))
                  | _ => None
                  end
              end
          end
      end
  end.

Fixpoint parse_lines (ls : list string) : option (list CheckLine) :=
  match ls with
  | [] => Some []
  | l :: ls' =>
      match parse_line l, parse_lines ls' with
      | Some c, Some cs => Some (c :: cs)
      | _, _ => None
      end
  end.

(** Entry lines are attached to the section header that precedes them. *)
Fixpoint sections_of (ls : list CheckLine)
  : option (list EntryLine * list Section) :=
  match ls with
  | [] => Some ([], [])
  | l :: ls' =>
      match sections_of ls' with
      | None => None
      | Some (pending, secs) =>
          match l with
          | LEntries el => Some (el :: pending, secs)
          | LSection t => Some ([], mkSection t pending :: secs)
          | _ => None
          end
      end
  end.

Definition parse_report (ls : list string) : option LoopReport :=
  match parse_lines ls with
  | Some (LPrinting _ :: LLoop d f l c :: body) =>
      match sections_of body with
      | Some ([], secs) => Some (mkReport d f l c secs)
      | _ => None
      end
  | _ => None
  end.

(** The report the fixture expects, as read from its directives. *)
Definition expected : option LoopReport := parse_report check_lines.

Definition section_entries (s : Section) : list Entry :=
  List.concat (map l_entries (s_lines s)).

Definition find_section (t : string) (r : LoopReport) : option Section :=
  List.find (fun s => String.eqb (s_title s) t) (r_sections r).

Definition entries_in (t : string) (r : LoopReport) : list Entry :=
  match find_section t r with
  | Some s => section_entries s
  | None => []
  end.

Definition titles (r : LoopReport) : list string :=
  map s_title (r_sections r).

Definition names_in (t : string) (r : LoopReport) : list string :=
  map e_name (entries_in t r).

(** The variable an entry is about: [*X] is the memory [X] points to. *)
Definition variable_of (e : Entry) : string :=
  match e_name e with
  | String "*" v => v
  | v => v
  end.

Definition parse_int (s : string) : option Z :=
  match s with
  | String "-" d => (fun n => (- Z.of_nat n)%Z) <$> parse_nat d
  | _ => Z.of_nat <$> parse_nat s
  end.


(** The bracketed suffix of an induction entry,
    [[type,start,end,step]]; an empty field is an unknown bound. *)
Record InductionDescriptor := mkInduction {
  i_type : string;
  i_start : option Z;
  i_end : option Z;
  i_step : option Z
}.

Definition induction_descriptor (e : Entry) : option InductionDescriptor :=
  match e_suffix e with
  | Some [ty; st; en; sp] =>
      Some (mkInduction ty (parse_int st) (parse_int en) (parse_int sp))
  | _ => None
  end.

(** A line is one merged group when it has at least two entries and every
    delimiter is [|]; its entries stand individually when every delimiter
    is a blank. *)
Definition merged (l : EntryLine) : bool :=
  negb (bool_decide (l_seps l = [])) &&
  forallb (fun d => match d with Bar => true | Blank => false end) (l_seps l).

Definition separate (l : EntryLine) : bool :=
  negb (bool_decide (l_seps l = [])) &&
  forallb (fun d => match d with Blank => true | Bar => false end) (l_seps l).

Definition lines_of (t : string) (r : LoopReport) : list EntryLine :=
  match find_section t r with
  | Some s => s_lines s
  | None => []
  end.

(** An entry points at a declaration of its variable in the source. *)
Definition points_at_variable (e : Entry) : bool :=
  match text_at (e_line e) (e_col e) with
  | Some t => bool_decide (is_Some (strip_prefix (variable_of e) t))
  | None => false
  end.

Definition all_entries (r : LoopReport) : list Entry :=
  List.concat (map section_entries (r_sections r)).

(** *** Printing, the inverse of reading *)

Definition digit_char (d : nat) : ascii := ascii_of_nat (48 + d).

Fixpoint show_digits (fuel n : nat) (acc : string) : string :=
  match fuel with
  | O => acc
  | S f =>
      let acc' := String (digit_char (n mod 10)) acc in
      if (n <? 10)%nat then acc' else show_digits f (n / 10) acc'
  end.

Definition show_nat (n : nat) : string := show_digits (S n) n "".

Fixpoint join (sep : string) (l : list string) : string :=
  match l with
  | [] => ""
  | [x] => x
  | x :: rest => x +:+ sep +:+ join sep rest
  end.

Definition show_entry (e : Entry) : string :=
  "<" +:+ e_name e +:+ ":" +:+ show_nat (e_line e) +:+ ":"
      +:+ show_nat (e_col e) +:+ ", "
      +:+ match e_size e with Some k => show_nat k | None => "?" end
      +:+ ">"
      +:+ match e_suffix e with
          | Some fields => ":[" +:+ join "," fields +:+ "]"
          | None => ""
          end.

Definition show_sep (d : Sep) : string :=
  match d with Bar => " | " | Blank => " " end.

Fixpoint show_entries (es : list Entry) (ds : list Sep) : string :=
  match es, ds with
  | [], _ => ""
  | [e], _ => show_entry e
  | e :: es', d :: ds' => show_entry e +:+ show_sep d +:+ show_entries es' ds'
  | e :: es', [] => show_entry e +:+ show_entries es' []
  end.

Definition show_section (s : Section) : list string :=
  (s_title s +:+ ":")
    :: map (fun l => show_entries (l_entries l) (l_seps l)) (s_lines s).

Definition show_loop (r : LoopReport) : list string :=
  ("loop at depth " +:+ show_nat (r_depth r) +:+ " " +:+ r_file r +:+ ":"
     +:+ show_nat (r_line r) +:+ ":" +:+ show_nat (r_col r))
    :: List.concat (map show_section (r_sections r)).

(** The pattern of a directive: what follows the prefix, without the
    leading blanks. *)
Definition pattern (raw : string) : option string :=
  drop_spaces <$> strip_prefix "//CHECK:" raw.

End Fixture.

(* --------------------------------------------------------------------- *)
(** ** Memory locations                                                   *)
(* --------------------------------------------------------------------- *)

Module Memory.

(** [llvm::MemoryLocation] as the sources build it
    ([MemoryLocation{Op, LocationSize::precise(1)}]): the addressed value
    and a size that is either precise or unknown. *)
Record MemoryLocation := mkLoc {
  Ptr : nat;
  Size : option N
}.

#[global] Instance MemoryLocation_eq_dec : EqDecision MemoryLocation.
Proof. solve_decision. Defined.

#[global] Instance MemoryLocation_countable : Countable MemoryLocation.
Proof.
  refine (inj_countable' (fun l => (Ptr l, Size l))
                         (fun p => mkLoc p.1 p.2) _).
  intros []; reflexivity.
Defined.

Definition precise (n : N) : option N := Some n.

End Memory.

(* --------------------------------------------------------------------- *)
(** ** The per-loop trait classifier (spec section 4.4)                   *)
(* --------------------------------------------------------------------- *)

Module Classifier.
Import Memory.

(** The closed set of trait labels of the LoopTraitSet (spec section 3). *)
Inductive Label :=
| FirstPrivate | LastPrivate | Private | ReadOnly | Induction | Reduction
| Flow | Anti | Output | Lock | HeaderAccess | ExplicitAccess.

#[global] Instance Label_eq_dec : EqDecision Label.
Proof. solve_decision. Defined.

(** What an access refers to after location resolution (step 2): an
    estimate-memory location, or an address the alias tree cannot resolve. *)
Inductive Target :=
| Known (l : MemoryLocation)
| Unresolved (address : nat).

#[global] Instance Target_eq_dec : EqDecision Target.
Proof. solve_decision. Defined.

(** Step 1, access collection:
    [(location, isRead, isWrite, instructionPosition)]. *)
Record Access := mkAccess {
  target : Target;
  isRead : bool;
  isWrite : bool;
  instructionPosition : nat
}.

(** A derivation rule, [(accessHistory) -> Option<Label>] (spec section 9). *)
Definition Rule := list Access -> option Label.

Definition history (t : Target) (accs : list Access) : list Access :=
  filter (fun a => target a = t) accs.

(** Targets in order of first occurrence. *)
Fixpoint targets_from (seen : list Target) (accs : list Access)
  : list Target :=
  match accs with
  | [] => []
  | a :: rest =>
      if decide (target a ∈ seen) then targets_from seen rest
      else target a :: targets_from (target a :: seen) rest
  end.

Definition targets (accs : list Access) : list Target := targets_from [] accs.

(** Modelled from the spec: step 3 of section 4.4 with the worst case of
    step 2; every rule of the ordered rule list is asked, and an unresolved
    address gets Flow+Anti+Output. The classifier is not in src/. *)
Definition candidates (rules : list Rule) (t : Target) (accs : list Access)
  : list Label :=
  match t with
  | Unresolved _ => [Flow; Anti; Output]
  | Known _ => omap (fun r => r (history t accs)) rules
  end.

Definition is_dependence (l : Label) : bool :=
  match l with
  | Flow | Anti | Output => true
  | _ => false
  end.

(** The labels that a detected dependence suppresses: Private, ReadOnly and
    Induction (step 4). *)
Definition suppressed (l : Label) : bool :=
  match l with
  | Private | ReadOnly | Induction => true
  | _ => false
  end.

Definition dependence_detected (ls : list Label) : bool :=
  existsb is_dependence ls.

(** Modelled from the spec: step 4 of section 4.4, conflict resolution. *)
Definition resolve (ls : list Label) : list Label :=
  if dependence_detected ls
  then List.filter (fun l => negb (suppressed l)) ls
  else ls.

(** The states of one (loop, location) pair. *)
Inductive TraitState :=
| Unclassified
| Candidate (ls : list Label)
| Resolved (ls : list Label).

Definition derive (rules : list Rule) (t : Target) (accs : list Access)
  (s : TraitState) : TraitState :=
  match s with
  | Unclassified => Candidate (candidates rules t accs)
  | other => other
  end.

Definition settle (s : TraitState) : TraitState :=
  match s with
  | Candidate ls => Resolved (resolve ls)
  | other => other
  end.

Definition resolved_labels (s : TraitState) : list Label :=
  match s with
  | Resolved ls => ls
  | _ => []
  end.

(** The LoopTraitSet of one loop: every accessed target with its resolved
    labels, in order of first occurrence. *)
Definition LoopTraitSet := list (Target * list Label).

(** Modelled from the spec: the classifier pass of section 4.4 over the
    accesses of one loop. *)
Definition classify (rules : list Rule) (accs : list Access) : LoopTraitSet :=
  map (fun t => (t, resolved_labels
                      (settle (derive rules t accs Unclassified))))
      (targets accs).

Definition labels_of (lts : LoopTraitSet) (t : Target)
  : option (list Label) :=
  match List.find (fun p => bool_decide (p.1 = t)) lts with
  | Some p => Some p.2
  | None => None
  end.

End Classifier.

(* --------------------------------------------------------------------- *)
(** ** Trait emission (spec section 4.5)                                  *)
(* --------------------------------------------------------------------- *)

Module Emission.
Import Classifier.

Inductive SectionId :=
| SecFirstPrivate | SecAnti | SecFlow | SecInduction | SecReadOnly | SecLock
| SecHeaderAccess | SecExplicitAccess | SecExplicitAccessSeparate.

#[global] Instance SectionId_eq_dec : EqDecision SectionId.
Proof. solve_decision. Defined.

(** The fixed section order of section 4.5. *)
Definition section_order : list SectionId :=
  [ SecFirstPrivate; SecAnti; SecFlow; SecInduction; SecReadOnly; SecLock;
    SecHeaderAccess; SecExplicitAccess; SecExplicitAccessSeparate ].

(** The section headers as the fixture prints them. *)
Definition section_title (s : SectionId) : string :=
  match s with
  | SecFirstPrivate => "first private"
  | SecAnti => "anti"
  | SecFlow => "flow"
  | SecInduction => "induction"
  | SecReadOnly => "read only"
  | SecLock => "lock"
  | SecHeaderAccess => "header access"
  | SecExplicitAccess => "explicit access"
  | SecExplicitAccessSeparate => "explicit access (separate)"
  end.

Definition section_label (s : SectionId) : Label :=
  match s with
  | SecFirstPrivate => FirstPrivate
  | SecAnti => Anti
  | SecFlow => Flow
  | SecInduction => Induction
  | SecReadOnly => ReadOnly
  | SecLock => Lock
  | SecHeaderAccess => HeaderAccess
  | SecExplicitAccess => ExplicitAccess
  | SecExplicitAccessSeparate => ExplicitAccess
  end.

Inductive Rendering := MergedSet | SeparateEntries.

Definition section_rendering (s : SectionId) : Rendering :=
  match s with
  | SecExplicitAccessSeparate => SeparateEntries
  | _ => MergedSet
  end.

Definition members (l : Label) (lts : LoopTraitSet) : list Target :=
  map fst (List.filter (fun p => bool_decide (l ∈ p.2)) lts).

Definition emit_section (lts : LoopTraitSet) (s : SectionId)
  : option (SectionId * list Target) :=
  match members (section_label s) lts with
  | [] => None
  | ts => Some (s, ts)
  end.

(** Modelled from the spec: [emit] of section 4.5 groups the resolved
    pairs by label, one section per label that occurs, in the fixed section
    order. The emitter is not in src/. *)
Definition emit (lts : LoopTraitSet) : list (SectionId * list Target) :=
  omap (emit_section lts) section_order.

Definition emitted_sections (lts : LoopTraitSet) : list SectionId :=
  map fst (emit lts).

Definition section_members (s : SectionId)
  (rep : list (SectionId * list Target)) : option (list Target) :=
  match List.find (fun p => bool_decide (p.1 = s)) rep with
  | Some p => Some p.2
  | None => None
  end.

End Emission.

(* --------------------------------------------------------------------- *)
(** ** Carried dependences of a loop over arrays (spec section 4.4)       *)
(* --------------------------------------------------------------------- *)

Module Dependence.
Import Classifier.











(** The least and the greatest distance. *)
Definition range (ds : list Z) : option (Z * Z) :=
  match ds with
  | [] => None
  | d :: rest => Some (foldr Z.min d rest, foldr Z.max d rest)
  end.



End Dependence.

(* --------------------------------------------------------------------- *)
(** ** Tokens and the preprocessor interface used by the pragma handlers  *)
(* --------------------------------------------------------------------- *)

Module tok.

(** The token kinds the handlers name. Every keyword kind carries its
    spelling ([tok::kw_void] is [kw "void"]). *)
Inductive TokenKind :=
| unknown | eod | eof
| identifier | numeric_constant | string_literal
| l_brace | r_brace | l_paren | r_paren
| semi | comma | star | amp | ellipsis
| kw (spelling : string)
| punctuator (spelling : string).

#[global] Instance TokenKind_eq_dec : EqDecision TokenKind.
Proof. solve_decision. Defined.

Definition kw_extern := kw "extern".
Definition kw_void := kw "void".
Definition kw_char := kw "char".
Definition kw_const := kw "const".

(** [tok::getKeywordSpelling]: the spelling of a keyword kind, null for
    every other kind. *)
Definition getKeywordSpelling (k : TokenKind) : option string :=
  match k with
  | kw s => Some s
  | _ => None
  end.

End tok.

Module Lex.

(** [clang::SourceLocation] by its raw encoding; 0 is the invalid one. *)
Definition SourceLocation := Z.

Definition getLocWithOffset (l : SourceLocation) (off : Z) : SourceLocation :=
  (l + off)%Z.

Record Token := mkToken {
  Kind : tok.TokenKind;
  Loc : SourceLocation;
  Length : nat;
  IdentifierInfo : option string;
  LiteralData : option string
}.

(** [Token::startToken]. *)
Definition startToken : Token := mkToken tok.unknown 0%Z 0 None None.

Definition setKind (k : tok.TokenKind) (t : Token) : Token :=
  mkToken k (Loc t) (Length t) (IdentifierInfo t) (LiteralData t).
Definition setLocation (l : SourceLocation) (t : Token) : Token :=
  mkToken (Kind t) l (Length t) (IdentifierInfo t) (LiteralData t).
Definition setLength (n : nat) (t : Token) : Token :=
  mkToken (Kind t) (Loc t) n (IdentifierInfo t) (LiteralData t).
Definition setIdentifierInfo (ii : string) (t : Token) : Token :=
  mkToken (Kind t) (Loc t) (Length t) (Some ii) (LiteralData t).

(** [Token::is] and [Token::isNot]. *)
Definition is_ (k : tok.TokenKind) (t : Token) : bool :=
  bool_decide (Kind t = k).
Definition isNot (k : tok.TokenKind) (t : Token) : bool := negb (is_ k t).

(** The name of the identifier a token stands for. *)
Definition getName (t : Token) : string :=
  match IdentifierInfo t with
  | Some n => n
  | None => ""
  end.

Inductive Diagnostic :=
| err_expected (what : string)
| err_unknown_directive (space directive : string)
| err_unknown_clause (directive clause : string)
| warn_pragma_ignored.

Inductive PragmaIntroducerKind := PIK_HashPragma | PIK__Pragma | PIK___pragma.

(** [clang::Preprocessor], as far as the handlers touch it: the tokens not
    lexed yet, the token streams handed to [EnterTokenStream] (most recent
    first) and the diagnostics reported so far. *)
Record Preprocessor := mkPP {
  pending : list Token;
  entered : list (list Token);
  diagnostics : list Diagnostic
}.

(** The token the lexer hands out when a directive has no token left. *)
Definition eod_token : Token := setKind tok.eod startToken.

(** [Preprocessor::LexUnexpandedToken]: the next token; a directive always
    ends with [tok::eod]. *)
Definition LexUnexpandedToken (PP : Preprocessor) : Token * Preprocessor :=
  match pending PP with
  | [] => (eod_token, PP)
  | t :: rest => (t, mkPP rest (entered PP) (diagnostics PP))
  end.

Definition Diag (d : Diagnostic) (PP : Preprocessor) : Preprocessor :=
  mkPP (pending PP) (entered PP) (diagnostics PP ++ [d]).

Definition EnterTokenStream (q : list Token) (PP : Preprocessor)
  : Preprocessor :=
  mkPP (pending PP) (q :: entered PP) (diagnostics PP).

(** [Preprocessor::CreateString]: the text becomes the token's literal data,
    its length the token's length, and the token is located at the
    expansion point. *)
Definition CreateString (Str : string) (t : Token)
  (ExpansionLocStart : SourceLocation) : Token :=
  mkToken (Kind t) ExpansionLocStart (String.length Str) (IdentifierInfo t)
          (if bool_decide (Kind t = tok.string_literal)
           then Some Str else LiteralData t).

(** [tsar::ExternalPreprocessor] (ExternalPreprocessor.h is not in src/),
    as the handlers use it: it replays the tokens it was built from and
    reports diagnostics through the preprocessor it wraps. *)
Record ExternalPreprocessor := mkExtPP {
  relex : list Token;
  reported : list Diagnostic
}.

Definition ExtLex (PP : ExternalPreprocessor) : Token * ExternalPreprocessor :=
  match relex PP with
  | [] => (eod_token, PP)
  | t :: rest => (t, mkExtPP rest (reported PP))
  end.

Definition ExtDiag (d : Diagnostic) (PP : ExternalPreprocessor)
  : ExternalPreprocessor :=
  mkExtPP (relex PP) (reported PP ++ [d]).

End Lex.

(* --------------------------------------------------------------------- *)
(** ** tsar/Support/Directives.h (not in src/): the tables it declares    *)
(* --------------------------------------------------------------------- *)

Module Directives.

(** [DirectiveNamespaceId], [DirectiveId] and [ClauseId] by their
    underlying values, with the queries the handlers call. *)
Record Table := mkTable {
  NotNamespace : nat;
  NumNamespaces : nat;
  Dvm : nat;
  NotDirective : nat;
  NumDirectives : nat;
  NotClause : nat;
  NumClauses : nat;
  getParentOfDirective : nat -> nat;
  getParentOfClause : nat -> nat;
  getNamespaceName : nat -> string;
  getDirectiveName : nat -> string;
  getClauseName : nat -> string;
  hasBody : nat -> bool;
  getTsarDirective : nat -> string -> option nat;
  getTsarClause : nat -> string -> option nat
}.

End Directives.

(* --------------------------------------------------------------------- *)
(** ** PragmaHandlers.cpp (src/unnamed/part_000)                          *)
(* --------------------------------------------------------------------- *)

Module PragmaHandlers.
Import Lex.

Definition dquote : string := String (ascii_of_nat 34) EmptyString.

Definition AddToken (K : tok.TokenKind) (L : SourceLocation) (Len : nat)
  (TokenList : list Token) : list Token :=
  TokenList ++ [setLength Len (setLocation L (setKind K startToken))].

Definition AddStringToken (Str : string) (L : SourceLocation)
  (TokenList : list Token) : list Token :=
  let Tok := setKind tok.string_literal startToken in
  let Tok := CreateString (dquote +:+ Str +:+ dquote) Tok L in
  let Tok := setLength (String.length Str + 2) Tok in
  TokenList ++ [Tok].

(** A directive or clause handler: it reads from the external preprocessor,
    moves the token it was given and appends to the replacement. *)
Definition Handler : Type :=
  ExternalPreprocessor -> PragmaIntroducerKind -> Token -> list Token ->
  ExternalPreprocessor * Token * list Token.

(** The name a token spells: an identifier's name or a keyword's
    spelling. *)
Definition spelled_name (t : Token) : option string :=
  if is_ tok.identifier t then Some (getName t)
  else tok.getKeywordSpelling (Kind t).

(** [do { PP.LexUnexpandedToken(FirstToken);
          mTokensToRelex.push_back(FirstToken); }
     while (!FirstToken.is(tok::eod));]
    gives the tokens to relex, the last token lexed and what is left. *)
Fixpoint lex_to_eod (ts : list Token) : list Token * Token * list Token :=
  match ts with
  | [] => ([eod_token], eod_token, [])
  | t :: rest =>
      if is_ tok.eod t then ([t], t, rest)
      else let '(r, last, rem) := lex_to_eod rest in (t :: r, last, rem)
  end.

(** How far [PragmaNamespaceReplacer::HandlePragma] gets before it decides
    about the replacement. *)
Inductive Dispatch :=
| Rejected (PP : Preprocessor) (FirstToken : Token)
| Handled (PP : Preprocessor) (FirstToken RelexFrom : Token)
          (mTokenQueue : list Token).

Section PragmaNamespaceReplacer.
Variable D : Directives.Table.
Variable mNamespaceId : nat.
Variable Name : string.
Variable FindHandler : string -> option Handler.

(** Lines 286-319: everything up to and including the call of the
    directive handler. *)
Definition dispatch (PP : Preprocessor) (Introducer : PragmaIntroducerKind)
  (FirstToken : Token) : Dispatch :=
  let mTokenQueue : list Token := [] in
  let NamespaceLoc := Loc FirstToken in
  let '(FirstToken, PP) := LexUnexpandedToken PP in
  match spelled_name FirstToken with
  | None => Rejected (Diag (err_expected "name of directive") PP) FirstToken
  | Some DirectiveName =>
      match Directives.getTsarDirective D mNamespaceId DirectiveName with
      | None =>
          Rejected (Diag (err_unknown_directive Name DirectiveName) PP)
                   FirstToken
      | Some _ =>
          match FindHandler DirectiveName with
          | None => Rejected (Diag warn_pragma_ignored PP) FirstToken
          | Some Handler =>
              let mTokenQueue := AddToken tok.l_brace NamespaceLoc 1
                                          mTokenQueue in
              let mTokenQueue := AddStringToken Name NamespaceLoc
                                                mTokenQueue in
              let mTokenQueue := AddToken tok.semi NamespaceLoc 1
                                          mTokenQueue in
              let RelexFrom := FirstToken in
              let '(mTokensToRelex, FirstToken, rest) :=
                lex_to_eod (pending PP) in
              let ExternalPP := mkExtPP mTokensToRelex (diagnostics PP) in
              let '(ExternalPP, RelexFrom, mTokenQueue) :=
                Handler ExternalPP Introducer RelexFrom mTokenQueue in
              Handled (mkPP rest (entered PP) (reported ExternalPP))
                      FirstToken RelexFrom mTokenQueue
          end
      end
  end.

(** [PragmaNamespaceReplacer::HandlePragma]: the preprocessor, the first
    token and the token queue it leaves behind. *)
Definition HandlePragma (PP : Preprocessor)
  (Introducer : PragmaIntroducerKind) (FirstToken : Token)
  : Preprocessor * Token * list Token :=
  match dispatch PP Introducer FirstToken with
  | Rejected PP FirstToken => (PP, FirstToken, [])
  | Handled PP FirstToken RelexFrom mTokenQueue =>
      (* Replace pragma only if all tokens have been processed. *)
      if is_ tok.eod RelexFrom then
        let mTokenQueue := AddToken tok.r_brace (Loc FirstToken) 1
                                    mTokenQueue in
        (EnterTokenStream mTokenQueue PP, FirstToken, mTokenQueue)
      else (PP, FirstToken, mTokenQueue)
  end.
End PragmaNamespaceReplacer.

(** The token the directive handler left in [RelexFrom], when it ran. *)
Definition relex_token_after (d : Dispatch) : option Lex.Token :=
  match d with
  | Handled _ _ RelexFrom _ => Some RelexFrom
  | Rejected _ _ => None
  end.

(** A handler that only reads ahead: what is left to relex after it is a
    part of what was left before (the external preprocessor replays one
    fixed list of tokens, and backtracking is over when a handler is). *)
Definition reads_ahead (h : Handler) : Prop :=
  forall PP Introducer FirstToken Replacement,
    relex (h PP Introducer FirstToken Replacement).1.1 `suffix_of` relex PP.

(** The tokens of one directive: [tok::eod] is the last one, if any. *)
Definition one_directive (ts : list Lex.Token) : Prop :=
  forall pre t post, ts = pre ++ t :: post -> Kind t = tok.eod -> post = [].

(** How the clause loop of [PragmaReplacer::HandlePragma] ends. *)
Inductive LoopExit := Finished | Bailed | OutOfFuel.

Section PragmaReplacer.
Variable D : Directives.Table.
Variable mDirectiveId : nat.
Variable Name : string.
Variable FindHandler : string -> option Handler.

(** The [while (FirstToken.isNot(tok::eod))] loop, lines 339-367. *)
Fixpoint clause_loop (fuel : nat) (PP : ExternalPreprocessor)
  (Introducer : PragmaIntroducerKind) (FirstToken : Token)
  (HandleDirectiveBody : bool) (Replacement : list Token)
  : LoopExit * ExternalPreprocessor * Token * list Token :=
  match fuel with
  | O => (OutOfFuel, PP, FirstToken, Replacement)
  | S fuel' =>
      if isNot tok.eod FirstToken then
        let ClauseName :=
          if negb HandleDirectiveBody then spelled_name FirstToken
          else Some "" in
        match ClauseName with
        | None =>
            (Bailed, ExtDiag (err_expected "name of clause") PP, FirstToken,
             Replacement)
        | Some ClauseName =>
            let HandleDirectiveBody :=
              if negb HandleDirectiveBody then false
              else HandleDirectiveBody in
            match Directives.getTsarClause D mDirectiveId ClauseName with
            | None =>
                (Bailed, ExtDiag (err_unknown_clause Name ClauseName) PP,
                 FirstToken, Replacement)
            | Some _ =>
                match FindHandler ClauseName with
                | None =>
                    (Bailed, ExtDiag warn_pragma_ignored PP, FirstToken,
                     Replacement)
                | Some ClauseHandler =>
                    let '(PP, FirstToken, Replacement) :=
                      ClauseHandler PP Introducer FirstToken Replacement in
                    let '(FirstToken, PP) := ExtLex PP in
                    clause_loop fuel' PP Introducer FirstToken
                                HandleDirectiveBody Replacement
                end
            end
        end
      else (Finished, PP, FirstToken, Replacement)
  end.

Definition HandlePragma_exit (fuel : nat) (PP : ExternalPreprocessor)
  (Introducer : PragmaIntroducerKind) (FirstToken : Token)
  (Replacement : list Token)
  : LoopExit * ExternalPreprocessor * Token * list Token :=
  let DirectiveLoc := Loc FirstToken in
  let Replacement := AddToken tok.l_brace DirectiveLoc 1 Replacement in
  let Replacement := AddStringToken Name DirectiveLoc Replacement in
  let Replacement := AddToken tok.semi DirectiveLoc 1 Replacement in
  let HandleDirectiveBody := Directives.hasBody D mDirectiveId in
  let '(FirstToken, PP) :=
    if negb HandleDirectiveBody then ExtLex PP else (FirstToken, PP) in
  match clause_loop fuel PP Introducer FirstToken HandleDirectiveBody
                    Replacement with
  | (Finished, PP, FirstToken, Replacement) =>
      (Finished, PP, FirstToken,
       AddToken tok.r_brace (Loc FirstToken) 1 Replacement)
  | other => other
  end.

(** [PragmaReplacer::HandlePragma]. *)
Definition PragmaReplacer_HandlePragma (fuel : nat) : Handler :=
  fun PP Introducer FirstToken Replacement =>
    let '(_, PP, FirstToken, Replacement) :=
      HandlePragma_exit fuel PP Introducer FirstToken Replacement in
    (PP, FirstToken, Replacement).
End PragmaReplacer.

(** [ClauseReplacer::HandleClause]; [HandleBody] runs the clause visitor
    (ClauseVisitor.h is not in src/). *)
Definition HandleClause (Name : string) (HandleBody : Handler) : Handler :=
  fun PP Introducer FirstToken Replacement =>
    let ClauseLoc := Loc FirstToken in
    let Replacement := AddToken tok.l_brace ClauseLoc 1 Replacement in
    let Replacement := AddStringToken Name ClauseLoc Replacement in
    let Replacement := AddToken tok.semi ClauseLoc 1 Replacement in
    let '(PP, FirstToken, Replacement) :=
      HandleBody PP Introducer FirstToken Replacement in
    let End := Loc FirstToken in
    let End := if (0 <? Length FirstToken)%nat
               then getLocWithOffset End (Z.of_nat (Length FirstToken - 1))
               else End in
    (PP, FirstToken, AddToken tok.r_brace End 1 Replacement).

(** [InsertDeclarationForActualInstrumentation]:
    the tokens of [extern void name(const char* );]. *)
Definition InsertDeclarationForActualInstrumentation
  (TokenQueue : list Token) (FunctionIdentifierInfo : string) : list Token :=
  let FuncNameTok :=
    setIdentifierInfo FunctionIdentifierInfo
                      (setKind tok.identifier startToken) in
  let ExternTok := setKind tok.kw_extern startToken in
  let VoidTok := setKind tok.kw_void startToken in
  let CharTok := setKind tok.kw_char startToken in
  let ConstTok := setKind tok.kw_const startToken in
  let StarTok := setKind tok.star startToken in
  let LParTok := setKind tok.l_paren startToken in
  let RParTok := setKind tok.r_paren startToken in
  let SemiTok := setKind tok.semi startToken in
  TokenQueue ++ [ExternTok; VoidTok; FuncNameTok; LParTok; ConstTok; CharTok;
                 StarTok; RParTok; SemiTok].

(** The [do ... while (Tok.isNot(tok::eod))] loop of [ReplacePragmaWithCall]:
    the text gathered from identifiers and commas, and the tokens left. *)
Fixpoint read_pragma_tokens (ts : list Token) (IdentifiersStream : string)
  : string * list Token :=
  match ts with
  | [] => (IdentifiersStream, [])
  | Tok :: rest =>
      let IdentifiersStream :=
        if is_ tok.identifier Tok then IdentifiersStream +:+ getName Tok
        else if is_ tok.comma Tok then IdentifiersStream +:+ ","
        else IdentifiersStream in
      if isNot tok.eod Tok then read_pragma_tokens rest IdentifiersStream
      else (IdentifiersStream, rest)
  end.

(** [ReplacePragmaWithCall]. *)
Definition ReplacePragmaWithCall (PP : Preprocessor) (FunctionName : string)
  (FirstToken : Token) : Preprocessor :=
  let TokenQueue :=
    InsertDeclarationForActualInstrumentation [] FunctionName in
  let DirectiveLocation := Loc FirstToken in
  let CurrentLocation := DirectiveLocation in
  let '(IdentifiersStream, rest) := read_pragma_tokens (pending PP) dquote in
  let IdentifiersStream := IdentifiersStream +:+ dquote in
  let PP := mkPP rest (entered PP) (diagnostics PP) in
  let FuncNameTok :=
    setLocation DirectiveLocation
      (setIdentifierInfo FunctionName (setKind tok.identifier startToken)) in
  let LParTok :=
    setLocation (getLocWithOffset DirectiveLocation 6)
                (setKind tok.l_paren startToken) in
  let RParTok := setKind tok.r_paren startToken in
  let SemiTok := setKind tok.semi startToken in
  let StringifiedIdentifiers := setKind tok.string_literal startToken in
  let IdentifiersString := IdentifiersStream in
  let StringifiedIdentifiers :=
    CreateString IdentifiersString StringifiedIdentifiers CurrentLocation in
  let StringifiedIdentifiers :=
    setLength (String.length IdentifiersString) StringifiedIdentifiers in
  let TokenQueue := TokenQueue ++ [FuncNameTok] in
  let TokenQueue := TokenQueue ++ [LParTok] in
  let CurrentLocation :=
    getLocWithOffset CurrentLocation
                     (Z.of_nat (String.length FunctionName + 1)) in
  let StringifiedIdentifiers :=
    setLocation CurrentLocation StringifiedIdentifiers in
  let TokenQueue := TokenQueue ++ [StringifiedIdentifiers] in
  let CurrentLocation := getLocWithOffset CurrentLocation 0 in
  let RParTok := setLocation CurrentLocation RParTok in
  let SemiTok := setLocation (getLocWithOffset CurrentLocation 1) SemiTok in
  let TokenQueue := TokenQueue ++ [RParTok] in
  let TokenQueue := TokenQueue ++ [SemiTok] in
  EnterTokenStream TokenQueue PP.

Section DvmReplacers.
(** Each of the two classes passes its own [RegPragmaFunctionName]; both
    are declared in PragmaHandlers.h, which is not in src/. The comment of
    [InsertDeclarationForActualInstrumentation] names the two functions,
    [sapforRegActual] and [sapforRegGetActual]. *)
Variable DvmActualReplacer_RegPragmaFunctionName : string.
Variable DvmGetActualReplacer_RegPragmaFunctionName : string.

Definition DvmActualReplacer_HandlePragma (PP : Preprocessor)
  (Introducer : PragmaIntroducerKind) (FirstToken : Token) : Preprocessor :=
  ReplacePragmaWithCall PP DvmActualReplacer_RegPragmaFunctionName FirstToken.

End DvmReplacers.

(** The call the replacement ends with:
    [<name>("<identifiers>");] at the locations the function computes. *)
Definition call_tokens (FunctionName : string) (L : SourceLocation)
  (Identifiers : string) : list Token :=
  let Arg := getLocWithOffset L (Z.of_nat (String.length FunctionName + 1)) in
  [ mkToken tok.identifier L 0 (Some FunctionName) None;
    mkToken tok.l_paren (getLocWithOffset L 6) 0 None None;
    mkToken tok.string_literal Arg (String.length Identifiers) None
            (Some Identifiers);
    mkToken tok.r_paren Arg 0 None None;
    mkToken tok.semi (getLocWithOffset Arg 1) 0 None None ].

End PragmaHandlers.

(* --------------------------------------------------------------------- *)
(** ** DefaultPragmaHandlers.h                                            *)
(* --------------------------------------------------------------------- *)

Module DefaultPragmaHandlers.
Import Directives.

(** The handler objects by what their constructors receive and what is
    attached to them afterwards. *)
Record ClauseReplacer := mkClauseReplacer {
  mClauseId : nat
}.

Record PragmaReplacer := mkPragmaReplacer {
  mDirectiveId : nat;
  mParent : nat;
  mClauses : list ClauseReplacer
}.

Record PragmaNamespaceReplacer := mkNamespaceReplacer {
  mNamespaceId : nat;
  mPragmas : list PragmaReplacer
}.

Inductive DvmReplacer := DvmActualReplacer | DvmGetActualReplacer.

(** What [Preprocessor::AddPragmaHandler] is given here. *)
Inductive PragmaHandler :=
| NamespaceReplacer (NR : PragmaNamespaceReplacer)
| PragmaNamespace (name : string) (handlers : list DvmReplacer).

Record Registry := mkRegistry {
  PPHandlers : list PragmaHandler;
  Container : list PragmaNamespaceReplacer
}.

(** The values of [for (Id = NotId + 1; Id < NumIds; ++Id)]. *)
Definition ids (NotId NumIds : nat) : list nat :=
  seq (S NotId) (NumIds - S NotId).

Definition clauses_of (D : Table) (DId : nat) : list ClauseReplacer :=
  omap (fun CId =>
          if decide (getParentOfClause D CId = DId)
          then Some (mkClauseReplacer CId) else None)
       (ids (NotClause D) (NumClauses D)).

(** The body of the loop over directives, with its two [continue]s. *)
Definition pragmas_of (D : Table) (NId : nat) : list PragmaReplacer :=
  omap (fun DId =>
          if decide (getParentOfDirective D DId ≠ NId) then None
          else if decide (getParentOfDirective D DId = Dvm D) then None
          else Some (mkPragmaReplacer DId NId (clauses_of D DId)))
       (ids (NotDirective D) (NumDirectives D)).

(** The namespace replacers that [AddTsarPragmaHandlers] creates, one for
    each namespace id it runs through. *)
Definition namespace_replacers (D : Table) : list PragmaNamespaceReplacer :=
  map (fun NId => mkNamespaceReplacer NId (pragmas_of D NId))
      (ids (NotNamespace D) (NumNamespaces D)).

Definition AddTsarPragmaHandlers (D : Table) (R : Registry) : Registry :=
  foldl (fun R NId =>
           let NR := mkNamespaceReplacer NId (pragmas_of D NId) in
           mkRegistry (PPHandlers R ++ [NamespaceReplacer NR])
                      (Container R ++ [NR]))
        R (ids (NotNamespace D) (NumNamespaces D)).

Definition AddDvmPragmaHandlers (D : Table) (R : Registry) : Registry :=
  let NamespaceHandler :=
    PragmaNamespace (getNamespaceName D (Dvm D))
                    [DvmActualReplacer; DvmGetActualReplacer] in
  mkRegistry (PPHandlers R ++ [NamespaceHandler]) (Container R).

Definition empty : Registry := mkRegistry [] [].

(** The directive ids for which a [PragmaReplacer] hangs in the registry. *)
Definition attached_directives (R : Registry) : list nat :=
  List.concat
    (map (fun h => match h with
                   | NamespaceReplacer NR => map mDirectiveId (mPragmas NR)
                   | PragmaNamespace _ _ => []
                   end) (PPHandlers R)).

(** The number of directive handlers that serve the Dvm namespace. *)
Definition dvm_handlers (D : Table) (R : Registry) : nat :=
  list_sum
    (map (fun h =>
            match h with
            | NamespaceReplacer NR =>
                length (List.filter
                          (fun PR => bool_decide
                             (getParentOfDirective D (mDirectiveId PR) = Dvm D))
                          (mPragmas NR))
            | PragmaNamespace name hs =>
                if decide (name = getNamespaceName D (Dvm D))
                then length hs else 0
            end) (PPHandlers R)).

End DefaultPragmaHandlers.

(* --------------------------------------------------------------------- *)
(** ** DistributionLimits.cpp (src/unnamed/part_001)                      *)
(* --------------------------------------------------------------------- *)

Module DistributionLimits.
Import Memory.

(** An estimate memory node by its identity and that of its top level
    parent. *)
Record EstimateMemory := mkEM {
  em_id : nat;
  TopLevelParent : nat
}.

(** Modelled from the spec: [AliasTree::find] of section 4.3, the node
    registered for exactly this location or null (EstimateMemory.h is not
    in src/). *)
Definition AliasTree : Type := gmap MemoryLocation EstimateMemory.

Definition find (AT : AliasTree) (Loc : MemoryLocation)
  : option EstimateMemory := AT !! Loc.

Definition registered (AT : AliasTree) (Loc : MemoryLocation) : Prop :=
  is_Some (AT !! Loc).

(** A run of the pass: it completes, or an [assert] fails. *)
Inductive Result (A : Type) :=
| Ok (a : A)
| AssertionFailure (msg : string).
Arguments Ok {A} a.
Arguments AssertionFailure {A} msg.

Definition bind {A B : Type} (r : Result A) (k : A -> Result B) : Result B :=
  match r with
  | Ok a => k a
  | AssertionFailure m => AssertionFailure m
  end.

Definition em_must_be_present : string :=
  "Estimate memory must be presented in alias tree!".
Definition array_must_not_be_null : string := "Array must not be null!".

Inductive distFlag := SPF_PRIV | IO_PRIV.

Inductive parType := ARRAY_T | SCALAR_T.

#[global] Instance parType_eq_dec : EqDecision parType.
Proof. solve_decision. Defined.

(** One formal parameter of an [apc::FuncInfo]: its kind and the array it
    stands for, if there is one. *)
Record FuncParam := mkParam {
  parameterT : parType;
  parameter : option nat
}.

Record FuncInfo := mkFuncInfo {
  funcParams : list FuncParam
}.

Record Callee := mkCallee {
  callee_id : nat;
  isDeclaration : bool;
  LibFunc : bool
}.

Inductive InstKind :=
| Intrinsic (isMemoryMarker : bool)
| Call (callee : option Callee)
| Other.

(** An instruction, as the checker looks at it; [accesses] is what
    [for_each_memory] enumerates: location and operand index. *)
Inductive Instruction :=
| LoadInst
| StoreInst (ValueOperand : nat) (isPointerTy : bool)
| MemInst (k : InstKind) (accesses : list (MemoryLocation * nat)).

Record Function := mkFunction {
  fn_id : nat;
  IndirectCall : bool;
  instructions : list Instruction
}.

Section Checker.
(** [apc::Array] with the two methods the checker calls. *)
Variable Array : Type.
Variable SetDistributeFlag : distFlag -> Array -> Array.
Variable IsNotDistribute : Array -> bool.
(** [getRawDIMemoryIfExists] for a top level estimate memory. *)
Variable getRawDIMemoryIfExists : nat -> option nat.

(** [APCContext]: the arrays, the array of a debug memory and the
    registered functions. *)
Record APCContext := mkCtx {
  arrays : gmap nat Array;
  array_of : gmap nat nat;
  functions : gmap nat FuncInfo
}.

Definition findArray (Ctx : APCContext) (RawDIM : nat)
  : option (nat * Array) :=
  match array_of Ctx !! RawDIM with
  | Some a =>
      match arrays Ctx !! a with
      | Some A => Some (a, A)
      | None => None
      end
  | None => None
  end.

Definition findFunction (Ctx : APCContext) (f : nat) : option FuncInfo :=
  functions Ctx !! f.

Definition disable (flag : distFlag) (a : nat) (Ctx : APCContext)
  : APCContext :=
  mkCtx (alter (SetDistributeFlag flag) a (arrays Ctx)) (array_of Ctx)
        (functions Ctx).

(** Lines 111-124: formal array parameters of a function that may be
    called indirectly. *)
Fixpoint disable_params (ps : list FuncParam) (Ctx : APCContext)
  : Result APCContext :=
  match ps with
  | [] => Ok Ctx
  | p :: rest =>
      if decide (parameterT p = ARRAY_T) then
        match parameter p with
        | None => AssertionFailure array_must_not_be_null
        | Some a => disable_params rest (disable SPF_PRIV a Ctx)
        end
      else disable_params rest Ctx
  end.

(** Lines 134-150: a store of a pointer. *)
Definition on_store (AT : AliasTree) (Op : nat) (Ctx : APCContext)
  : Result APCContext :=
  match find AT (mkLoc Op (precise 1)) with
  | None => AssertionFailure em_must_be_present
  | Some EM =>
      let TopEM := TopLevelParent EM in
      match getRawDIMemoryIfExists TopEM with
      | None => Ok Ctx
      | Some RawDIM =>
          match findArray Ctx RawDIM with
          | None => Ok Ctx
          | Some (a, APCArray) =>
              if IsNotDistribute APCArray then Ok Ctx
              else Ok (disable SPF_PRIV a Ctx)
          end
      end
  end.

(** Lines 155-209: the function given to [for_each_memory]. *)
Definition on_memory (AT : AliasTree) (k : InstKind)
  (Loc : MemoryLocation) (OpIdx : nat) (Ctx : APCContext)
  : Result APCContext :=
  match find AT Loc with
  | None => AssertionFailure em_must_be_present
  | Some EM =>
      let TopEM := TopLevelParent EM in
      match getRawDIMemoryIfExists TopEM with
      | None => Ok Ctx
      | Some RawDIM =>
          match findArray Ctx RawDIM with
          | None => Ok Ctx
          | Some (a, APCArray) =>
              if IsNotDistribute APCArray then Ok Ctx
              else
                match k with
                | Intrinsic marker =>
                    if marker then Ok Ctx else Ok (disable SPF_PRIV a Ctx)
                | Other => Ok (disable SPF_PRIV a Ctx)
                | Call callee =>
                    if decide (em_id EM ≠ TopEM)
                    then Ok (disable SPF_PRIV a Ctx)
                    else
                      match callee with
                      | None => Ok (disable IO_PRIV a Ctx)
                      | Some c =>
                          if isDeclaration c || LibFunc c
                          then Ok (disable IO_PRIV a Ctx)
                          else
                            match findFunction Ctx (callee_id c) with
                            | None => Ok (disable SPF_PRIV a Ctx)
                            | Some APCCallee =>
                                match funcParams APCCallee !! OpIdx with
                                | None => Ok (disable SPF_PRIV a Ctx)
                                | Some p =>
                                    if decide (parameterT p ≠ ARRAY_T)
                                    then Ok (disable SPF_PRIV a Ctx)
                                    else Ok Ctx
                                end
                            end
                      end
                end
          end
      end
  end.

Fixpoint for_each_memory (AT : AliasTree) (k : InstKind)
  (accs : list (MemoryLocation * nat)) (Ctx : APCContext)
  : Result APCContext :=
  match accs with
  | [] => Ok Ctx
  | (Loc, OpIdx) :: rest =>
      bind (on_memory AT k Loc OpIdx Ctx) (for_each_memory AT k rest)
  end.

Definition on_instruction (AT : AliasTree) (Inst : Instruction)
  (Ctx : APCContext) : Result APCContext :=
  match Inst with
  | LoadInst => Ok Ctx
  | StoreInst Op isPtr => if isPtr then on_store AT Op Ctx else Ok Ctx
  | MemInst k accs => for_each_memory AT k accs Ctx
  end.

Fixpoint on_instructions (AT : AliasTree) (Is : list Instruction)
  (Ctx : APCContext) : Result APCContext :=
  match Is with
  | [] => Ok Ctx
  | Inst :: rest =>
      bind (on_instruction AT Inst Ctx) (on_instructions AT rest)
  end.

(** [APCDistrLimitsChecker::runOnFunction]. *)
Definition runOnFunction (AT : AliasTree) (F : Function)
  (Ctx : APCContext) : Result (bool * APCContext) :=
  bind (if IndirectCall F then
          match findFunction Ctx (fn_id F) with
          | Some APCFunc => disable_params (funcParams APCFunc) Ctx
          | None => Ok Ctx
          end
        else Ok Ctx)
       (fun Ctx =>
          bind (on_instructions AT (instructions F) Ctx)
               (fun Ctx => Ok (false, Ctx))).
End Checker.

(** No formal array parameter is null (what the first assertion of
    [runOnFunction] checks). *)
Definition arrays_present (ps : list FuncParam) : Prop :=
  Forall (fun p => parameterT p = ARRAY_T -> is_Some (parameter p)) ps.

(** The locations for which the checker asks the alias tree. *)
Definition queried (Inst : Instruction) : list MemoryLocation :=
  match Inst with
  | LoadInst => []
  | StoreInst Op isPtr => if isPtr then [mkLoc Op (precise 1)] else []
  | MemInst _ accs => map fst accs
  end.

Definition queried_by (F : Function) : list MemoryLocation :=
  List.concat (map queried (instructions F)).

End DistributionLimits.

(* --------------------------------------------------------------------- *)
(** ** Sample inputs on which the theorems are exercised                  *)
(* --------------------------------------------------------------------- *)

Module Samples.
Import Memory Classifier.

Definition sample_rules : list Rule :=
  [ fun h => if forallb isWrite h then Some Private else None;
    fun h => if existsb isRead h && existsb isWrite h then Some Flow
             else None;
    fun h => if forallb (fun a => negb (isWrite a)) h then Some ReadOnly
             else None;
    fun _ => Some ExplicitAccess ].

Definition sample_accesses : list Access :=
  [ mkAccess (Known (mkLoc 1 None)) true false 0;
    mkAccess (Known (mkLoc 2 (Some 8%N))) true false 1;
    mkAccess (Known (mkLoc 1 None)) true true 2 ].

Definition sample_traits : LoopTraitSet :=
  [ (Known (mkLoc 1 None), [Flow; Anti]);
    (Known (mkLoc 2 (Some 8%N)), [ReadOnly; Lock]) ].

(** A small directive table: namespaces spf (1) and dvm (2); directives
    analysis (1) and region (2) of spf, actual (3) of dvm; clauses private
    (1) of analysis and name (2) of region. *)
Definition sample_table : Directives.Table :=
  Directives.mkTable 0 3 2 0 4 0 3
    (fun d => match d with 1 | 2 => 1 | 3 => 2 | _ => 0 end)
    (fun c => match c with 1 => 1 | 2 => 2 | _ => 0 end)
    (fun n => match n with 1 => "spf" | 2 => "dvm" | _ => "" end)
    (fun d => match d with
              | 1 => "analysis" | 2 => "region" | 3 => "actual" | _ => ""
              end)
    (fun c => match c with 1 => "private" | 2 => "name" | _ => "" end)
    (fun _ => false)
    (fun n s => if decide (n = 1)
                then if String.eqb s "analysis" then Some 1
                     else if String.eqb s "region" then Some 2 else None
                else if decide (n = 2)
                     then if String.eqb s "actual" then Some 3 else None
                     else None)
    (fun d s => if decide (d = 1)
                then if String.eqb s "private" then Some 1 else None
                else if decide (d = 2)
                     then if String.eqb s "name" then Some 2 else None
                     else None).

Definition ident (name : string) (l : Z) : Lex.Token :=
  Lex.mkToken tok.identifier l (String.length name) (Some name) None.

Definition eod_at (l : Z) : Lex.Token :=
  Lex.mkToken tok.eod l 0 None None.

(** A clause without arguments: the visitor has nothing to read. *)
Definition no_body : PragmaHandlers.Handler :=
  fun PP _ FirstToken Replacement => (PP, FirstToken, Replacement).

(** The handlers of the spf namespace: the replacer of [analysis] with its
    clause [private]. *)
Definition spf_handlers (s : string) : option PragmaHandlers.Handler :=
  if String.eqb s "analysis"
  then Some (PragmaHandlers.PragmaReplacer_HandlePragma sample_table 1
               "analysis"
               (fun c => if String.eqb c "private"
                         then Some (PragmaHandlers.HandleClause "private"
                                                                no_body)
                         else None)
               8)
  else None.

(** [#pragma spf analysis private], lexed up to the namespace. *)
Definition pp_analysis_private : Lex.Preprocessor :=
  Lex.mkPP [ident "analysis" 12; ident "private" 21; eod_at 28] [] [].

(** [#pragma spf analysis 42]: a number where a clause is expected. *)
Definition pp_analysis_number : Lex.Preprocessor :=
  Lex.mkPP [ident "analysis" 12;
            Lex.mkToken tok.numeric_constant 21%Z 2 None (Some "42");
            eod_at 23] [] [].

Definition spf_token : Lex.Token := ident "spf" 8.

(** A function that stores a pointer, [store ptr %7, ...], checked against
    an alias tree in which nothing is registered. *)
Definition store_of_pointer : DistributionLimits.Function :=
  DistributionLimits.mkFunction 0 false [DistributionLimits.StoreInst 7 true].

Definition no_arrays : DistributionLimits.APCContext unit :=
  DistributionLimits.mkCtx unit ∅ ∅ ∅.

(** The same function when the stored pointer is registered. *)
Definition tree_with_pointer : DistributionLimits.AliasTree :=
  {[ mkLoc 7 (precise 1) := DistributionLimits.mkEM 1 1 ]}.

(** A function without instructions that may be called indirectly, and a
    context in which its only formal parameter is an array that is null. *)
Definition called_indirectly : DistributionLimits.Function :=
  DistributionLimits.mkFunction 0 true [].

Definition null_formal : DistributionLimits.APCContext unit :=
  DistributionLimits.mkCtx unit ∅ ∅
    {[ 0 := DistributionLimits.mkFuncInfo
              [DistributionLimits.mkParam DistributionLimits.ARRAY_T None] ]}.

End Samples.

(* --------------------------------------------------------------------- *)
(** ** DefaultClauseVisitor (src/unnamed/part_000, lines 185-272)         *)
(* --------------------------------------------------------------------- *)

Module DefaultClauseVisitor.
Import Lex PragmaHandlers.

Section Visitor.
(** [getLevelKind() == ClauseExpr::EK_One]; the level is kept by the base
    class [ClauseVisitor] (ClauseVisitor.h is not in src/). *)
Variable LevelIsOne : bool.

Definition visitEK_Anchor (Tok : Token) (Replacement : list Token)
  : list Token :=
  if LevelIsOne then
    let End := Loc Tok in
    let End := if (0 <? Length Tok)%nat
               then getLocWithOffset End (Z.of_nat (Length Tok - 1))
               else End in
    AddToken tok.r_brace (Loc Tok) 1 Replacement
  else Replacement.

Definition visitEK_One (Tok : Token) (Replacement : list Token)
  : list Token :=
  let End := getLocWithOffset (Loc Tok) (Z.of_nat (Length Tok)) in
  AddToken tok.l_brace End 1 Replacement.



End Visitor.

End DefaultClauseVisitor.

(* --------------------------------------------------------------------- *)
(** ** Vocabulary for the shape of a replacement                          *)
(* --------------------------------------------------------------------- *)

Module Replacement.
Import Lex PragmaHandlers.

(** The nesting depth reached after the tokens [q] when starting at depth
    [d]; [None] when a closing token has nothing to close. *)
Fixpoint nesting (o c : tok.TokenKind) (d : nat) (q : list Token)
  : option nat :=
  match q with
  | [] => Some d
  | t :: q' =>
      if is_ o t then nesting o c (S d) q'
      else if is_ c t then
        match d with
        | O => None
        | S d' => nesting o c d' q'
        end
      else nesting o c d q'
  end.

Definition braces : nat -> list Token -> option nat :=
  nesting tok.l_brace tok.r_brace.

(** A handler that leaves what is in the replacement alone and appends
    tokens whose braces match. *)
Definition keeps_braces (h : Handler) : Prop :=
  forall PP Introducer FirstToken q,
    exists added,
      (h PP Introducer FirstToken q).2 = q ++ added /\
      braces 0 added = Some 0.

(** How a run of the clause loop ended. *)
Definition exit_of (r : LoopExit * ExternalPreprocessor * Token * list Token)
  : LoopExit := r.1.1.1.

(** What a token adds to the argument of the call built by
    [ReplacePragmaWithCall]. *)
Definition call_text (t : Token) : string :=
  if is_ tok.identifier t then getName t
  else if is_ tok.comma t then "," else "".

Fixpoint call_texts (ts : list Token) : string :=
  match ts with
  | [] => ""
  | t :: ts' => call_text t +:+ call_texts ts'
  end.

(** No token of the list is [tok::eod]. *)
Definition eod_free (ts : list Token) : Prop :=
  Forall (fun t => Kind t <> tok.eod) ts.



End Replacement.

(* --------------------------------------------------------------------- *)
(** ** DefaultPragmaHandlers.h: removal, and lookup by name               *)
(* --------------------------------------------------------------------- *)

Module HandlerRegistry.
Import Directives DefaultPragmaHandlers.

#[global] Instance ClauseReplacer_eq_dec : EqDecision ClauseReplacer.
Proof. solve_decision. Defined.
#[global] Instance PragmaReplacer_eq_dec : EqDecision PragmaReplacer.
Proof. solve_decision. Defined.
#[global] Instance PragmaNamespaceReplacer_eq_dec
  : EqDecision PragmaNamespaceReplacer.
Proof. solve_decision. Defined.
#[global] Instance DvmReplacer_eq_dec : EqDecision DvmReplacer.
Proof. solve_decision. Defined.
#[global] Instance PragmaHandler_eq_dec : EqDecision PragmaHandler.
Proof. solve_decision. Defined.

(** [PragmaNamespace::FindHandler] among the directive handlers attached
    to a namespace replacer: a [PragmaReplacer] goes by the name of its
    directive ([mName(tsar::getName(Id))], line 278). *)
Definition FindHandler_in {H : Type} (D : Table)
  (handler_of : PragmaReplacer -> H) (NR : PragmaNamespaceReplacer)
  (DirectiveName : string) : option H :=
  match List.find (fun PR => String.eqb (getDirectiveName D (mDirectiveId PR))
                                        DirectiveName) (mPragmas NR) with
  | Some PR => Some (handler_of PR)
  | None => None
  end.

End HandlerRegistry.

(* --------------------------------------------------------------------- *)
(** ** DistributionLimits.cpp: the checker over a whole module            *)
(* --------------------------------------------------------------------- *)

Module DistributionLimitsIPO.
Import Memory DistributionLimits.

(** A run of the module pass: it completes, an [assert] fails, or a null
    array is dereferenced (line 241 calls a method of
    [funcParams.parameters[I]] without a check). *)
Inductive Outcome (A : Type) :=
| Done (a : A)
| Asserted (msg : string)
| NullArray.
Arguments Done {A} a.
Arguments Asserted {A} msg.
Arguments NullArray {A}.

Definition and_then {A B : Type} (r : Outcome A) (k : A -> Outcome B)
  : Outcome B :=
  match r with
  | Done a => k a
  | Asserted m => Asserted m
  | NullArray => NullArray
  end.

(** One entry of [actualParams] with its entry of [parentForPointer]: the
    call statement (null, or a call of the function [callee]) and the
    actual parameters. *)
Record CallFrom := mkCallFrom {
  parentForPointer : option nat;
  Actuals : list FuncParam
}.

Definition call_must_not_be_null : string :=
  "Call statement must not be null!".
Definition function_must_be_registered : string :=
  "Function must be registered!".

Section IPOChecker.
Variable Array : Type.
Variable SetDistributeFlag : distFlag -> Array -> Array.

(** What the pass reads of the APC context besides [APCContext]: the calls
    made from each registered function. *)
Definition CallMap : Type := gmap nat (list CallFrom).

(** Is the actual parameter at position [I] missing or not an array? *)
Definition no_array_at (Actuals : list FuncParam) (I : nat) : bool :=
  match Actuals !! I with
  | None => true
  | Some p => negb (bool_decide (parameterT p = ARRAY_T))
  end.

(** Lines 236-247: the loop over the formal parameters of the callee,
    from position [I] on. *)
Fixpoint check_params (formals : list FuncParam) (Actuals : list FuncParam)
  (I : nat) (Ctx : APCContext Array) : Outcome (APCContext Array) :=
  match formals with
  | [] => Done Ctx
  | p :: rest =>
      if bool_decide (parameterT p = ARRAY_T) && no_array_at Actuals I then
        match parameter p with
        | None => NullArray
        | Some a =>
            check_params rest Actuals (S I)
                         (disable Array SetDistributeFlag SPF_PRIV a Ctx)
        end
      else check_params rest Actuals (S I) Ctx
  end.

(** Lines 226-248: the loop over the calls made from one function. *)
Fixpoint check_calls (calls : list CallFrom) (Ctx : APCContext Array)
  : Outcome (APCContext Array) :=
  match calls with
  | [] => Done Ctx
  | c :: rest =>
      match parentForPointer c with
      | None => Asserted call_must_not_be_null
      | Some Callee =>
          match findFunction Array Ctx Callee with
          | None => Asserted function_must_be_registered
          | Some APCCallee =>
              and_then (check_params (funcParams APCCallee) (Actuals c) 0 Ctx)
                       (check_calls rest)
          end
      end
  end.

(** [APCDistrLimitsIPOChecker::runOnModule] over the functions [M] of the
    module. *)
Fixpoint runOnFunctions (Calls : CallMap) (M : list nat)
  (Ctx : APCContext Array) : Outcome (APCContext Array) :=
  match M with
  | [] => Done Ctx
  | F :: rest =>
      match findFunction Array Ctx F with
      | None => runOnFunctions Calls rest Ctx
      | Some _ =>
          and_then (check_calls (default [] (Calls !! F)) Ctx)
                   (runOnFunctions Calls rest)
      end
  end.

Definition runOnModule (Calls : CallMap) (M : list nat)
  (Ctx : APCContext Array) : Outcome (bool * APCContext Array) :=
  and_then (runOnFunctions Calls M Ctx) (fun Ctx => Done (false, Ctx)).
End IPOChecker.

(** The array [a] carries the flag [SPF_PRIV]. *)
Definition excluded {Array : Type}
  (SetDistributeFlag : distFlag -> Array -> Array) (a : nat)
  (C : APCContext Array) : Prop :=
  exists A, arrays Array C !! a = Some (SetDistributeFlag SPF_PRIV A).

(** What a completed step keeps: the functions, the presence of an array
    and its exclusion. *)
Definition keeps_array {Array : Type}
  (SetDistributeFlag : distFlag -> Array -> Array) (a : nat)
  (C C' : APCContext Array) : Prop :=
  functions Array C' = functions Array C /\
  (is_Some (arrays Array C !! a) -> is_Some (arrays Array C' !! a)) /\
  (excluded SetDistributeFlag a C -> excluded SetDistributeFlag a C').

(** A call passes an array wherever the callee expects one. *)
Definition arrays_passed (formals actuals : list FuncParam) : Prop :=
  forall I p, formals !! I = Some p -> parameterT p = ARRAY_T ->
              exists q, actuals !! I = Some q /\ parameterT q = ARRAY_T.

End DistributionLimitsIPO.

(* --------------------------------------------------------------------- *)
(** ** Vocabulary for what the checkers do to the arrays                  *)
(* --------------------------------------------------------------------- *)

Module Flags.
Import DistributionLimits.

Section Flags.
Variable Array : Type.
Variable SetDistributeFlag : distFlag -> Array -> Array.
Variable IsNotDistribute : Array -> bool.

(** From [C1] to [C2] nothing changed but arrays, and no array that was
    excluded from distribution is distributable again. *)
Definition flags_grow (C1 C2 : APCContext Array) : Prop :=
  array_of Array C2 = array_of Array C1 /\
  functions Array C2 = functions Array C1 /\
  forall a,
    match arrays Array C1 !! a, arrays Array C2 !! a with
    | Some A1, Some A2 =>
        IsNotDistribute A1 = true -> IsNotDistribute A2 = true
    | None, None => True
    | _, _ => False
    end.

(** The array [A] after [SetDistributeFlag] has been called on it with
    each flag of [flags], the last of the list first. *)
Definition flagged_with (flags : list distFlag) (A : Array) : Array :=
  foldr SetDistributeFlag A flags.

(** From [C1] to [C2] every array is the array that was there, with the
    flags that calls of [SetDistributeFlag] have set on it; no array has
    appeared, gone or taken the place of another. *)
Definition only_flagged (C1 C2 : APCContext Array) : Prop :=
  array_of Array C2 = array_of Array C1 /\
  functions Array C2 = functions Array C1 /\
  forall a,
    match arrays Array C1 !! a, arrays Array C2 !! a with
    | Some A1, Some A2 => exists flags, A2 = flagged_with flags A1
    | None, None => True
    | _, _ => False
    end.
End Flags.

End Flags.

(* --------------------------------------------------------------------- *)
(** ** Instrumentation.cpp (src/unnamed/part_001): free names             *)
(* --------------------------------------------------------------------- *)

Module Suffix.

(** [std::numeric_limits<unsigned>::max()] and [++] on [unsigned]. *)
Definition UINT_MAX : N := 4294967295.
Definition incr (n : N) : N := ((n + 1) mod 4294967296)%N.

(** A module, as far as names go: who it is and the names of its global
    values ([Module::getNamedValue]). *)
Record Module := mkModule {
  module_id : nat;
  named_values : gset string
}.

(** [(Name + Twine(Suffix)).str()]. *)
Definition suffixed (Name : string) (Suffix : N) : string :=
  Name +:+ pretty Suffix.

(** The [while] loop of the first [findAvailableSuffix], lines 1245-1250;
    the outer [None] stands for a loop that has not ended within [fuel]
    rounds. *)
Fixpoint findAvailableSuffix_loop (fuel : nat) (M : Module) (MinSuffix : N)
  (Name : string) : option (option N) :=
  match fuel with
  | O => None
  | S fuel' =>
      if decide (suffixed Name MinSuffix ∈ named_values M) then
        let MinSuffix := incr MinSuffix in
        if decide (MinSuffix = UINT_MAX) then Some None
        else findAvailableSuffix_loop fuel' M MinSuffix Name
      else Some (Some MinSuffix)
  end.

(** [findAvailableSuffix(M, MinSuffix, Name)]: one round more than the
    module has names. *)
Definition findAvailableSuffix (M : Module) (MinSuffix : N) (Name : string)
  : option (option N) :=
  findAvailableSuffix_loop (S (size (named_values M))) M MinSuffix Name.




End Suffix.

(* --------------------------------------------------------------------- *)
(** ** Instrumentation.cpp (src/unnamed/part_001): metadata strings       *)
(* --------------------------------------------------------------------- *)

Module DIString.

(** [std::replace(first, last, old, new)] on the characters of a string. *)
Fixpoint replace (old new : ascii) (s : string) : string :=
  match s with
  | EmptyString => EmptyString
  | String a s' =>
      String (if Ascii.eqb a old then new else a) (replace old new s')
  end.

(** Whether [c] is one of the characters of [s]. *)
Fixpoint occurs (c : ascii) (s : string) : bool :=
  match s with
  | EmptyString => false
  | String a s' => Ascii.eqb a c || occurs c s'
  end.

Record DIVariable := mkDIVariable {
  getFilename : string;
  getLine : N
}.

Record DIMemoryLocation := mkDIMemoryLocation {
  Var : DIVariable;
  isValid : bool
}.

Record DebugLoc := mkDebugLoc {
  ScopeFilename : string;
  Line : N;
  Col : N
}.

(** [DIM && DIM->isValid()]. *)
Definition valid (DIM : option DIMemoryLocation) : option DIMemoryLocation :=
  match DIM with
  | Some D => if isValid D then Some D else None
  | None => None
  end.

Section Register.
Variable getLanguage : DIVariable -> option N.
Variable unparseToString : N -> DIMemoryLocation -> option string.

(** Lines 1151-1154 of [regValue]. *)
Definition DeclStr (DIM : option DIMemoryLocation) (SourceFileName : string)
  : string :=
  match valid DIM with
  | Some D =>
      "file=" +:+ getFilename (Var D) +:+ "*" +:+
      "line1=" +:+ pretty (getLine (Var D)) +:+ "*"
  | None => "file=" +:+ SourceFileName +:+ "*"
  end.

(** The name a variable is registered under, lines 1156-1163: [None] where
    [NameStr] stays empty. *)
Definition DIName (DIM : option DIMemoryLocation) : option string :=
  match valid DIM with
  | Some D =>
      match getLanguage (Var D) with
      | Some DWLang =>
          match unparseToString DWLang D with
          | Some DIName => Some (replace "*" "^" DIName)
          | None => None
          end
      | None => None
      end
  | None => None
  end.

Definition NameStr (DIM : option DIMemoryLocation) : string :=
  match DIName DIM with
  | Some DIName => "name1=" +:+ DIName +:+ "*"
  | None => ""
  end.

(** Lines 1168-1169. *)
Definition TypeStr (Rank : N) : string :=
  if decide (Rank = 0%N) then "var_name" +:+ "*"
  else "arr_name" +:+ "*" +:+ "rank=" +:+ pretty Rank +:+ "*".

(** The string that [regValue] hands to [createInitDICall],
    lines 1170-1173. *)
Definition regValue_string (DIM : option DIMemoryLocation)
  (SourceFileName : string) (TypeId Rank : N) : string :=
  "type=" +:+ TypeStr Rank +:+
  "vtype=" +:+ pretty TypeId +:+ "*" +:+ DeclStr DIM SourceFileName +:+
  NameStr DIM +:+ "*".

End Register.

(** Lines 1137-1138 of [regDebugLoc]. *)
Definition ColStr (DbgLoc : DebugLoc) : string :=
  if decide (Col DbgLoc = 0%N) then ""
  else "col1=" +:+ pretty (Col DbgLoc) +:+ "*".

(** The string that [regDebugLoc] hands to [createInitDICall] for a known
    location, lines 1139-1142. *)
Definition regDebugLoc_string (DbgLoc : DebugLoc) : string :=
  "type=" +:+ "file_name" +:+ "*" +:+
  "file=" +:+ ScopeFilename DbgLoc +:+ "*" +:+
  "line1=" +:+ pretty (Line DbgLoc) +:+ "*" +:+ ColStr DbgLoc +:+ "*".

(** Fields written one after the other, each closed by an asterisk. *)
Definition closed_fields (fields : list string) : string :=
  foldr (fun f rest => f +:+ String "*" rest) "" fields.

End DIString.

(* --------------------------------------------------------------------- *)
(** ** More sample inputs                                                 *)
(* --------------------------------------------------------------------- *)

Module MoreSamples.
Export Samples.

(** [#pragma spf analysis 42] followed by a token of the next line. *)
Definition pp_with_next : Lex.Preprocessor :=
  Lex.mkPP [ident "analysis" 12;
            Lex.mkToken tok.numeric_constant 21%Z 2 None (Some "42");
            eod_at 23; ident "next" 40] [] [].

(** The clause handlers of the sample directive [analysis]. *)
Definition analysis_clauses (c : string) : option PragmaHandlers.Handler :=
  if String.eqb c "private"
  then Some (PragmaHandlers.HandleClause "private" no_body) else None.

(** The tokens behind [#pragma spf analysis] in
    [#pragma spf analysis private]. *)
Definition relex_private : Lex.ExternalPreprocessor :=
  Lex.mkExtPP [ident "private" 21; eod_at 28] [].

(** [#pragma dvm actual(A, B)], lexed up to the directive, and a token of
    the next line. *)
Definition pp_actual : Lex.Preprocessor :=
  Lex.mkPP [ Lex.mkToken tok.l_paren 18%Z 1 None None;
             ident "A" 19; Lex.mkToken tok.comma 20%Z 1 None None;
             ident "B" 22; Lex.mkToken tok.r_paren 23%Z 1 None None;
             eod_at 24; ident "next" 30 ] [] [].

(** [#pragma dvm actual(A)], lexed up to the namespace. *)
Definition pp_actual_directive : Lex.Preprocessor :=
  Lex.mkPP [ ident "actual" 12; Lex.mkToken tok.l_paren 18%Z 1 None None;
             ident "A" 19; Lex.mkToken tok.r_paren 20%Z 1 None None;
             eod_at 21 ] [] [].

(** Arrays as a single bit, "excluded from distribution": a flag
    excludes. *)
Definition set_bit (flag : DistributionLimits.distFlag) (A : bool) : bool :=
  true.
Definition bit_is_set (A : bool) : bool := A.

(** Array 5 stands for the debug memory 1 and is still distributable. *)
Definition one_array : DistributionLimits.APCContext bool :=
  DistributionLimits.mkCtx bool {[ 5 := false ]} {[ 1 := 5 ]} ∅.

(** The caller 0 and the callee 1, whose only formal parameter is the
    array 5. *)
Definition two_functions : DistributionLimits.APCContext bool :=
  DistributionLimits.mkCtx bool {[ 5 := false ]} {[ 1 := 5 ]}
    {[ 0 := DistributionLimits.mkFuncInfo [];
       1 := DistributionLimits.mkFuncInfo
              [DistributionLimits.mkParam DistributionLimits.ARRAY_T
                                          (Some 5)] ]}.

(** Function 0 calls function 1 with an array ... *)
Definition call_with_array : DistributionLimitsIPO.CallMap :=
  {[ 0 := [DistributionLimitsIPO.mkCallFrom (Some 1)
             [DistributionLimits.mkParam DistributionLimits.ARRAY_T
                                         (Some 5)]] ]}.

(** ... and with a scalar. *)
Definition scalar_call : DistributionLimitsIPO.CallFrom :=
  DistributionLimitsIPO.mkCallFrom (Some 1)
    [DistributionLimits.mkParam DistributionLimits.SCALAR_T None].

Definition call_with_scalar : DistributionLimitsIPO.CallMap :=
  {[ 0 := [scalar_call] ]}.


(** Two modules of one program: the first has the initialisation function
    with suffix 1, the second the one with suffix 0. *)
Definition init_name : string := "sapfor.init.module".


Definition second_module : Suffix.Module :=
  Suffix.mkModule 1 {[ "sapfor.init.module0" ]}.

(** A variable of the fixture whose name unparses to a dereference. *)
Definition c_language (V : DIString.DIVariable) : option N := Some 12%N.

Definition unparse_deref (DWLang : N) (DIM : DIString.DIMemoryLocation)
  : option string := Some "*X".

Definition fixture_variable : DIString.DIMemoryLocation :=
  DIString.mkDIMemoryLocation
    (DIString.mkDIVariable "private_array_2.c" 1%N) true.

Definition fixture_loop_loc : DIString.DebugLoc :=
  DIString.mkDebugLoc "private_array_2.c" 3%N 3%N.

End MoreSamples.

(* ===================================================================== *)
(** * Part II: theorems                                                   *)
(* ===================================================================== *)

(* --------------------------------------------------------------------- *)
(** ** The report of the fixture                                          *)
(* --------------------------------------------------------------------- *)

Section FixtureFacts.
Import Text Fixture.

Lemma strip_prefix_app (p s : string) : strip_prefix p (p +:+ s) = Some s.
Proof.
  induction p as [|a p IH]; simpl; [reflexivity|].
  rewrite Ascii.eqb_refl. exact IH.
Qed.

Lemma break_at_head (c : ascii) (s : string) :
  break_at c (String c s) = Some (EmptyString, s).
Proof. simpl. rewrite Ascii.eqb_refl. reflexivity. Qed.

Example split_on_fields : split_on "," "Int,1,,1" = ["Int"; "1"; ""; "1"].
Proof. reflexivity. Qed.

Example parse_nat_24 : parse_nat "24" = Some 24.
Proof. reflexivity. Qed.

Example parse_nat_rejects : parse_nat "?" = None /\ parse_nat "" = None.
Proof. split; reflexivity. Qed.

Example show_nat_samples :
  show_nat 0 = "0" /\ show_nat 18 = "18" /\ show_nat 240 = "240".
Proof. repeat split; vm_compute; reflexivity. Qed.

Example parse_entry_with_suffix :
  parse_entry "<*X:1:18, ?>:[1,1] tail"
  = Some (mkEntry "*X" 1 18 None (Some ["1"; "1"]), " tail").
Proof. vm_compute. reflexivity. Qed.

(** Every directive of the fixture is read, and the loop report that is
    read prints back to the very patterns of the directives. *)
Lemma expected_round_trip :
  exists r, expected = Some r /\
    mapM pattern (drop 1 check_lines) = Some (show_loop r).
Proof. eexists. split; vm_compute; reflexivity. Qed.

Lemma expected_header :
  exists r, expected = Some r /\
    r_depth r = 1 /\ r_file r = "private_array_2.c" /\
    r_line r = 4 /\ r_col r = 3.
Proof. eexists. split; [vm_compute; reflexivity|]. repeat split. Qed.

(** The positions in the report are positions of the source: the loop
    is the [for] statement of line 4, and every entry points at the
    declaration of its variable. *)
Lemma expected_positions_in_source :
  exists r, expected = Some r /\
    (strip_prefix "for" <$> text_at (r_line r) (r_col r)
     = Some (Some " (int I = 1; I < N - 1; ++I) {")) /\
    forallb points_at_variable (all_entries r) = true.
Proof. eexists. split; [|split]; vm_compute; reflexivity. Qed.

(** The fixture never lists a location that is under [flow] or [anti]
    as private (of any kind), read only or induction as well. *)
Lemma expected_dependence_exclusive :
  exists r, expected = Some r /\
    forall n, n ∈ names_in "flow" r ++ names_in "anti" r ->
      n ∉ names_in "private" r ++ names_in "first private" r
          ++ names_in "last private" r ++ names_in "read only" r
          ++ names_in "induction" r.
Proof.
  eexists. split; [vm_compute; reflexivity|].
  intros n Hn. vm_compute in Hn. vm_compute.
  assert (n = "*X") as ->.
  { apply elem_of_cons in Hn as [->|Hn]; [done|].
    by apply list_elem_of_singleton in Hn. }
  intros H. repeat (apply elem_of_cons in H as [H|H]; [discriminate H|]).
  by apply elem_of_nil in H.
Qed.


(** What the directives of the fixture require for the scalars: the
    pattern under [induction] holds [I] with the descriptor type [Int],
    start 1, step 1 (the end is left open); [N] stands under [read only];
    [I] and [N] are one merged group under [lock]; the group under
    [header access] is made of [*X], [I] and [N]; [I], [N] and [X] stand
    under [explicit access] as one merged group and under
    [explicit access (separate)] as individual entries. *)
Lemma expected_scalar_traits :
  exists r, expected = Some r /\
    (exists e, entries_in "induction" r = [e] /\ e_name e = "I" /\
       induction_descriptor e
       = Some (mkInduction "Int" (Some 1%Z) None (Some 1%Z))) /\
    "N" ∈ names_in "read only" r /\
    (exists l, lines_of "lock" r = [l] /\ merged l = true /\
       map e_name (l_entries l) = ["I"; "N"]) /\
    (exists l, lines_of "header access" r = [l] /\ merged l = true /\
       map e_name (l_entries l) = ["*X"; "I"; "N"] /\
       map variable_of (l_entries l) = ["X"; "I"; "N"]) /\
    (exists l, lines_of "explicit access" r = [l] /\ merged l = true /\
       map e_name (l_entries l) = ["I"; "N"; "X"]) /\
    (exists l, lines_of "explicit access (separate)" r = [l] /\
       separate l = true /\ map e_name (l_entries l) = ["I"; "N"; "X"]).
Proof.
  eexists. split; [vm_compute; reflexivity|].
  split; [eexists; split; [vm_compute; reflexivity|]; repeat split|].
  split; [vm_compute; apply list_elem_of_here|].
  repeat split; eexists; (split; [vm_compute; reflexivity|]); repeat split.
Qed.

End FixtureFacts.

(* --------------------------------------------------------------------- *)
(** ** The dependences that the loop of the fixture carries               *)
(* --------------------------------------------------------------------- *)

Section DependenceFacts.
Import Classifier Dependence.




Lemma range_singleton (ds : list Z) (d : Z) :
  ds <> [] -> (forall k, k ∈ ds -> k = d) -> range ds = Some (d, d).
Proof.
  destruct ds as [|x rest]; [done|]. intros _ Hall. simpl.
  assert (x = d) as -> by (apply Hall, list_elem_of_here).
  assert (Hrest : forall k, k ∈ rest -> k = d).
  { intros k Hk. apply Hall. apply elem_of_cons. by right. }
  clear Hall. f_equal. induction rest as [|y rest IH]; [reflexivity|].
  assert (y = d) as -> by (apply Hrest, list_elem_of_here).
  simpl. assert (Hr : forall k, k ∈ rest -> k = d).
  { intros k Hk. apply Hrest. apply elem_of_cons. by right. }
  specialize (IH Hr). injection IH as -> ->. f_equal; lia.
Qed.



End DependenceFacts.

(* --------------------------------------------------------------------- *)
(** ** The classifier: exclusivity of Private and Flow                    *)
(* --------------------------------------------------------------------- *)

Section ClassifierFacts.
Import Memory Classifier Samples.

Lemma find_tagged {A B : Type} `{EqDecision A} (f : A -> B) (l : list A)
  (t : A) (p : A * B) :
  List.find (fun p => bool_decide (p.1 = t)) (map (fun a => (a, f a)) l)
  = Some p -> p = (t, f t).
Proof.
  induction l as [|a l IH]; simpl; [discriminate|].
  case_bool_decide as Ha; simpl in Ha.
  - intros [= <-]. subst a. reflexivity.
  - exact IH.
Qed.

Lemma find_tagged_some {A B : Type} `{EqDecision A} (f : A -> B)
  (l : list A) (t : A) :
  t ∈ l ->
  List.find (fun p => bool_decide (p.1 = t)) (map (fun a => (a, f a)) l)
  = Some (t, f t).
Proof.
  induction l as [|a l IH]; intros Ht; [by apply elem_of_nil in Ht|].
  simpl. case_bool_decide as Ha; simpl in Ha.
  - subst a. reflexivity.
  - apply elem_of_cons in Ht as [->|Ht]; [done|]. exact (IH Ht).
Qed.

Lemma targets_from_spec (seen : list Target) (accs : list Access)
  (t : Target) :
  t ∈ targets_from seen accs <-> t ∈ map target accs /\ t ∉ seen.
Proof.
  revert seen. induction accs as [|a accs IH]; intros seen; simpl.
  - split; [intros H; by apply elem_of_nil in H|].
    intros [H _]. by apply elem_of_nil in H.
  - destruct (decide (target a ∈ seen)) as [Hin|Hnin].
    + rewrite IH, elem_of_cons. split; [tauto|].
      intros [[->|H] Hs]; [done|tauto].
    + rewrite !elem_of_cons, IH, elem_of_cons. split.
      * intros [->|[H Hs]]; [tauto|]. split; [tauto|]. tauto.
      * intros [[->|H] Hs]; [tauto|].
        destruct (decide (t = target a)) as [->|Hne]; [tauto|]. tauto.
Qed.

(** Every target that is accessed in the loop gets its resolution. *)
Lemma classify_total (rules : list Rule) (accs : list Access) (t : Target) :
  t ∈ map target accs ->
  labels_of (classify rules accs) t
  = Some (resolve (candidates rules t accs)).
Proof.
  intros Ht. unfold labels_of, classify.
  rewrite (find_tagged_some _ (targets accs) t); [reflexivity|].
  apply targets_from_spec. split; [exact Ht|apply not_elem_of_nil].
Qed.

Lemma labels_of_classify (rules : list Rule) (accs : list Access)
  (t : Target) (ls : list Label) :
  labels_of (classify rules accs) t = Some ls ->
  ls = resolve (candidates rules t accs).
Proof.
  unfold labels_of, classify.
  destruct (List.find _ _) as [p|] eqn:Hf; [|discriminate].
  apply find_tagged in Hf. subst p. intros [= <-]. reflexivity.
Qed.

Lemma resolve_keeps_no_suppressed (ls : list Label) (l : Label) :
  dependence_detected ls = true -> l ∈ resolve ls -> suppressed l = false.
Proof.
  intros Hd Hl. unfold resolve in Hl. rewrite Hd in Hl.
  apply list_elem_of_In, filter_In in Hl as [_ Hl].
  by apply negb_true_iff in Hl.
Qed.

Lemma resolve_subset (ls : list Label) (l : Label) : l ∈ resolve ls -> l ∈ ls.
Proof.
  unfold resolve. destruct (dependence_detected ls); [|done].
  intros Hl. apply list_elem_of_In, filter_In in Hl as [Hl _].
  by apply list_elem_of_In.
Qed.

Lemma dependence_member (ls : list Label) (l : Label) :
  l ∈ ls -> is_dependence l = true -> dependence_detected ls = true.
Proof.
  intros Hl Hd. apply existsb_exists. exists l.
  split; [by apply list_elem_of_In|exact Hd].
Qed.

Lemma resolve_exclusive (ls : list Label) :
  ~ (Private ∈ resolve ls /\ Flow ∈ resolve ls).
Proof.
  intros [Hp Hf].
  assert (Hd : dependence_detected ls = true).
  { apply (dependence_member ls Flow); [by apply resolve_subset|done]. }
  by pose proof (resolve_keeps_no_suppressed ls Private Hd Hp).
Qed.

(** Resolution is a single step: resolving a resolved set changes
    nothing. *)
Lemma resolve_idempotent (ls : list Label) : resolve (resolve ls) = resolve ls.
Proof.
  unfold resolve. destruct (dependence_detected ls) eqn:Hd; [|by rewrite Hd].
  assert (Hd' : dependence_detected
                  (List.filter (fun l => negb (suppressed l)) ls) = true).
  { apply existsb_exists in Hd as (l & Hin & Hl). apply existsb_exists.
    exists l. split; [|exact Hl]. apply filter_In. split; [exact Hin|].
    by destruct l. }
  rewrite Hd'. clear Hd Hd'. induction ls as [|l ls IH]; [reflexivity|].
  simpl. destruct (suppressed l) eqn:Hs; simpl; [exact IH|].
  rewrite Hs. simpl. by rewrite IH.
Qed.

(** A rule list that proposes Private as well as Flow for a written
    location: the resolution keeps the dependence only. *)
Example resolve_conflict :
  resolve [Private; Flow; HeaderAccess; ExplicitAccess]
  = [Flow; HeaderAccess; ExplicitAccess].
Proof. reflexivity. Qed.

Example unresolved_is_pessimistic :
  classify [] [mkAccess (Unresolved 3) true false 0]
  = [(Unresolved 3, [Flow; Anti; Output])].
Proof. vm_compute. reflexivity. Qed.

(** C1. For every loop (its accesses [accs], whatever the derivation rules
    are) and every location [t], the resolved label set [ls] of the
    classifier never holds both [Private] and [Flow]; and when a
    dependence (Flow, Anti or Output) is among the candidates for [t], the
    labels Private, ReadOnly and Induction are not in [ls]. *)
Theorem classifier_private_flow_exclusive
  (rules : list Rule) (accs : list Access) (t : Target) (ls : list Label)
  (H : labels_of (classify rules accs) t = Some ls) :
  ~ (Private ∈ ls /\ Flow ∈ ls) /\
  (dependence_detected (candidates rules t accs) = true ->
   (Private ∉ ls) /\ (ReadOnly ∉ ls) /\ (Induction ∉ ls)).
Proof.
  apply labels_of_classify in H. subst ls. split.
  - apply resolve_exclusive.
  - intros Hd. repeat split; intros Hin;
      by pose proof (resolve_keeps_no_suppressed _ _ Hd Hin).
Qed.

Lemma classifier_private_flow_exclusive_witness :
  labels_of (classify sample_rules sample_accesses) (Known (mkLoc 1 None))
  = Some [Flow; ExplicitAccess] /\
  ~ (Private ∈ [Flow; ExplicitAccess] /\ Flow ∈ [Flow; ExplicitAccess]).
Proof.
  split; [vm_compute; reflexivity|].
  apply (classifier_private_flow_exclusive sample_rules sample_accesses
           (Known (mkLoc 1 None)) [Flow; ExplicitAccess]).
  vm_compute. reflexivity.
Defined.

End ClassifierFacts.

(* --------------------------------------------------------------------- *)
(** ** Emission: section order and the two explicit access sections       *)
(* --------------------------------------------------------------------- *)

Section EmissionFacts.
Import Classifier Emission Fixture Samples.

Lemma emit_section_fst (lts : LoopTraitSet) (s : SectionId)
  (p : SectionId * list Target) :
  emit_section lts s = Some p -> p.1 = s.
Proof.
  unfold emit_section. destruct (members _ _); [discriminate|].
  by intros [= <-].
Qed.

(** What [emit] prints for a list of sections, by the sections that have
    members. *)
Lemma emitted_as_filter (lts : LoopTraitSet) (order : list SectionId) :
  map fst (omap (emit_section lts) order)
  = List.filter
      (fun s => negb (bool_decide (members (section_label s) lts = [])))
      order.
Proof.
  induction order as [|s order IH]; [reflexivity|].
  change (omap (emit_section lts) (s :: order))
    with (match emit_section lts s with
          | Some y => y :: omap (emit_section lts) order
          | None => omap (emit_section lts) order
          end).
  unfold emit_section at 1. cbn [List.filter].
  destruct (members (section_label s) lts) eqn:Hm.
  - rewrite bool_decide_eq_true_2 by reflexivity. exact IH.
  - rewrite bool_decide_eq_false_2 by discriminate.
    cbn [negb map fst]. by rewrite IH.
Qed.

Lemma filter_sublist {A : Type} (f : A -> bool) (l : list A) :
  List.filter f l `sublist_of` l.
Proof.
  induction l as [|a l IH]; simpl; [constructor|].
  destruct (f a); by constructor.
Qed.

Lemma members_elem (l : Label) (lts : LoopTraitSet) (t : Target) :
  t ∈ members l lts <-> exists ls, (t, ls) ∈ lts /\ l ∈ ls.
Proof.
  unfold members. rewrite list_elem_of_In, in_map_iff. split.
  - intros ([t' ls] & <- & Hin). apply filter_In in Hin as [Hin Hl].
    exists ls. split; [by apply list_elem_of_In|].
    by apply bool_decide_eq_true in Hl.
  - intros (ls & Hin & Hl). exists (t, ls). split; [reflexivity|].
    apply filter_In. split; [by apply list_elem_of_In|].
    by apply bool_decide_eq_true.
Qed.

Lemma members_empty_perm (l : Label) (lts lts' : LoopTraitSet) :
  lts ≡ₚ lts' -> members l lts = [] -> members l lts' = [].
Proof.
  intros Hp He. apply elem_of_nil_inv. intros t Ht.
  apply members_elem in Ht as (ls & Hin & Hl).
  assert (Ht : t ∈ members l lts).
  { apply members_elem. exists ls. split; [|exact Hl]. by rewrite Hp. }
  rewrite He in Ht. by apply elem_of_nil in Ht.
Qed.

Lemma emitted_sections_perm (lts lts' : LoopTraitSet) :
  lts ≡ₚ lts' -> emitted_sections lts = emitted_sections lts'.
Proof.
  intros Hp. unfold emitted_sections, emit. rewrite !emitted_as_filter.
  apply filter_ext. intros s. f_equal.
  apply bool_decide_ext. split; apply members_empty_perm; [done|].
  by symmetry.
Qed.

Lemma emitted_sections_full (lts : LoopTraitSet) :
  (forall s, members (section_label s) lts <> []) ->
  emitted_sections lts = section_order.
Proof.
  intros Hfull. unfold emitted_sections, emit. rewrite emitted_as_filter.
  induction section_order as [|s order IH]; [reflexivity|].
  simpl. rewrite bool_decide_eq_false_2 by apply Hfull. simpl. by rewrite IH.
Qed.

Lemma expected_titles :
  exists r, expected = Some r /\ titles r = map section_title section_order.
Proof. eexists. split; vm_compute; reflexivity. Qed.

(** C4. For every analysed loop the sections that [emit] produces follow
    the fixed order first private, anti, flow, induction, read only, lock,
    header access, explicit access, explicit access (separate): they are
    that list with the sections that have no member left out, they are all
    of it when every section has a member, and they do not depend on the
    order in which the traits were collected. The report of the fixture
    shows the nine sections in this order. *)
Theorem emit_section_order (lts lts' : LoopTraitSet) (H : lts ≡ₚ lts') :
  emitted_sections lts `sublist_of` section_order /\
  emitted_sections lts' = emitted_sections lts /\
  ((forall s, members (section_label s) lts <> []) ->
   emitted_sections lts = section_order) /\
  (exists r, expected = Some r /\
     titles r = map section_title section_order).
Proof.
  split; [|split; [|split]].
  - unfold emitted_sections, emit. rewrite emitted_as_filter.
    apply filter_sublist.
  - symmetry. by apply emitted_sections_perm.
  - apply emitted_sections_full.
  - exact expected_titles.
Qed.

Lemma emit_section_order_witness :
  emitted_sections (rev sample_traits) = emitted_sections sample_traits /\
  emitted_sections sample_traits = [SecAnti; SecFlow; SecReadOnly; SecLock].
Proof.
  split; [|vm_compute; reflexivity].
  apply (emit_section_order sample_traits (rev sample_traits)).
  vm_compute. apply perm_swap.
Defined.

Lemma section_members_emit (lts : LoopTraitSet) (s : SectionId)
  (order : list SectionId) :
  section_members s (omap (emit_section lts) order)
  = if bool_decide (s ∈ order)
    then match members (section_label s) lts with
         | [] => None
         | ts => Some ts
         end
    else None.
Proof.
  unfold section_members.
  induction order as [|s' order IH]; [reflexivity|].
  change (omap (emit_section lts) (s' :: order))
    with (match emit_section lts s' with
          | Some y => y :: omap (emit_section lts) order
          | None => omap (emit_section lts) order
          end).
  destruct (decide (s = s')) as [<-|Hne].
  - rewrite (bool_decide_eq_true_2 (s ∈ s :: order))
      by apply list_elem_of_here.
    unfold emit_section at 1.
    destruct (members (section_label s) lts) eqn:Hm.
    + rewrite IH. by destruct (bool_decide _).
    + cbn [List.find fst snd].
      by rewrite bool_decide_eq_true_2 by reflexivity.
  - rewrite (bool_decide_ext (s ∈ s' :: order) (s ∈ order))
      by (rewrite elem_of_cons; tauto).
    destruct (emit_section lts s') as [p|] eqn:He; [|exact IH].
    cbn [List.find]. rewrite bool_decide_eq_false_2; [exact IH|].
    rewrite (emit_section_fst _ _ _ He). congruence.
Qed.

Lemma expected_explicit_access :
  exists r l1 l2, expected = Some r /\
    lines_of "explicit access" r = [l1] /\
    lines_of "explicit access (separate)" r = [l2] /\
    map (fun e => e_suffix e) (l_entries l1 ++ l_entries l2)
    = [None; None; None; None; None; None] /\
    l_entries l1 = l_entries l2 /\
    merged l1 = true /\ separate l2 = true.
Proof.
  do 3 eexists. split; [vm_compute; reflexivity|].
  split; [vm_compute; reflexivity|]. split; [vm_compute; reflexivity|].
  repeat split.
Qed.

(** C6. In every report that [emit] produces, the section explicit access
    (separate) holds exactly the locations of the section explicit access,
    in the same order, and the two differ in the rendering alone (one
    merged set against individually delimited entries). So it is in the
    report of the fixture: both sections list the same entries, joined by
    bars in the first and by blanks in the second. *)
Theorem explicit_access_separate_same_set (lts : LoopTraitSet) :
  section_members SecExplicitAccessSeparate (emit lts)
  = section_members SecExplicitAccess (emit lts) /\
  section_rendering SecExplicitAccess = MergedSet /\
  section_rendering SecExplicitAccessSeparate = SeparateEntries /\
  (exists r l1 l2, expected = Some r /\
     lines_of "explicit access" r = [l1] /\
     lines_of "explicit access (separate)" r = [l2] /\
     l_entries l1 = l_entries l2 /\
     merged l1 = true /\ separate l2 = true).
Proof.
  split; [|split; [reflexivity|split; [reflexivity|]]].
  - unfold emit. rewrite !section_members_emit. reflexivity.
  - destruct expected_explicit_access as (r & l1 & l2 & H & H1 & H2 & _ & H3).
    by exists r, l1, l2.
Qed.

Example emit_sample :
  emit sample_traits
  = [ (SecAnti, [Known (Memory.mkLoc 1 None)]);
      (SecFlow, [Known (Memory.mkLoc 1 None)]);
      (SecReadOnly, [Known (Memory.mkLoc 2 (Some 8%N))]);
      (SecLock, [Known (Memory.mkLoc 2 (Some 8%N))]) ].
Proof. vm_compute. reflexivity. Qed.

End EmissionFacts.

(* --------------------------------------------------------------------- *)
(** ** PragmaNamespaceReplacer::HandlePragma enters all or nothing        *)
(* --------------------------------------------------------------------- *)

Section NamespaceReplacerFacts.
Import Lex PragmaHandlers Samples.

Variable D : Directives.Table.
Variable mNamespaceId : nat.
Variable Name : string.
Variable FindHandler : string -> option Handler.

Lemma AddToken_last (K : tok.TokenKind) (L : SourceLocation) (n : nat)
  (q : list Token) :
  last (AddToken K L n q) = Some (mkToken K L n None None).
Proof. unfold AddToken. by rewrite last_snoc. Qed.

(** Lexing never enters a token stream, and neither does a diagnostic. *)
Lemma LexUnexpandedToken_entered (PP : Preprocessor) :
  entered (LexUnexpandedToken PP).2 = entered PP.
Proof. unfold LexUnexpandedToken. by destruct (pending PP). Qed.

(** Up to the call of the directive handler nothing is entered. *)
Lemma dispatch_entered (PP : Preprocessor) (Introducer : PragmaIntroducerKind)
  (FirstToken : Token) :
  match dispatch D mNamespaceId Name FindHandler PP Introducer FirstToken with
  | Rejected PP' _ => entered PP' = entered PP
  | Handled PP' _ _ _ => entered PP' = entered PP
  end.
Proof.
  unfold dispatch.
  pose proof (LexUnexpandedToken_entered PP) as Hlex.
  destruct (LexUnexpandedToken PP) as [T PP1]. simpl in Hlex.
  destruct (spelled_name T) as [DirectiveName|]; [|exact Hlex].
  destruct (Directives.getTsarDirective D mNamespaceId DirectiveName);
    [|exact Hlex].
  destruct (FindHandler DirectiveName) as [h|]; [|exact Hlex].
  destruct (lex_to_eod (pending PP1)) as [[relexed lastT] rest].
  destruct (h _ _ _ _) as [[EPP RF] q]. exact Hlex.
Qed.

Lemma cons_neq_self {A : Type} (x : A) (l : list A) : x :: l <> l.
Proof.
  intros H. apply (f_equal length) in H. simpl in H. lia.
Qed.

(** C8. [PragmaNamespaceReplacer::HandlePragma] enters the replacement as
    a whole or not at all: the token streams of the preprocessor change if
    and only if the directive handler ran and left [tok::eod] in the relex
    token; then exactly one stream is entered, the token queue closed by
    its right brace. When the handler stopped before the end of the
    directive, or was never reached, the entered streams are as before. *)
Theorem HandlePragma_enters_only_at_eod (PP : Preprocessor)
  (Introducer : PragmaIntroducerKind) (FirstToken : Token) :
  let d := dispatch D mNamespaceId Name FindHandler PP Introducer FirstToken in
  let '(PP', _, mTokenQueue) :=
    HandlePragma D mNamespaceId Name FindHandler PP Introducer FirstToken in
  (entered PP' <> entered PP <->
   exists RelexFrom, relex_token_after d = Some RelexFrom /\
                     Kind RelexFrom = tok.eod) /\
  (entered PP' = entered PP \/
   (entered PP' = mTokenQueue :: entered PP /\
    Kind <$> last mTokenQueue = Some tok.r_brace)).
Proof.
  cbv zeta. unfold HandlePragma.
  pose proof (dispatch_entered PP Introducer FirstToken) as Hd.
  destruct (dispatch D mNamespaceId Name FindHandler PP Introducer FirstToken)
    as [PP1 T1|PP1 T1 RF q]; simpl.
  - split; [|by left]. split; [done|]. intros (RF & HRF & _). discriminate HRF.
  - unfold is_. case_bool_decide as Heod; simpl.
    + split.
      * split; [intros _; by exists RF|]. intros _. rewrite Hd.
        apply cons_neq_self.
      * right. split; [by rewrite Hd|]. by rewrite AddToken_last.
    + split; [|by left]. split; [done|].
      intros (RF' & [= <-] & HRF). done.
Qed.

(** The same for the repository's own directive handler: its clause loop
    finishes on [tok::eod] and bails out on another token. *)
Lemma clause_loop_exit (mDirectiveId : nat) (DName : string)
  (FindClause : string -> option Handler) (fuel : nat) :
  forall (PP : ExternalPreprocessor) (Introducer : PragmaIntroducerKind)
         (FirstToken : Token) (body : bool) (q : list Token),
    match clause_loop D mDirectiveId DName FindClause fuel PP Introducer
                      FirstToken body q with
    | (Finished, _, T, _) => Kind T = tok.eod
    | (Bailed, _, T, _) => Kind T <> tok.eod
    | (OutOfFuel, _, _, _) => True
    end.
Proof.
  induction fuel as [|fuel IH]; intros PP Introducer FirstToken body q;
    simpl; [exact Logic.I|].
  unfold isNot, is_. case_bool_decide as Heod; simpl; [exact Heod|].
  destruct (if negb body then spelled_name FirstToken else Some "")
    as [ClauseName|]; [|exact Heod].
  destruct (Directives.getTsarClause D mDirectiveId ClauseName);
    [|exact Heod].
  destruct (FindClause ClauseName) as [h|]; [|exact Heod].
  destruct (h PP Introducer FirstToken q) as [[PP1 T1] q1].
  destruct (ExtLex PP1) as [T2 PP2]. apply IH.
Qed.

Lemma PragmaReplacer_exit (mDirectiveId : nat) (DName : string)
  (FindClause : string -> option Handler) (fuel : nat)
  (PP : ExternalPreprocessor) (Introducer : PragmaIntroducerKind)
  (FirstToken : Token) (q : list Token) :
  match HandlePragma_exit D mDirectiveId DName FindClause fuel PP Introducer
                          FirstToken q with
  | (Finished, _, T, _) => Kind T = tok.eod
  | (Bailed, _, T, _) => Kind T <> tok.eod
  | (OutOfFuel, _, _, _) => True
  end.
Proof.
  unfold HandlePragma_exit.
  destruct (if negb (Directives.hasBody D mDirectiveId)
            then ExtLex PP else (FirstToken, PP)) as [T1 PP1].
  match goal with
  | |- context [clause_loop ?a ?b ?c ?d ?e ?f ?g ?h ?i ?j] =>
      pose proof (clause_loop_exit b c d e f g h i j) as Hloop;
      destruct (clause_loop a b c d e f g h i j) as [[[ex PP2] T2] q2]
  end.
  by destruct ex.
Qed.

Lemma lex_to_eod_one_directive (ts : list Token) :
  one_directive (lex_to_eod ts).1.1.
Proof.
  induction ts as [|t ts IH]; simpl.
  - intros [|x pre] t post Heq Hk.
    + by injection Heq as <- <-.
    + injection Heq as _ Heq. by destruct pre.
  - unfold is_. case_bool_decide as Heod; simpl.
    + intros [|x pre] t' post Heq Hk.
      * by injection Heq as <- <-.
      * injection Heq as _ Heq. by destruct pre.
    + destruct (lex_to_eod ts) as [[r lastT] rest]. simpl in *.
      intros [|x pre] t' post Heq Hk.
      * injection Heq as <- <-. done.
      * injection Heq as _ Heq. by apply (IH pre t' post).
Qed.

Lemma one_directive_suffix (l1 l2 : list Token) :
  l1 `suffix_of` l2 -> one_directive l2 -> one_directive l1.
Proof.
  intros [k ->] H pre t post -> Hk.
  apply (H (k ++ pre) t post); [by rewrite <- app_assoc|exact Hk].
Qed.

(** Lexing from the tokens of one directive: after [tok::eod] nothing is
    left. *)
Lemma ExtLex_one_directive (PP : ExternalPreprocessor) :
  one_directive (relex PP) ->
  one_directive (relex (ExtLex PP).2) /\
  (Kind (ExtLex PP).1 = tok.eod -> relex (ExtLex PP).2 = []).
Proof.
  intros H. unfold ExtLex. destruct (relex PP) as [|t rest] eqn:Hr; simpl.
  - by rewrite Hr.
  - split.
    + apply (one_directive_suffix rest (t :: rest)); [by exists [t]|exact H].
    + intros Hk. by apply (H [] t rest).
Qed.

Lemma clause_loop_consumes (mDirectiveId : nat) (DName : string)
  (FindClause : string -> option Handler) :
  (forall c h, FindClause c = Some h -> reads_ahead h) ->
  forall (fuel : nat) (PP : ExternalPreprocessor)
         (Introducer : PragmaIntroducerKind) (FirstToken : Token)
         (body : bool) (q : list Token),
    one_directive (relex PP) ->
    (Kind FirstToken = tok.eod -> relex PP = []) ->
    match clause_loop D mDirectiveId DName FindClause fuel PP Introducer
                      FirstToken body q with
    | (Finished, PP', _, _) => relex PP' = []
    | _ => True
    end.
Proof.
  intros Hh. induction fuel as [|fuel IH];
    intros PP Introducer FirstToken body q Hone Hend; simpl; [exact Logic.I|].
  unfold isNot, is_. case_bool_decide as Heod; simpl; [by apply Hend|].
  destruct (if negb body then spelled_name FirstToken else Some "")
    as [ClauseName|]; [|exact Logic.I].
  destruct (Directives.getTsarClause D mDirectiveId ClauseName);
    [|exact Logic.I].
  destruct (FindClause ClauseName) as [h|] eqn:Hf; [|exact Logic.I].
  pose proof (Hh _ _ Hf PP Introducer FirstToken q) as Hsuf.
  destruct (h PP Introducer FirstToken q) as [[PP1 T1] q1]. simpl in Hsuf.
  pose proof (ExtLex_one_directive PP1 (one_directive_suffix _ _ Hsuf Hone))
    as [Hone2 Hend2].
  destruct (ExtLex PP1) as [T2 PP2]. by apply IH.
Qed.

(** When the repository's directive handler finishes, it has read every
    token of the directive, provided its clause handlers only read ahead
    and, for a directive with a body, the first token is not [tok::eod]. *)
Lemma PragmaReplacer_finished_consumed_all (mDirectiveId : nat)
  (DName : string) (FindClause : string -> option Handler) (fuel : nat)
  (PP : ExternalPreprocessor) (Introducer : PragmaIntroducerKind)
  (FirstToken : Token) (q : list Token) :
  (forall c h, FindClause c = Some h -> reads_ahead h) ->
  one_directive (relex PP) ->
  Kind FirstToken <> tok.eod ->
  match HandlePragma_exit D mDirectiveId DName FindClause fuel PP Introducer
                          FirstToken q with
  | (Finished, PP', T, _) => relex PP' = [] /\ Kind T = tok.eod
  | (Bailed, _, T, _) => Kind T <> tok.eod
  | (OutOfFuel, _, _, _) => True
  end.
Proof.
  intros Hh Hone Hne.
  pose proof (PragmaReplacer_exit mDirectiveId DName FindClause fuel PP
                Introducer FirstToken q) as Hexit.
  revert Hexit. unfold HandlePragma_exit.
  pose proof (ExtLex_one_directive PP Hone) as [Hone1 Hend1].
  assert (Hinv : let p := if negb (Directives.hasBody D mDirectiveId)
                          then ExtLex PP else (FirstToken, PP) in
                 one_directive (relex p.2) /\
                 (Kind p.1 = tok.eod -> relex p.2 = [])).
  { destruct (negb (Directives.hasBody D mDirectiveId)); simpl; [done|].
    split; [exact Hone|done]. }
  destruct (if negb (Directives.hasBody D mDirectiveId)
            then ExtLex PP else (FirstToken, PP)) as [T1 PP1].
  simpl in Hinv. destruct Hinv as [Hone' Hend'].
  match goal with
  | |- context [clause_loop ?a ?b ?c ?d ?e ?f ?g ?h ?i ?j] =>
      pose proof (clause_loop_consumes b c d Hh e f g h i j Hone' Hend')
        as Hloop;
      destruct (clause_loop a b c d e f g h i j) as [[[ex PP2] T2] q2]
  end.
  destruct ex; by auto.
Qed.

(** [HandleClause] only reads ahead when the clause visitor does. *)
Lemma HandleClause_reads_ahead (CName : string) (HandleBody : Handler) :
  reads_ahead HandleBody -> reads_ahead (HandleClause CName HandleBody).
Proof.
  intros Hb PP Introducer FirstToken q. unfold HandleClause.
  match goal with
  | |- context [HandleBody ?a ?b ?c ?d] =>
      pose proof (Hb a b c d) as Hs; destruct (HandleBody a b c d) as [[P T] r]
  end.
  exact Hs.
Qed.

End NamespaceReplacerFacts.

Section NamespaceReplacerExamples.
Import Lex PragmaHandlers Samples.

(** [#pragma spf analysis private] is replaced by one stream of tokens. *)
Example analysis_private_is_replaced :
  let '(PP', _, q) :=
    HandlePragma sample_table 1 "spf" spf_handlers pp_analysis_private
                 PIK_HashPragma spf_token in
  entered PP' = [q] /\
  map Kind q
  = [tok.l_brace; tok.string_literal; tok.semi;
     tok.l_brace; tok.string_literal; tok.semi;
     tok.l_brace; tok.string_literal; tok.semi; tok.r_brace;
     tok.r_brace; tok.r_brace] /\
  diagnostics PP' = [].
Proof. vm_compute. repeat split. Qed.

(** [#pragma spf analysis 42] is diagnosed and nothing is entered. *)
Example analysis_number_is_not_replaced :
  let '(PP', _, _) :=
    HandlePragma sample_table 1 "spf" spf_handlers pp_analysis_number
                 PIK_HashPragma spf_token in
  entered PP' = [] /\ diagnostics PP' = [err_expected "name of clause"].
Proof. vm_compute. repeat split. Qed.

(** An unknown directive is rejected before any handler runs. *)
Example unknown_directive_is_rejected :
  let PP := mkPP [ident "parallel" 12; eod_at 20] [] [] in
  let '(PP', _, q) :=
    HandlePragma sample_table 1 "spf" spf_handlers PP PIK_HashPragma
                 spf_token in
  entered PP' = [] /\ q = [] /\
  diagnostics PP' = [err_unknown_directive "spf" "parallel"].
Proof. vm_compute. repeat split. Qed.

End NamespaceReplacerExamples.

(* --------------------------------------------------------------------- *)
(** ** The two Dvm replacers                                              *)
(* --------------------------------------------------------------------- *)

Section DvmReplacerFacts.
Import Lex PragmaHandlers Replacement MoreSamples.

Lemma InsertDeclaration_kinds (q : list Token) (f : string) :
  map Kind (InsertDeclarationForActualInstrumentation q f)
  = map Kind q ++ [tok.kw_extern; tok.kw_void; tok.identifier; tok.l_paren;
                   tok.kw_const; tok.kw_char; tok.star; tok.r_paren;
                   tok.semi].
Proof.
  unfold InsertDeclarationForActualInstrumentation.
  by rewrite map_app.
Qed.

(** What [ReplacePragmaWithCall] leaves in the preprocessor: the
    declaration of the function followed by its call on the gathered
    identifiers, as one entered stream, and the tokens after the
    directive. *)
Lemma ReplacePragmaWithCall_spec (PP : Preprocessor) (FunctionName : string)
  (FirstToken : Token) :
  let '(ids, rest) := read_pragma_tokens (pending PP) dquote in
  ReplacePragmaWithCall PP FunctionName FirstToken
  = mkPP rest
      ((InsertDeclarationForActualInstrumentation [] FunctionName
          ++ call_tokens FunctionName (Loc FirstToken) (ids +:+ dquote))
         :: entered PP)
      (diagnostics PP).
Proof.
  unfold ReplacePragmaWithCall.
  destruct (read_pragma_tokens (pending PP) dquote) as [ids rest].
  unfold EnterTokenStream, call_tokens, CreateString, setLocation, setLength,
    setKind, setIdentifierInfo, startToken, getLocWithOffset; simpl.
  rewrite Z.add_0_r. reflexivity.
Qed.

Lemma append_assoc (a b c : string) : (a +:+ b) +:+ c = a +:+ (b +:+ c).
Proof.
  induction a as [|x a IH]; [reflexivity|].
  change (String x ((a +:+ b) +:+ c) = String x (a +:+ (b +:+ c))).
  by rewrite IH.
Qed.

Lemma append_nil_r (a : string) : a +:+ "" = a.
Proof.
  induction a as [|x a IH]; [reflexivity|].
  change (String x (a +:+ "") = String x a). by rewrite IH.
Qed.




(** [#pragma dvm actual(A, B)] with the runtime function [f]. *)
Example actual_A_B :
  let PP := mkPP [ Lex.mkToken tok.l_paren 18%Z 1 None None;
                   ident "A" 19; Lex.mkToken tok.comma 20%Z 1 None None;
                   ident "B" 22; Lex.mkToken tok.r_paren 23%Z 1 None None;
                   eod_at 24; ident "next" 30 ] [] [] in
  let PP' := DvmActualReplacer_HandlePragma "f" PP PIK_HashPragma
                                            (ident "actual" 12) in
  pending PP' = [ident "next" 30] /\
  map Kind <$> entered PP'
  = [[tok.kw_extern; tok.kw_void; tok.identifier; tok.l_paren; tok.kw_const;
      tok.kw_char; tok.star; tok.r_paren; tok.semi;
      tok.identifier; tok.l_paren; tok.string_literal; tok.r_paren;
      tok.semi]] /\
  (exists s, entered PP' = [s] /\
             (s !! 11) ≫= LiteralData = Some (dquote +:+ "A,B" +:+ dquote)).
Proof.
  vm_compute. split; [reflexivity|]. split; [reflexivity|].
  eexists. split; reflexivity.
Qed.

End DvmReplacerFacts.

(* --------------------------------------------------------------------- *)
(** ** AddTsarPragmaHandlers and the Dvm namespace                        *)
(* --------------------------------------------------------------------- *)

Section DefaultPragmaHandlersFacts.
Import Directives DefaultPragmaHandlers Samples.

Variable D : Table.

Lemma AddTsar_fold (l : list nat) (R : Registry) :
  foldl (fun R NId =>
           let NR := mkNamespaceReplacer NId (pragmas_of D NId) in
           mkRegistry (PPHandlers R ++ [NamespaceReplacer NR])
                      (Container R ++ [NR])) R l
  = mkRegistry
      (PPHandlers R
         ++ map (fun NId => NamespaceReplacer
                              (mkNamespaceReplacer NId (pragmas_of D NId))) l)
      (Container R
         ++ map (fun NId => mkNamespaceReplacer NId (pragmas_of D NId)) l).
Proof.
  revert R. induction l as [|NId l IH]; intros R; simpl.
  - rewrite !app_nil_r. by destruct R.
  - rewrite IH. simpl. by rewrite <- !app_assoc.
Qed.

Lemma AddTsar_handlers (R : Registry) :
  PPHandlers (AddTsarPragmaHandlers D R)
  = PPHandlers R ++ map NamespaceReplacer (namespace_replacers D).
Proof.
  unfold AddTsarPragmaHandlers, namespace_replacers. rewrite AddTsar_fold.
  simpl.
  by rewrite map_map.
Qed.

Lemma pragmas_of_spec (NId : nat) (PR : PragmaReplacer) :
  PR ∈ pragmas_of D NId <->
  mDirectiveId PR ∈ ids (NotDirective D) (NumDirectives D) /\
  getParentOfDirective D (mDirectiveId PR) = NId /\
  NId <> Dvm D /\
  PR = mkPragmaReplacer (mDirectiveId PR) NId (clauses_of D (mDirectiveId PR)).
Proof.
  unfold pragmas_of. rewrite list_elem_of_omap. split.
  - intros (DId & Hin & Hsome).
    destruct (decide (getParentOfDirective D DId ≠ NId)) as [|Hp];
      [discriminate|].
    destruct (decide (getParentOfDirective D DId = Dvm D)) as [|Hd];
      [discriminate|].
    injection Hsome as <-. simpl.
    assert (getParentOfDirective D DId = NId) by (by apply dec_stable).
    repeat split; [done..|congruence].
  - intros (Hin & Hp & Hd & ->). simpl in *. exists (mDirectiveId PR).
    split; [exact Hin|].
    rewrite decide_False by (intros Hne; by apply Hne).
    rewrite decide_False by congruence. reflexivity.
Qed.

Lemma attached_app (hs1 hs2 : list PragmaHandler) (C1 C2 : list _) :
  attached_directives (mkRegistry (hs1 ++ hs2) C1)
  = attached_directives (mkRegistry hs1 C2)
      ++ attached_directives (mkRegistry hs2 C2).
Proof.
  unfold attached_directives. simpl. by rewrite map_app, concat_app.
Qed.

Lemma attached_new (DId : nat) :
  DId ∈ attached_directives (mkRegistry (map NamespaceReplacer (namespace_replacers D)) [])
  <-> DId ∈ ids (NotDirective D) (NumDirectives D) /\
      getParentOfDirective D DId ∈ ids (NotNamespace D) (NumNamespaces D) /\
      getParentOfDirective D DId <> Dvm D.
Proof.
  unfold attached_directives, namespace_replacers. simpl.
  rewrite !map_map. simpl. rewrite list_elem_of_In, in_concat. split.
  - intros (l & Hl & Hin). apply in_map_iff in Hl as (NId & <- & HN).
    apply in_map_iff in Hin as (PR & <- & HPR).
    apply list_elem_of_In, pragmas_of_spec in HPR as (H1 & H2 & H3 & _).
    rewrite H2. repeat split; [done|by apply list_elem_of_In|done].
  - intros (H1 & H2 & H3).
    exists (map mDirectiveId (pragmas_of D (getParentOfDirective D DId))).
    split.
    + apply in_map_iff. exists (getParentOfDirective D DId).
      split; [reflexivity|by apply list_elem_of_In].
    + apply in_map_iff.
      exists (mkPragmaReplacer DId (getParentOfDirective D DId)
                               (clauses_of D DId)).
      split; [reflexivity|]. apply list_elem_of_In, pragmas_of_spec. by simpl.
Qed.

Lemma dvm_handlers_app (hs1 hs2 : list PragmaHandler) (C1 C2 : list _) :
  dvm_handlers D (mkRegistry (hs1 ++ hs2) C1)
  = dvm_handlers D (mkRegistry hs1 C2) + dvm_handlers D (mkRegistry hs2 C2).
Proof.
  unfold dvm_handlers. simpl. by rewrite map_app, list_sum_app.
Qed.

Lemma no_dvm_pragma (NId : nat) :
  List.filter
    (fun PR => bool_decide
                 (getParentOfDirective D (mDirectiveId PR) = Dvm D))
    (pragmas_of D NId) = [].
Proof.
  apply elem_of_nil_inv. intros PR HPR.
  apply list_elem_of_In, filter_In in HPR as [Hin Hd].
  apply bool_decide_eq_true in Hd.
  apply list_elem_of_In, pragmas_of_spec in Hin as (_ & H2 & H3 & _).
  congruence.
Qed.

Lemma dvm_handlers_new (l : list nat) :
  dvm_handlers D
    (mkRegistry
       (map (fun NId => NamespaceReplacer
                          (mkNamespaceReplacer NId (pragmas_of D NId))) l) [])
  = 0.
Proof.
  unfold dvm_handlers. simpl. induction l as [|NId l IH]; [reflexivity|].
  simpl. rewrite no_dvm_pragma. exact IH.
Qed.

(** C10. [AddTsarPragmaHandlers] attaches a directive handler exactly for
    the directives of the namespaces it walks whose parent namespace is
    not [DirectiveNamespaceId::Dvm]; in particular none of the directive
    ids it attaches has Dvm as its parent. It leaves the number of
    handlers that serve Dvm directives as it was, and
    [AddDvmPragmaHandlers] is what adds the two of them, for actual and
    get_actual. *)
Theorem AddTsarPragmaHandlers_skips_Dvm (R : Registry) :
  (exists new,
     attached_directives (AddTsarPragmaHandlers D R)
     = attached_directives R ++ new /\
     (forall DId, DId ∈ new <->
        DId ∈ ids (NotDirective D) (NumDirectives D) /\
        getParentOfDirective D DId ∈ ids (NotNamespace D) (NumNamespaces D) /\
        getParentOfDirective D DId <> Dvm D) /\
     Forall (fun DId => getParentOfDirective D DId <> Dvm D) new) /\
  dvm_handlers D (AddTsarPragmaHandlers D R) = dvm_handlers D R /\
  dvm_handlers D (AddDvmPragmaHandlers D R) = dvm_handlers D R + 2.
Proof.
  split; [|split].
  - exists (attached_directives
              (mkRegistry (map NamespaceReplacer (namespace_replacers D)) [])).
    split; [|split].
    + unfold attached_directives at 1 2. rewrite AddTsar_handlers.
      by rewrite map_app, concat_app.
    + apply attached_new.
    + apply Forall_forall. intros DId HD.
      apply attached_new in HD as (_ & _ & HD). exact HD.
  - transitivity
      (dvm_handlers D
         (mkRegistry (PPHandlers R
                        ++ map NamespaceReplacer (namespace_replacers D)) [])).
    { unfold dvm_handlers. by rewrite AddTsar_handlers. }
    rewrite (dvm_handlers_app _ _ _ []).
    unfold namespace_replacers. rewrite map_map, dvm_handlers_new.
    unfold dvm_handlers. simpl. lia.
  - unfold dvm_handlers, AddDvmPragmaHandlers. simpl.
    rewrite map_app, list_sum_app. simpl.
    rewrite decide_True by reflexivity. simpl. lia.
Qed.

End DefaultPragmaHandlersFacts.

Section DefaultPragmaHandlersExamples.
Import Directives DefaultPragmaHandlers Samples.

(** With the sample table the spf directives analysis and region are
    attached; the dvm namespace gets a replacer with no directive. *)
Example AddTsar_sample :
  AddTsarPragmaHandlers sample_table empty
  = mkRegistry
      [ NamespaceReplacer
          (mkNamespaceReplacer 1
             [ mkPragmaReplacer 1 1 [mkClauseReplacer 1];
               mkPragmaReplacer 2 1 [mkClauseReplacer 2] ]);
        NamespaceReplacer (mkNamespaceReplacer 2 []) ]
      [ mkNamespaceReplacer 1
          [ mkPragmaReplacer 1 1 [mkClauseReplacer 1];
            mkPragmaReplacer 2 1 [mkClauseReplacer 2] ];
        mkNamespaceReplacer 2 [] ].
Proof. vm_compute. reflexivity. Qed.

Example AddDvm_sample :
  PPHandlers (AddDvmPragmaHandlers sample_table empty)
  = [PragmaNamespace "dvm" [DvmActualReplacer; DvmGetActualReplacer]].
Proof. reflexivity. Qed.

End DefaultPragmaHandlersExamples.

(* --------------------------------------------------------------------- *)
(** ** The distribution limits checker and a null [find]                  *)
(* --------------------------------------------------------------------- *)

Section CheckerFacts.
Import Memory DistributionLimits Samples.

Variable Array : Type.
Variable SetDistributeFlag : distFlag -> Array -> Array.
Variable IsNotDistribute : Array -> bool.
Variable getRawDIMemoryIfExists : nat -> option nat.

Local Abbreviation on_store' :=
  (on_store Array SetDistributeFlag IsNotDistribute getRawDIMemoryIfExists).
Local Abbreviation on_memory' :=
  (on_memory Array SetDistributeFlag IsNotDistribute getRawDIMemoryIfExists).
Local Abbreviation for_each_memory' :=
  (for_each_memory Array SetDistributeFlag IsNotDistribute
                   getRawDIMemoryIfExists).
Local Abbreviation on_instruction' :=
  (on_instruction Array SetDistributeFlag IsNotDistribute
                  getRawDIMemoryIfExists).
Local Abbreviation on_instructions' :=
  (on_instructions Array SetDistributeFlag IsNotDistribute
                   getRawDIMemoryIfExists).
Local Abbreviation runOnFunction' :=
  (runOnFunction Array SetDistributeFlag IsNotDistribute
                 getRawDIMemoryIfExists).

Lemma find_None_iff (AT : AliasTree) (Loc : MemoryLocation) :
  find AT Loc = None <-> ~ registered AT Loc.
Proof.
  unfold find, registered. rewrite eq_None_not_Some. reflexivity.
Qed.

Lemma on_store_cases (AT : AliasTree) (Op : nat) (Ctx : APCContext Array) :
  (registered AT (mkLoc Op (precise 1)) /\
   exists Ctx', on_store' AT Op Ctx = Ok Ctx') \/
  (find AT (mkLoc Op (precise 1)) = None /\
   on_store' AT Op Ctx = AssertionFailure em_must_be_present).
Proof.
  unfold on_store, registered, find.
  destruct (AT !! mkLoc Op (precise 1)) as [EM|]; [left|right; done].
  split; [by eexists|].
  destruct (getRawDIMemoryIfExists _); [|by eexists].
  destruct (findArray _ _ _) as [[a A]|]; [|by eexists].
  destruct (IsNotDistribute A); by eexists.
Qed.

Lemma on_memory_cases (AT : AliasTree) (k : InstKind) (Loc : MemoryLocation)
  (OpIdx : nat) (Ctx : APCContext Array) :
  (registered AT Loc /\ exists Ctx', on_memory' AT k Loc OpIdx Ctx = Ok Ctx') \/
  (find AT Loc = None /\
   on_memory' AT k Loc OpIdx Ctx = AssertionFailure em_must_be_present).
Proof.
  unfold on_memory, registered, find.
  destruct (AT !! Loc) as [EM|]; [left|right; done].
  split; [by eexists|].
  destruct (getRawDIMemoryIfExists _); [|by eexists].
  destruct (findArray _ _ _) as [[a A]|]; [|by eexists].
  destruct (IsNotDistribute A); [by eexists|].
  destruct k as [[]|callee|]; try by eexists.
  destruct (decide _); [by eexists|].
  destruct callee as [c|]; [|by eexists].
  destruct (isDeclaration c || LibFunc c); [by eexists|].
  destruct (findFunction _ _ _) as [F|]; [|by eexists].
  destruct (funcParams F !! OpIdx) as [p|]; [|by eexists].
  destruct (decide _); by eexists.
Qed.

Lemma for_each_memory_cases (AT : AliasTree) (k : InstKind)
  (accs : list (MemoryLocation * nat)) (Ctx : APCContext Array) :
  ((forall Loc, Loc ∈ map fst accs -> registered AT Loc) /\
   exists Ctx', for_each_memory' AT k accs Ctx = Ok Ctx') \/
  ((exists Loc, Loc ∈ map fst accs /\ find AT Loc = None) /\
   for_each_memory' AT k accs Ctx = AssertionFailure em_must_be_present).
Proof.
  revert Ctx. induction accs as [|[Loc OpIdx] accs IH]; intros Ctx; simpl.
  - left. split; [|by eexists]. intros Loc H. by apply elem_of_nil in H.
  - destruct (on_memory_cases AT k Loc OpIdx Ctx)
      as [[Hreg [Ctx1 ->]]|[Hnone ->]]; simpl.
    + destruct (IH Ctx1) as [[Hall [Ctx2 ->]]|[(L & HL & HN) ->]].
      * left. split; [|by eexists].
        intros L HL. apply elem_of_cons in HL as [->|HL]; [done|by apply Hall].
      * right. split; [|done]. exists L. split; [|done].
        apply elem_of_cons. by right.
    + right. split; [|done]. exists Loc. split; [apply list_elem_of_here|done].
Qed.

Lemma on_instruction_cases (AT : AliasTree) (Inst : Instruction)
  (Ctx : APCContext Array) :
  ((forall Loc, Loc ∈ queried Inst -> registered AT Loc) /\
   exists Ctx', on_instruction' AT Inst Ctx = Ok Ctx') \/
  ((exists Loc, Loc ∈ queried Inst /\ find AT Loc = None) /\
   on_instruction' AT Inst Ctx = AssertionFailure em_must_be_present).
Proof.
  destruct Inst as [|Op [|]|k accs]; simpl.
  - left. split; [|by eexists]. intros Loc H. by apply elem_of_nil in H.
  - destruct (on_store_cases AT Op Ctx) as [[Hreg Hok]|[Hnone Hfail]].
    + left. split; [|exact Hok].
      intros Loc H. apply list_elem_of_singleton in H. by subst Loc.
    + right. split; [|exact Hfail]. eexists.
      split; [apply list_elem_of_here|exact Hnone].
  - left. split; [|by eexists]. intros Loc H. by apply elem_of_nil in H.
  - apply for_each_memory_cases.
Qed.

Lemma on_instructions_cases (AT : AliasTree) (Is : list Instruction)
  (Ctx : APCContext Array) :
  ((forall Loc, Loc ∈ List.concat (map queried Is) -> registered AT Loc) /\
   exists Ctx', on_instructions' AT Is Ctx = Ok Ctx') \/
  ((exists Loc, Loc ∈ List.concat (map queried Is) /\ find AT Loc = None) /\
   on_instructions' AT Is Ctx = AssertionFailure em_must_be_present).
Proof.
  revert Ctx. induction Is as [|Inst Is IH]; intros Ctx; simpl.
  - left. split; [|by eexists]. intros Loc H. by apply elem_of_nil in H.
  - destruct (on_instruction_cases AT Inst Ctx)
      as [[Hreg [Ctx1 ->]]|[(L & HL & HN) ->]]; simpl.
    + destruct (IH Ctx1) as [[Hall [Ctx2 ->]]|[(L & HL & HN) ->]].
      * left. split; [|by eexists].
        intros L HL. apply elem_of_app in HL as [HL|HL]; auto.
      * right. split; [|done]. exists L. split; [|done].
        apply elem_of_app. by right.
    + right. split; [|done]. exists L. split; [|done].
      apply elem_of_app. by left.
Qed.

Lemma disable_params_ok (ps : list FuncParam) (Ctx : APCContext Array) :
  arrays_present ps ->
  exists Ctx', disable_params Array SetDistributeFlag ps Ctx = Ok Ctx'.
Proof.
  intros Hps. revert Ctx.
  induction Hps as [|p ps Hp _ IH]; intros Ctx; simpl; [by eexists|].
  destruct (decide (parameterT p = ARRAY_T)) as [Ha|]; [|apply IH].
  destruct (Hp Ha) as [a ->]. apply IH.
Qed.

Lemma registered_not_None (AT : AliasTree) (Loc : MemoryLocation) :
  registered AT Loc -> find AT Loc = None -> False.
Proof. intros H HN. by apply find_None_iff in HN. Qed.

Lemma disable_params_completes (ps : list FuncParam)
  (Ctx Ctx' : APCContext Array) :
  disable_params Array SetDistributeFlag ps Ctx = Ok Ctx' ->
  arrays_present ps.
Proof.
  revert Ctx. induction ps as [|p ps IH]; intros Ctx; simpl.
  - intros _. constructor.
  - destruct (decide (parameterT p = ARRAY_T)) as [Ha|Hn].
    + destruct (parameter p) as [a|] eqn:Hp; [|discriminate].
      intros H. constructor; [by eexists|by eapply IH].
    + intros H. constructor; [done|by eapply IH].
Qed.

Lemma disable_params_null (ps : list FuncParam) (Ctx : APCContext Array) :
  ~ arrays_present ps ->
  disable_params Array SetDistributeFlag ps Ctx
  = AssertionFailure array_must_not_be_null.
Proof.
  revert Ctx. induction ps as [|p ps IH]; intros Ctx Hno; simpl.
  - destruct Hno. constructor.
  - destruct (decide (parameterT p = ARRAY_T)) as [Ha|Hn].
    + destruct (parameter p) as [a|] eqn:Hp; [|reflexivity].
      apply IH. intros Hps. apply Hno. constructor; [|exact Hps].
      intros _. rewrite Hp. by eexists.
    + apply IH. intros Hps. apply Hno. by constructor.
Qed.

(** C7, amended. [find] gives null exactly for the locations that are not
    registered in the alias tree, and its callers in
    [APCDistrLimitsChecker::runOnFunction] treat a null result as an
    error. The run first asserts that no formal array parameter of a
    function that may be called indirectly is null ("Array must not be
    null!"). Past that, a null result of [find] for a location the
    function asks about ends the run in the failed assertion "Estimate
    memory must be presented in alias tree!", and the run completes
    exactly when every such location is registered. *)
Theorem runOnFunction_asserts_find (AT : AliasTree) (F : Function)
  (Ctx : APCContext Array) :
  let params_present :=
    IndirectCall F = true ->
    forall APCFunc, findFunction Array Ctx (fn_id F) = Some APCFunc ->
                    arrays_present (funcParams APCFunc) in
  (forall Loc, find AT Loc = None <-> ~ registered AT Loc) /\
  (forall APCFunc,
     IndirectCall F = true ->
     findFunction Array Ctx (fn_id F) = Some APCFunc ->
     ~ arrays_present (funcParams APCFunc) ->
     runOnFunction' AT F Ctx = AssertionFailure array_must_not_be_null) /\
  (params_present ->
   (exists Loc, Loc ∈ queried_by F /\ find AT Loc = None) ->
   runOnFunction' AT F Ctx = AssertionFailure em_must_be_present) /\
  ((exists Ctx', runOnFunction' AT F Ctx = Ok (false, Ctx')) <->
   params_present /\ forall Loc, Loc ∈ queried_by F -> registered AT Loc).
Proof.
  cbv zeta. split; [apply find_None_iff|].
  unfold runOnFunction, queried_by.
  assert (Hfirst :
    (IndirectCall F = true ->
     forall APCFunc, findFunction Array Ctx (fn_id F) = Some APCFunc ->
                     arrays_present (funcParams APCFunc)) ->
    exists Ctx1,
      (if IndirectCall F
       then match findFunction Array Ctx (fn_id F) with
            | Some APCFunc =>
                disable_params Array SetDistributeFlag
                               (funcParams APCFunc) Ctx
            | None => Ok Ctx
            end
       else Ok Ctx) = Ok Ctx1).
  { intros Hps. destruct (IndirectCall F); [|by eexists].
    destruct (findFunction Array Ctx (fn_id F)) as [APCFunc|] eqn:Hf;
      [|by eexists].
    apply disable_params_ok. by apply Hps. }
  split; [|split; [|split]].
  - intros APCFunc -> -> Hno. by rewrite disable_params_null.
  - intros Hps (L & HL & HN). destruct (Hfirst Hps) as [Ctx1 ->]. simpl.
    destruct (on_instructions_cases AT (instructions F) Ctx1)
      as [[Hall _]|[_ ->]]; [|done].
    destruct (registered_not_None AT L (Hall L HL) HN).
  - intros [Ctx' Hrun]. split.
    + intros Hind APCFunc Hf. rewrite Hind, Hf in Hrun.
      destruct (disable_params Array SetDistributeFlag (funcParams APCFunc)
                               Ctx) as [Ctx1|] eqn:Hd; [|discriminate].
      by eapply disable_params_completes.
    + destruct (if IndirectCall F then _ else _) as [Ctx1|];
        [|discriminate]. simpl in Hrun.
      destruct (on_instructions_cases AT (instructions F) Ctx1)
        as [[Hall _]|[_ Hfail]]; [exact Hall|].
      rewrite Hfail in Hrun. discriminate.
  - intros [Hps Hall]. destruct (Hfirst Hps) as [Ctx1 ->]. simpl.
    destruct (on_instructions_cases AT (instructions F) Ctx1)
      as [[_ [Ctx2 ->]]|[(L & HL & HN) _]]; [by eexists|].
    destruct (registered_not_None AT L (Hall L HL) HN).
Qed.

End CheckerFacts.

Section CheckerExamples.
Import Memory DistributionLimits Samples.

(** C7, as the spec words it, fails: the stored pointer is not registered,
    [find] is null, and the caller does not go on as if the location were
    merely untracked; the run ends in the failed assertion. *)
Lemma null_find_is_an_error :
  find ∅ (mkLoc 7 (precise 1)) = None /\
  mkLoc 7 (precise 1) ∈ queried_by store_of_pointer /\
  runOnFunction unit (fun _ A => A) (fun _ => false) (fun _ => None)
                ∅ store_of_pointer no_arrays
  = AssertionFailure em_must_be_present /\
  ~ (exists Ctx',
       runOnFunction unit (fun _ A => A) (fun _ => false) (fun _ => None)
                     ∅ store_of_pointer no_arrays
       = Ok (false, Ctx')).
Proof.
  split; [apply lookup_empty|]. split; [apply list_elem_of_here|].
  assert (H : runOnFunction unit (fun _ A => A) (fun _ => false)
                (fun _ => None) ∅ store_of_pointer no_arrays
              = AssertionFailure em_must_be_present).
  { vm_compute. reflexivity. }
  split; [exact H|]. rewrite H. intros [Ctx' HC]. discriminate HC.
Qed.

Lemma runOnFunction_asserts_find_witness :
  runOnFunction unit (fun _ A => A) (fun _ => false) (fun _ => None)
                ∅ store_of_pointer no_arrays
  = AssertionFailure em_must_be_present /\
  (exists Ctx',
     runOnFunction unit (fun _ A => A) (fun _ => false) (fun _ => None)
                   tree_with_pointer store_of_pointer no_arrays
     = Ok (false, Ctx')) /\
  runOnFunction unit (fun _ A => A) (fun _ => false) (fun _ => None)
                ∅ called_indirectly null_formal
  = AssertionFailure array_must_not_be_null.
Proof.
  split; [|split].
  - apply (runOnFunction_asserts_find unit (fun _ A => A) (fun _ => false)
             (fun _ => None) ∅ store_of_pointer no_arrays);
      [discriminate|].
    exists (mkLoc 7 (precise 1)).
    split; [apply list_elem_of_here|apply lookup_empty].
  - apply (runOnFunction_asserts_find unit (fun _ A => A) (fun _ => false)
             (fun _ => None) tree_with_pointer store_of_pointer no_arrays).
    split; [discriminate|].
    intros Loc HL. apply list_elem_of_singleton in HL. subst Loc.
    unfold registered. vm_compute. by eexists.
  - apply (proj1 (proj2 (runOnFunction_asserts_find unit (fun _ A => A)
                           (fun _ => false) (fun _ => None) ∅
                           called_indirectly null_formal))
             (mkFuncInfo [mkParam ARRAY_T None]));
      [reflexivity|vm_compute; reflexivity|].
    intros Hps. apply Forall_cons in Hps as [Hp _].
    destruct (Hp eq_refl) as [a Ha]. discriminate Ha.
Defined.

End CheckerExamples.

(* ===================================================================== *)
(** * Part III: further properties of the code                            *)
(* ===================================================================== *)

(* --------------------------------------------------------------------- *)
(** ** What the namespace replacer consumes and reports                   *)
(* --------------------------------------------------------------------- *)

Section NamespaceReplacerMore.
Import Lex PragmaHandlers Replacement MoreSamples.

Variable D : Directives.Table.
Variable mNamespaceId : nat.
Variable Name : string.
Variable FindHandler : string -> option Handler.

Lemma lex_to_eod_split (pre : list Token) (e : Token) (rest : list Token) :
  eod_free pre -> Kind e = tok.eod ->
  lex_to_eod (pre ++ e :: rest) = (pre ++ [e], e, rest).
Proof.
  intros Hpre He. induction Hpre as [|t pre Ht _ IH]; simpl.
  - unfold is_. by rewrite bool_decide_eq_true_2.
  - unfold is_. rewrite bool_decide_eq_false_2 by done. by rewrite IH.
Qed.

(** X1. When the directive is known and has a handler, the handler is
    given exactly the tokens of the directive, its end included, together
    with the opening of the replacement; afterwards the preprocessor
    stands behind the end of the directive, whether or not the pragma is
    replaced. *)
Theorem HandlePragma_consumes_directive (PP : Preprocessor)
  (Introducer : PragmaIntroducerKind) (FirstToken nameTok e : Token)
  (pre rest : list Token) (DirectiveName : string) (Id : nat) (h : Handler)
  (Hpending : pending PP = nameTok :: pre ++ e :: rest)
  (Hpre : eod_free pre) (He : Kind e = tok.eod)
  (Hname : spelled_name nameTok = Some DirectiveName)
  (Hid : Directives.getTsarDirective D mNamespaceId DirectiveName = Some Id)
  (Hh : FindHandler DirectiveName = Some h) :
  let opening :=
    AddToken tok.semi (Loc FirstToken) 1
      (AddStringToken Name (Loc FirstToken)
         (AddToken tok.l_brace (Loc FirstToken) 1 [])) in
  let '(EPP, RelexFrom, q) :=
    h (mkExtPP (pre ++ [e]) (diagnostics PP)) Introducer nameTok opening in
  dispatch D mNamespaceId Name FindHandler PP Introducer FirstToken
  = Handled (mkPP rest (entered PP) (reported EPP)) e RelexFrom q /\
  pending (HandlePragma D mNamespaceId Name FindHandler PP Introducer
                        FirstToken).1.1 = rest.
Proof.
  cbv zeta.
  assert (Hd : dispatch D mNamespaceId Name FindHandler PP Introducer
                        FirstToken
               = let '(EPP, RelexFrom, q) :=
                   h (mkExtPP (pre ++ [e]) (diagnostics PP)) Introducer
                     nameTok
                     (AddToken tok.semi (Loc FirstToken) 1
                        (AddStringToken Name (Loc FirstToken)
                           (AddToken tok.l_brace (Loc FirstToken) 1 []))) in
                 Handled (mkPP rest (entered PP) (reported EPP)) e RelexFrom
                         q).
  { unfold dispatch, LexUnexpandedToken. rewrite Hpending. simpl.
    rewrite Hname, Hid, Hh. rewrite (lex_to_eod_split pre e rest Hpre He).
    reflexivity. }
  unfold HandlePragma. rewrite Hd.
  destruct (h _ _ _ _) as [[EPP RF] q]. split; [reflexivity|].
  by destruct (is_ tok.eod RF).
Qed.

End NamespaceReplacerMore.

Section NamespaceReplacerMoreExamples.
Import Lex PragmaHandlers Replacement MoreSamples.

Lemma HandlePragma_consumes_directive_witness :
  pending (HandlePragma sample_table 1 "spf" spf_handlers pp_with_next
                        PIK_HashPragma spf_token).1.1 = [ident "next" 40].
Proof.
  assert (Hpre : eod_free
            [Lex.mkToken tok.numeric_constant 21%Z 2 None (Some "42")]).
  { repeat constructor. discriminate. }
  pose proof (HandlePragma_consumes_directive sample_table 1 "spf"
                spf_handlers pp_with_next PIK_HashPragma spf_token
                (ident "analysis" 12) (eod_at 23)
                [Lex.mkToken tok.numeric_constant 21%Z 2 None (Some "42")]
                [ident "next" 40] "analysis" 1
                (PragmaReplacer_HandlePragma sample_table 1 "analysis"
                   (fun c => if String.eqb c "private"
                             then Some (HandleClause "private" no_body)
                             else None) 8)
                eq_refl Hpre eq_refl eq_refl eq_refl eq_refl) as H.
  vm_compute in H. destruct H as [_ H]. vm_compute. exact H.
Defined.

End NamespaceReplacerMoreExamples.

Section NamespaceReplacerRejects.
Import Lex PragmaHandlers Replacement MoreSamples.

Variable D : Directives.Table.
Variable mNamespaceId : nat.
Variable Name : string.
Variable FindHandler : string -> option Handler.

(** X2. A pragma is rejected exactly when the token behind the namespace
    spells no name, or names no directive of the namespace, or names a
    directive without a handler. A rejected pragma costs one token and one
    diagnostic: the rest of its line stays to be lexed, nothing is entered
    and the token queue is empty. *)
Theorem HandlePragma_rejection (PP : Preprocessor)
  (Introducer : PragmaIntroducerKind) (FirstToken : Token) :
  let T := (LexUnexpandedToken PP).1 in
  let d := dispatch D mNamespaceId Name FindHandler PP Introducer FirstToken in
  let '(PP', T', q) :=
    HandlePragma D mNamespaceId Name FindHandler PP Introducer FirstToken in
  (relex_token_after d = None <->
   spelled_name T = None \/
   exists DirectiveName,
     spelled_name T = Some DirectiveName /\
     (Directives.getTsarDirective D mNamespaceId DirectiveName = None \/
      FindHandler DirectiveName = None)) /\
  (relex_token_after d = None ->
   pending PP' = tail (pending PP) /\ entered PP' = entered PP /\
   (exists diag, diagnostics PP' = diagnostics PP ++ [diag]) /\
   T' = T /\ q = []).
Proof.
  cbv zeta. unfold HandlePragma, dispatch, LexUnexpandedToken.
  destruct (pending PP) as [|t rest] eqn:Hp; simpl.
  - destruct (spelled_name eod_token) as [dn|] eqn:Hs; simpl.
    { vm_compute in Hs. discriminate Hs. }
    split; [split; [by left|done]|]. intros _. rewrite Hp.
    repeat split; by eexists.
  - destruct (spelled_name t) as [dn|] eqn:Hs; simpl.
    + destruct (Directives.getTsarDirective D mNamespaceId dn) eqn:Hg; simpl.
      * destruct (FindHandler dn) as [h|] eqn:Hf; simpl.
        -- destruct (lex_to_eod rest) as [[r lastT] rem].
           destruct (h _ _ _ _) as [[EPP RF] q]. simpl.
           destruct (is_ tok.eod RF); simpl;
             (split; [split; [done|]|done]);
             intros [Hn|(dn' & [= <-] & [Hn|Hn])]; congruence.
        -- split; [|intros _; repeat split; by eexists].
           split; [|done]. intros _. right. exists dn. by auto.
      * split; [|intros _; repeat split; by eexists].
        split; [|done]. intros _. right. exists dn. by auto.
    + split; [|intros _; repeat split; by eexists].
      split; [|done]. intros _. by left.
Qed.

End NamespaceReplacerRejects.

(* --------------------------------------------------------------------- *)
(** ** The clause loop ends, and what it builds is balanced               *)
(* --------------------------------------------------------------------- *)

Section PragmaReplacerMore.
Import Lex PragmaHandlers Replacement MoreSamples.

Variable D : Directives.Table.
Variable mDirectiveId : nat.
Variable Name : string.
Variable FindClause : string -> option Handler.

Lemma ExtLex_length (PP : ExternalPreprocessor) :
  (relex PP = [] /\ ExtLex PP = (eod_token, PP)) \/
  (exists t, ExtLex PP = (t, mkExtPP (tail (relex PP)) (reported PP)) /\
             S (length (relex (ExtLex PP).2)) = length (relex PP)).
Proof.
  unfold ExtLex. destruct (relex PP) as [|t rest] eqn:Hr; [by left|].
  right. by exists t.
Qed.

Lemma clause_loop_fuel :
  (forall c h, FindClause c = Some h -> reads_ahead h) ->
  forall (fuel : nat) (PP : ExternalPreprocessor)
         (Introducer : PragmaIntroducerKind) (FirstToken : Token)
         (body : bool) (q : list Token),
    (Kind FirstToken = tok.eod /\ 1 <= fuel) \/
    length (relex PP) + 2 <= fuel ->
    exit_of (clause_loop D mDirectiveId Name FindClause fuel PP Introducer
                         FirstToken body q) <> OutOfFuel.
Proof.
  intros Hh. induction fuel as [|fuel IH];
    intros PP Introducer FirstToken body q Hfuel; [lia|].
  simpl. unfold isNot, is_. case_bool_decide as Heod; simpl; [done|].
  destruct Hfuel as [[He _]|Hfuel]; [done|].
  destruct (if negb body then spelled_name FirstToken else Some "")
    as [ClauseName|]; [|done].
  destruct (Directives.getTsarClause D mDirectiveId ClauseName); [|done].
  destruct (FindClause ClauseName) as [h|] eqn:Hf; [|done].
  pose proof (Hh _ _ Hf PP Introducer FirstToken q) as Hsuf.
  destruct (h PP Introducer FirstToken q) as [[PP1 T1] q1]. simpl in Hsuf.
  apply suffix_length in Hsuf.
  destruct (ExtLex_length PP1) as [[Hnil ->]|(t & -> & Hlen)].
  - apply IH. left. split; [reflexivity|lia].
  - apply IH. right. simpl in *. lia.
Qed.

Lemma PragmaReplacer_loop_ends (fuel : nat) (PP : ExternalPreprocessor)
  (Introducer : PragmaIntroducerKind) (FirstToken : Token) (q : list Token)
  (Hh : forall c h, FindClause c = Some h -> reads_ahead h)
  (Hfuel : length (relex PP) + 2 <= fuel) :
  exit_of (HandlePragma_exit D mDirectiveId Name FindClause fuel PP
                             Introducer FirstToken q) <> OutOfFuel.
Proof.
  unfold HandlePragma_exit.
  assert (Hloop : forall PP1 T1 b q1,
            length (relex PP1) <= length (relex PP) ->
            exit_of (clause_loop D mDirectiveId Name FindClause fuel PP1
                                 Introducer T1 b q1) <> OutOfFuel).
  { intros PP1 T1 b q1 Hle. apply clause_loop_fuel; [exact Hh|]. right. lia. }
  destruct (negb (Directives.hasBody D mDirectiveId)).
  - destruct (ExtLex_length PP) as [[Hnil ->]|(t & -> & Hlen)].
    + specialize (Hloop PP eod_token (Directives.hasBody D mDirectiveId)
                    (AddToken tok.semi (Loc FirstToken) 1
                       (AddStringToken Name (Loc FirstToken)
                          (AddToken tok.l_brace (Loc FirstToken) 1 q)))).
      destruct (clause_loop _ _ _ _ _ _ _ _ _ _) as [[[ex P] T] r].
      destruct ex; [done|done|]. by apply Hloop.
    + specialize (Hloop (mkExtPP (tail (relex PP)) (reported PP)) t
                    (Directives.hasBody D mDirectiveId)
                    (AddToken tok.semi (Loc FirstToken) 1
                       (AddStringToken Name (Loc FirstToken)
                          (AddToken tok.l_brace (Loc FirstToken) 1 q)))).
      destruct (clause_loop _ _ _ _ _ _ _ _ _ _) as [[[ex P] T] r].
      destruct ex; [done|done|]. apply Hloop. simpl in *. lia.
  - specialize (Hloop PP FirstToken (Directives.hasBody D mDirectiveId)
                  (AddToken tok.semi (Loc FirstToken) 1
                     (AddStringToken Name (Loc FirstToken)
                        (AddToken tok.l_brace (Loc FirstToken) 1 q)))).
    destruct (clause_loop _ _ _ _ _ _ _ _ _ _) as [[[ex P] T] r].
    destruct ex; [done|done|]. by apply Hloop.
Qed.

(** X3. The clause loop of [PragmaReplacer::HandlePragma] comes to an end:
    when the clause handlers only read ahead, as many rounds as the
    directive has tokens, and two more, are enough for it to finish or to
    bail out. *)
Theorem PragmaReplacer_terminates (fuel : nat) (PP : ExternalPreprocessor)
  (Introducer : PragmaIntroducerKind) (FirstToken : Token) (q : list Token)
  (Hh : forall c h, FindClause c = Some h -> reads_ahead h)
  (Hfuel : length (relex PP) + 2 <= fuel) :
  exit_of (HandlePragma_exit D mDirectiveId Name FindClause fuel PP
                             Introducer FirstToken q) <> OutOfFuel.
Proof.
  unfold HandlePragma_exit.
  assert (Hloop : forall PP1 T1 b q1,
            length (relex PP1) <= length (relex PP) ->
            exit_of (clause_loop D mDirectiveId Name FindClause fuel PP1
                                 Introducer T1 b q1) <> OutOfFuel).
  { intros PP1 T1 b q1 Hle. apply clause_loop_fuel; [exact Hh|]. right. lia. }
  destruct (negb (Directives.hasBody D mDirectiveId)).
  - destruct (ExtLex_length PP) as [[Hnil ->]|(t & -> & Hlen)].
    + specialize (Hloop PP eod_token (Directives.hasBody D mDirectiveId)
                    (AddToken tok.semi (Loc FirstToken) 1
                       (AddStringToken Name (Loc FirstToken)
                          (AddToken tok.l_brace (Loc FirstToken) 1 q)))).
      destruct (clause_loop _ _ _ _ _ _ _ _ _ _) as [[[ex P] T] r].
      destruct ex; [done|done|]. by apply Hloop.
    + specialize (Hloop (mkExtPP (tail (relex PP)) (reported PP)) t
                    (Directives.hasBody D mDirectiveId)
                    (AddToken tok.semi (Loc FirstToken) 1
                       (AddStringToken Name (Loc FirstToken)
                          (AddToken tok.l_brace (Loc FirstToken) 1 q)))).
      destruct (clause_loop _ _ _ _ _ _ _ _ _ _) as [[[ex P] T] r].
      destruct ex; [done|done|]. apply Hloop. simpl in *. lia.
  - specialize (Hloop PP FirstToken (Directives.hasBody D mDirectiveId)
                  (AddToken tok.semi (Loc FirstToken) 1
                     (AddStringToken Name (Loc FirstToken)
                        (AddToken tok.l_brace (Loc FirstToken) 1 q)))).
    destruct (clause_loop _ _ _ _ _ _ _ _ _ _) as [[[ex P] T] r].
    destruct ex; [done|done|]. by apply Hloop.
Qed.

(** X4. With that many rounds [PragmaReplacer::HandlePragma] either
    finishes, and then it has read every token of the directive and stands
    at [tok::eod], or bails out at a token that is not [tok::eod]; this
    for clause handlers that only read ahead and a first token that is not
    [tok::eod]. *)
Theorem PragmaReplacer_finished_reads_directive (fuel : nat)
  (PP : ExternalPreprocessor) (Introducer : PragmaIntroducerKind)
  (FirstToken : Token) (q : list Token)
  (Hh : forall c h, FindClause c = Some h -> reads_ahead h)
  (Hone : one_directive (relex PP))
  (Hne : Kind FirstToken <> tok.eod)
  (Hfuel : length (relex PP) + 2 <= fuel) :
  match HandlePragma_exit D mDirectiveId Name FindClause fuel PP Introducer
                          FirstToken q with
  | (Finished, PP', T, _) => relex PP' = [] /\ Kind T = tok.eod
  | (Bailed, _, T, _) => Kind T <> tok.eod
  | (OutOfFuel, _, _, _) => False
  end.
Proof.
  pose proof (PragmaReplacer_finished_consumed_all D mDirectiveId Name
                FindClause fuel PP Introducer FirstToken q Hh Hone Hne)
    as Hread.
  pose proof (PragmaReplacer_loop_ends fuel PP Introducer FirstToken q Hh
                Hfuel) as Hends.
  destruct (HandlePragma_exit D mDirectiveId Name FindClause fuel PP
                              Introducer FirstToken q) as [[[ex PP'] T] q'].
  destruct ex; [exact Hread|exact Hread|]. by apply Hends.
Qed.

End PragmaReplacerMore.

Section PragmaReplacerBraces.
Import Lex PragmaHandlers Replacement MoreSamples.

Lemma no_body_reads_ahead : reads_ahead no_body.
Proof. intros PP Introducer FirstToken q. by exists []. Qed.

Lemma no_body_keeps_braces : keeps_braces no_body.
Proof.
  intros PP Introducer FirstToken q. exists []. by rewrite app_nil_r.
Qed.

Lemma nesting_app (o c : tok.TokenKind) (q1 q2 : list Token) (d : nat) :
  nesting o c d (q1 ++ q2) = nesting o c d q1 ≫= fun d' => nesting o c d' q2.
Proof.
  revert d. induction q1 as [|t q1 IH]; intros d; simpl; [reflexivity|].
  destruct (is_ o t); [apply IH|].
  destruct (is_ c t); [|apply IH]. destruct d as [|d]; [reflexivity|apply IH].
Qed.

Lemma nesting_shift (o c : tok.TokenKind) (q : list Token) (d d' k : nat) :
  nesting o c d q = Some d' -> nesting o c (d + k) q = Some (d' + k).
Proof.
  revert d. induction q as [|t q IH]; intros d; simpl.
  - by intros [= ->].
  - destruct (is_ o t); [apply (IH (S d))|].
    destruct (is_ c t); [|apply IH].
    destruct d as [|d]; [discriminate|]. apply IH.
Qed.

Lemma braces_inside (added : list Token) (d : nat) :
  braces 0 added = Some 0 -> braces d added = Some d.
Proof. intros H. exact (nesting_shift _ _ _ 0 0 d H). Qed.

(** One level of a replacement: an opening brace, a name, a semicolon,
    what is inside and, when [closed], the closing brace. *)
Lemma level_braces (L1 L2 : SourceLocation) (n : string)
  (inside : list Token) (q : list Token) :
  braces 0 inside = Some 0 ->
  exists opened closed,
    AddToken tok.semi L1 1
      (AddStringToken n L1 (AddToken tok.l_brace L1 1 q)) ++ inside
    = q ++ opened /\
    AddToken tok.r_brace L2 1
      (AddToken tok.semi L1 1
         (AddStringToken n L1 (AddToken tok.l_brace L1 1 q)) ++ inside)
    = q ++ closed /\
    braces 0 opened = Some 1 /\ braces 0 closed = Some 0.
Proof.
  intros Hin. unfold AddToken, AddStringToken.
  eexists (_ :: _ :: _ :: inside), (_ :: _ :: _ :: inside ++ [_]).
  split; [by rewrite <- !app_assoc|]. split; [by rewrite <- !app_assoc|].
  split.
  - unfold braces. simpl. exact (braces_inside inside 1 Hin).
  - unfold braces. simpl. fold (braces 1 (inside ++ [setLength 1
      (setLocation L2 (setKind tok.r_brace startToken))])).
    unfold braces. rewrite nesting_app.
    fold (braces 1 inside). by rewrite (braces_inside inside 1 Hin).
Qed.

Lemma HandleClause_keeps_braces (n : string) (HandleBody : Handler) :
  keeps_braces HandleBody -> keeps_braces (HandleClause n HandleBody).
Proof.
  intros Hb PP Introducer FirstToken q. unfold HandleClause.
  match goal with
  | |- context [HandleBody ?a ?b ?c ?d] =>
      destruct (Hb a b c d) as (inside & Heq & Hin);
      destruct (HandleBody a b c d) as [[P T] r]
  end.
  simpl in Heq. subst r. simpl.
  destruct (level_braces (Loc FirstToken)
              (if (0 <? Length T)%nat
               then getLocWithOffset (Loc T) (Z.of_nat (Length T - 1))
               else Loc T) n inside q Hin)
    as (opened & closed & _ & Hc & _ & Hb0).
  exists closed. by split.
Qed.

Section Loop.
Variable D : Directives.Table.
Variable mDirectiveId : nat.
Variable Name : string.
Variable FindClause : string -> option Handler.
Hypothesis Hkeep : forall c h, FindClause c = Some h -> keeps_braces h.

Lemma clause_loop_keeps_braces (fuel : nat) :
  forall (PP : ExternalPreprocessor) (Introducer : PragmaIntroducerKind)
         (FirstToken : Token) (body : bool) (q : list Token),
    exists added,
      (clause_loop D mDirectiveId Name FindClause fuel PP Introducer
                   FirstToken body q).2 = q ++ added /\
      braces 0 added = Some 0.
Proof.
  induction fuel as [|fuel IH]; intros PP Introducer FirstToken body q;
    simpl; [exists []; by rewrite app_nil_r|].
  destruct (isNot tok.eod FirstToken); [|exists []; by rewrite app_nil_r].
  destruct (if negb body then spelled_name FirstToken else Some "")
    as [ClauseName|]; [|exists []; by rewrite app_nil_r].
  destruct (Directives.getTsarClause D mDirectiveId ClauseName);
    [|exists []; by rewrite app_nil_r].
  destruct (FindClause ClauseName) as [h|] eqn:Hf;
    [|exists []; by rewrite app_nil_r].
  destruct (Hkeep _ _ Hf PP Introducer FirstToken q) as (a1 & Heq & Ha1).
  destruct (h PP Introducer FirstToken q) as [[PP1 T1] q1].
  simpl in Heq. subst q1. destruct (ExtLex PP1) as [T2 PP2].
  match goal with
  | |- context [clause_loop ?a ?b ?c ?d ?e ?f ?g ?h ?i ?j] =>
      destruct (IH f g h i j) as (a2 & Heq2 & Ha2)
  end.
  exists (a1 ++ a2). rewrite Heq2, <- app_assoc. split; [reflexivity|].
  unfold braces. rewrite nesting_app. fold (braces 0 a1). rewrite Ha1.
  exact Ha2.
Qed.

Lemma PragmaReplacer_adds_matched (fuel : nat) (PP : ExternalPreprocessor)
  (Introducer : PragmaIntroducerKind) (FirstToken : Token) (q : list Token) :
  let r := HandlePragma_exit D mDirectiveId Name FindClause fuel PP
                             Introducer FirstToken q in
  exists added,
    r.2 = q ++ added /\
    braces 0 added
    = Some (match exit_of r with Finished => 0 | _ => 1 end).
Proof.
  cbv zeta. unfold HandlePragma_exit.
  destruct (if negb (Directives.hasBody D mDirectiveId)
            then ExtLex PP else (FirstToken, PP)) as [T1 PP1].
  match goal with
  | |- context [clause_loop ?a ?b ?c ?d ?e ?f ?g ?h ?i ?j] =>
      destruct (clause_loop_keeps_braces e f g h i j) as (inside & Heq & Hin);
      destruct (clause_loop a b c d e f g h i j) as [[[ex PP2] T2] q2]
  end.
  simpl in Heq. subst q2.
  destruct (level_braces (Loc FirstToken) (Loc T2) Name inside q Hin)
    as (opened & closed & Ho & Hc & Ho1 & Hc0).
  destruct ex; simpl.
  - exists closed. by split.
  - exists opened. by split.
  - exists opened. by split.
Qed.

(** X5. What [PragmaReplacer::HandlePragma] adds to the replacement, when
    the clause handlers keep braces matched: a run that finishes appends
    tokens whose braces match, a run that bails out leaves the brace of
    the directive open. The tokens that were in the replacement are never
    touched. *)
Theorem PragmaReplacer_braces (fuel : nat) (PP : ExternalPreprocessor)
  (Introducer : PragmaIntroducerKind) (FirstToken : Token) (q : list Token) :
  let r := HandlePragma_exit D mDirectiveId Name FindClause fuel PP
                             Introducer FirstToken q in
  exists added,
    r.2 = q ++ added /\
    braces 0 added
    = Some (match exit_of r with Finished => 0 | _ => 1 end).
Proof.
  cbv zeta. unfold HandlePragma_exit.
  destruct (if negb (Directives.hasBody D mDirectiveId)
            then ExtLex PP else (FirstToken, PP)) as [T1 PP1].
  match goal with
  | |- context [clause_loop ?a ?b ?c ?d ?e ?f ?g ?h ?i ?j] =>
      destruct (clause_loop_keeps_braces e f g h i j) as (inside & Heq & Hin);
      destruct (clause_loop a b c d e f g h i j) as [[[ex PP2] T2] q2]
  end.
  simpl in Heq. subst q2.
  destruct (level_braces (Loc FirstToken) (Loc T2) Name inside q Hin)
    as (opened & closed & Ho & Hc & Ho1 & Hc0).
  destruct ex; simpl.
  - exists closed. by split.
  - exists opened. by split.
  - exists opened. by split.
Qed.
End Loop.

End PragmaReplacerBraces.

Section NamespaceReplacerBalanced.
Import Lex PragmaHandlers Replacement MoreSamples.

Variable D : Directives.Table.
Variable mNamespaceId : nat.
Variable Name : string.
Variable FindHandler : string -> option Handler.

Lemma lex_to_eod_length (ts : list Token) :
  length (lex_to_eod ts).1.1 <= S (length ts).
Proof.
  induction ts as [|t ts IH]; simpl; [lia|].
  destruct (is_ tok.eod t); simpl; [lia|].
  destruct (lex_to_eod ts) as [[r lastT] rest]. simpl in *. lia.
Qed.

(** X6. Every token stream that the namespace replacer enters through
    directive handlers of the kind [PragmaReplacer], with clause handlers
    that only read ahead and keep braces matched, has matching braces. *)
Theorem HandlePragma_enters_balanced (PP : Preprocessor)
  (Introducer : PragmaIntroducerKind) (FirstToken : Token)
  (HF : forall dn h, FindHandler dn = Some h ->
        exists id nm fc fuel,
          h = PragmaReplacer_HandlePragma D id nm fc fuel /\
          length (pending PP) + 2 <= fuel /\
          forall c hc, fc c = Some hc -> reads_ahead hc /\ keeps_braces hc) :
  forall s,
    s ∈ entered (HandlePragma D mNamespaceId Name FindHandler PP Introducer
                              FirstToken).1.1 ->
    s ∈ entered PP \/ braces 0 s = Some 0.
Proof.
  intros s. unfold HandlePragma, dispatch, LexUnexpandedToken.
  destruct (pending PP) as [|t rest] eqn:Hp; simpl.
  { destruct (spelled_name eod_token) as [dn|] eqn:Hs; simpl; [|by left].
    vm_compute in Hs. discriminate Hs. }
  destruct (spelled_name t) as [dn|]; simpl; [|by left].
  destruct (Directives.getTsarDirective D mNamespaceId dn); simpl;
    [|by left].
  destruct (FindHandler dn) as [h|] eqn:Hf; simpl; [|by left].
  destruct (HF _ _ Hf) as (id & nm & fc & fuel & -> & Hfuel & Hfc).
  pose proof (lex_to_eod_length rest) as Hlen.
  destruct (lex_to_eod rest) as [[relexed lastT] rem]. simpl in Hlen.
  unfold PragmaReplacer_HandlePragma.
  match goal with
  | |- context [HandlePragma_exit ?a ?b ?c ?d ?e ?f ?g ?h ?i] =>
      pose proof (PragmaReplacer_exit a b c d e f g h i) as Hexit;
      pose proof (PragmaReplacer_loop_ends a b c d e f g h i
                    (fun c hc H => proj1 (Hfc c hc H))) as Hterm;
      pose proof (PragmaReplacer_adds_matched a b c d
                    (fun c hc H => proj2 (Hfc c hc H)) e f g h i) as Hbr;
      destruct (HandlePragma_exit a b c d e f g h i) as [[[ex EPP] RF] q]
  end.
  simpl in *. unfold is_. case_bool_decide as Heod; simpl; [|by left].
  intros Hs. apply elem_of_cons in Hs as [->|Hs]; [right|by left].
  destruct ex; [|done|exfalso; apply Hterm; [lia|done]].
  unfold exit_of in Hbr. simpl in Hbr.
  destruct Hbr as (added & -> & Hb).
  unfold AddToken, braces. simpl. rewrite nesting_app.
  fold (braces 1 added). by rewrite (braces_inside added 1 Hb).
Qed.

End NamespaceReplacerBalanced.

Section PragmaReplacerWitnesses.
Import Lex PragmaHandlers Replacement MoreSamples.

Lemma analysis_clauses_behave (c : string) (h : Handler) :
  analysis_clauses c = Some h -> reads_ahead h /\ keeps_braces h.
Proof.
  unfold analysis_clauses. destruct (String.eqb c "private"); [|discriminate].
  intros [= <-]. split.
  - apply HandleClause_reads_ahead, no_body_reads_ahead.
  - apply HandleClause_keeps_braces, no_body_keeps_braces.
Qed.

Lemma PragmaReplacer_terminates_witness :
  exit_of (HandlePragma_exit sample_table 1 "analysis" analysis_clauses 4
                             relex_private PIK_HashPragma
                             (ident "analysis" 12) []) <> OutOfFuel.
Proof.
  apply (PragmaReplacer_terminates sample_table 1 "analysis"
           analysis_clauses 4 relex_private PIK_HashPragma
           (ident "analysis" 12) []).
  - intros c h H. exact (proj1 (analysis_clauses_behave c h H)).
  - simpl. lia.
Defined.

Lemma PragmaReplacer_braces_witness :
  exists added,
    (HandlePragma_exit sample_table 1 "analysis" analysis_clauses 4
                       relex_private PIK_HashPragma (ident "analysis" 12)
                       []).2 = [] ++ added /\
    braces 0 added = Some 0.
Proof.
  apply (PragmaReplacer_braces sample_table 1 "analysis" analysis_clauses
           (fun c h H => proj2 (analysis_clauses_behave c h H))
           4 relex_private PIK_HashPragma (ident "analysis" 12) []).
Defined.

Lemma PragmaReplacer_finished_reads_directive_witness :
  match HandlePragma_exit sample_table 1 "analysis" analysis_clauses 4
                          relex_private PIK_HashPragma (ident "analysis" 12)
                          [] with
  | (Finished, PP', T, _) => relex PP' = [] /\ Kind T = tok.eod
  | (Bailed, _, T, _) => Kind T <> tok.eod
  | (OutOfFuel, _, _, _) => False
  end.
Proof.
  apply (PragmaReplacer_finished_reads_directive sample_table 1 "analysis"
           analysis_clauses 4 relex_private PIK_HashPragma
           (ident "analysis" 12) []).
  - intros c h H. exact (proj1 (analysis_clauses_behave c h H)).
  - intros pre t post Heq Hk.
    destruct pre as [|a [|b [|? ?]]]; simpl in Heq;
      [injection Heq as <- <-; discriminate Hk
      |injection Heq as _ _ <-; reflexivity
      |injection Heq as _ _ Heq; discriminate Heq
      |injection Heq as _ _ Heq; by destruct l].
  - discriminate.
  - vm_compute. lia.
Defined.

Lemma HandlePragma_enters_balanced_witness :
  let s := default []
             (head (entered (HandlePragma sample_table 1 "spf" spf_handlers
                               pp_analysis_private PIK_HashPragma
                               spf_token).1.1)) in
  s ∈ entered pp_analysis_private \/ braces 0 s = Some 0.
Proof.
  cbv zeta.
  refine (HandlePragma_enters_balanced sample_table 1 "spf" spf_handlers
            pp_analysis_private PIK_HashPragma spf_token _ _ _).
  - intros dn h. unfold spf_handlers.
    destruct (String.eqb dn "analysis"); [|discriminate].
    intros [= <-]. exists 1, "analysis", analysis_clauses, 8.
    split; [reflexivity|]. split; [simpl; lia|].
    apply analysis_clauses_behave.
  - vm_compute. apply list_elem_of_here.
Defined.

End PragmaReplacerWitnesses.

(* --------------------------------------------------------------------- *)
(** ** The clause visitor and the call that replaces a Dvm pragma         *)
(* --------------------------------------------------------------------- *)

Section VisitorFacts.
Import Lex PragmaHandlers Replacement DefaultClauseVisitor MoreSamples.




(** The braces of an [EK_One] level: opened behind the token that starts
    it, closed at the anchor; at another level the anchor adds nothing. *)
Lemma one_level_braces (T1 T2 : Token) (R : list Token) :
  braces 0 R = Some 0 ->
  braces 0 (visitEK_Anchor true T2 (visitEK_One T1 R)) = Some 0 /\
  visitEK_Anchor false T2 R = R.
Proof.
  intros HR. split; [|reflexivity].
  unfold visitEK_Anchor, visitEK_One, AddToken, braces.
  rewrite !nesting_app. fold (braces 0 R). by rewrite HR.
Qed.

End VisitorFacts.

Section ReplaceWithCallFacts.
Import Lex PragmaHandlers Replacement MoreSamples.

Lemma read_pragma_tokens_split (pre : list Token) (e : Token)
  (rest : list Token) (s : string) :
  eod_free pre -> Kind e = tok.eod ->
  read_pragma_tokens (pre ++ e :: rest) s = (s +:+ call_texts pre, rest).
Proof.
  intros Hpre He. revert s.
  induction Hpre as [|t pre Ht _ IH]; intros s; simpl.
  - unfold isNot, is_. rewrite He. simpl. by rewrite append_nil_r.
  - unfold isNot, is_. rewrite (bool_decide_eq_false_2 _ Ht). simpl.
    rewrite IH. unfold call_text, is_.
    destruct (bool_decide (Kind t = tok.identifier));
      [by rewrite append_assoc|].
    destruct (bool_decide (Kind t = tok.comma)); [by rewrite append_assoc|].
    reflexivity.
Qed.

(** X8. [ReplacePragmaWithCall] reads the directive to its end and no
    further, reports nothing, and enters one stream: the declaration and
    the call whose only argument is the text of the identifiers and commas
    of the directive, in order and in double quotes; every other token of
    the directive is dropped. *)
Theorem ReplacePragmaWithCall_argument (PP : Preprocessor)
  (FunctionName : string) (FirstToken e : Token) (pre rest : list Token)
  (Hpending : pending PP = pre ++ e :: rest)
  (Hpre : eod_free pre) (He : Kind e = tok.eod) :
  ReplacePragmaWithCall PP FunctionName FirstToken
  = mkPP rest
      ((InsertDeclarationForActualInstrumentation [] FunctionName
          ++ call_tokens FunctionName (Loc FirstToken)
               (dquote +:+ call_texts pre +:+ dquote))
         :: entered PP)
      (diagnostics PP).
Proof.
  pose proof (ReplacePragmaWithCall_spec PP FunctionName FirstToken) as H.
  rewrite Hpending, (read_pragma_tokens_split pre e rest dquote Hpre He) in H.
  by rewrite H, append_assoc.
Qed.

Lemma ReplacePragmaWithCall_argument_witness :
  ReplacePragmaWithCall pp_actual "f" (ident "actual" 12)
  = mkPP [ident "next" 30]
      [InsertDeclarationForActualInstrumentation [] "f"
         ++ call_tokens "f" 12%Z (dquote +:+ "A,B" +:+ dquote)]
      [].
Proof.
  apply (ReplacePragmaWithCall_argument pp_actual "f" (ident "actual" 12)
           (eod_at 24)
           [ Lex.mkToken tok.l_paren 18%Z 1 None None;
             ident "A" 19; Lex.mkToken tok.comma 20%Z 1 None None;
             ident "B" 22; Lex.mkToken tok.r_paren 23%Z 1 None None ]
           [ident "next" 30]).
  - reflexivity.
  - repeat constructor; discriminate.
  - reflexivity.
Defined.

End ReplaceWithCallFacts.

(* --------------------------------------------------------------------- *)
(** ** More on AddTsarPragmaHandlers                                      *)
(* --------------------------------------------------------------------- *)

Section RegistryMore.
Import Directives DefaultPragmaHandlers HandlerRegistry Lex MoreSamples.

Variable D : Table.

Lemma clauses_of_spec (DId : nat) (CR : ClauseReplacer) :
  CR ∈ clauses_of D DId <->
  mClauseId CR ∈ ids (NotClause D) (NumClauses D) /\
  getParentOfClause D (mClauseId CR) = DId.
Proof.
  unfold clauses_of. rewrite list_elem_of_omap. split.
  - intros (CId & Hin & Hsome).
    destruct (decide (getParentOfClause D CId = DId)); [|discriminate].
    by injection Hsome as <-.
  - intros [Hin Hp]. exists (mClauseId CR). split; [exact Hin|].
    rewrite decide_True by exact Hp. by destruct CR.
Qed.

Lemma AddTsar_container (R : Registry) :
  Container (AddTsarPragmaHandlers D R)
  = Container R ++ namespace_replacers D.
Proof.
  unfold AddTsarPragmaHandlers, namespace_replacers. by rewrite AddTsar_fold.
Qed.

(** X9. [AddTsarPragmaHandlers] hands every namespace replacer it creates
    both to the preprocessor and to the container, in the same order, one
    for each namespace id between [NotNamespace] and [NumNamespaces]; and
    the handlers are built so that the assertions of their constructors
    hold: every directive handler hangs under the namespace of its
    directive, every clause handler under the directive of its clause. *)
Theorem AddTsarPragmaHandlers_well_formed (R : Registry) :
  PPHandlers (AddTsarPragmaHandlers D R)
  = PPHandlers R ++ map NamespaceReplacer (namespace_replacers D) /\
  Container (AddTsarPragmaHandlers D R)
  = Container R ++ namespace_replacers D /\
  map mNamespaceId (namespace_replacers D)
  = seq (S (NotNamespace D)) (NumNamespaces D - S (NotNamespace D)) /\
  (forall NR PR,
     NR ∈ namespace_replacers D -> PR ∈ mPragmas NR ->
     getParentOfDirective D (mDirectiveId PR) = mNamespaceId NR /\
     mParent PR = mNamespaceId NR /\
     forall CR, CR ∈ mClauses PR ->
                getParentOfClause D (mClauseId CR) = mDirectiveId PR).
Proof.
  split; [apply AddTsar_handlers|]. split; [apply AddTsar_container|]. split.
  - unfold namespace_replacers, ids. rewrite map_map. simpl. apply map_id.
  - intros NR PR HNR HPR. unfold namespace_replacers in HNR.
    apply list_elem_of_fmap in HNR as (NId & -> & _). simpl in *.
    apply pragmas_of_spec in HPR as (_ & Hp & _ & HPR).
    split; [exact Hp|]. rewrite HPR. simpl. split; [reflexivity|].
    intros CR HCR. by apply clauses_of_spec in HCR as [_ HCR].
Qed.

End RegistryMore.


Section DvmThroughReplacer.
Import Directives DefaultPragmaHandlers HandlerRegistry Lex PragmaHandlers
       MoreSamples.

Variable D : Table.

Lemma FindHandler_in_found {H : Type} (handler_of : PragmaReplacer -> H)
  (NR : PragmaNamespaceReplacer) (dn : string) (h : H) :
  FindHandler_in D handler_of NR dn = Some h ->
  exists PR, PR ∈ mPragmas NR /\
             getDirectiveName D (mDirectiveId PR) = dn /\ h = handler_of PR.
Proof.
  unfold FindHandler_in.
  destruct (List.find _ _) as [PR|] eqn:Hf; [|discriminate].
  intros [= <-]. apply find_some in Hf as [Hin Heq].
  exists PR. split; [by apply list_elem_of_In|].
  split; [by apply String.eqb_eq|reflexivity].
Qed.

(** X11. Looking a directive up in a namespace replacer that
    [AddTsarPragmaHandlers] created finds a handler only for a directive
    of that namespace, and never in the Dvm namespace: the replacer of the
    Dvm namespace has no directive handler, so whatever pragma it is given
    is diagnosed and nothing is entered in its place. *)
Theorem AddTsar_replacer_lookup (NR : PragmaNamespaceReplacer)
  (HNR : NR ∈ namespace_replacers D)
  (handler_of : PragmaReplacer -> Handler) (Name : string)
  (PP : Preprocessor) (Introducer : PragmaIntroducerKind)
  (FirstToken : Token) :
  (forall dn h,
     FindHandler_in D handler_of NR dn = Some h ->
     mNamespaceId NR <> Dvm D /\
     exists DId,
       DId ∈ ids (NotDirective D) (NumDirectives D) /\
       getDirectiveName D DId = dn /\
       getParentOfDirective D DId = mNamespaceId NR /\
       h = handler_of (mkPragmaReplacer DId (mNamespaceId NR)
                                        (clauses_of D DId))) /\
  (mNamespaceId NR = Dvm D ->
   let '(PP', _, q) :=
     HandlePragma D (mNamespaceId NR) Name (FindHandler_in D handler_of NR)
                  PP Introducer FirstToken in
   entered PP' = entered PP /\ q = [] /\
   exists diag, diagnostics PP' = diagnostics PP ++ [diag]).
Proof.
  unfold namespace_replacers in HNR.
  apply list_elem_of_fmap in HNR as (NId & -> & _). simpl. split.
  - intros dn h Hf. apply FindHandler_in_found in Hf as (PR & HPR & Hn & ->).
    simpl in HPR. apply pragmas_of_spec in HPR as (Hin & Hp & Hd & HPR).
    split; [exact Hd|]. exists (mDirectiveId PR).
    repeat split; [exact Hin|exact Hn|exact Hp|by rewrite <- HPR].
  - intros ->.
    assert (Hnone : forall dn,
              FindHandler_in D handler_of
                (mkNamespaceReplacer (Dvm D) (pragmas_of D (Dvm D))) dn
              = None).
    { intros dn. destruct (FindHandler_in _ _ _ _) as [h|] eqn:Hf; [|done].
      apply FindHandler_in_found in Hf as (PR & HPR & _). simpl in HPR.
      by apply pragmas_of_spec in HPR as (_ & _ & Hd & _). }
    unfold HandlePragma, dispatch, LexUnexpandedToken.
    destruct (pending PP) as [|t rest]; simpl.
    + destruct (spelled_name eod_token) as [dn|] eqn:Hs; simpl.
      { vm_compute in Hs. discriminate Hs. }
      repeat split. by eexists.
    + destruct (spelled_name t) as [dn|]; simpl;
        [|repeat split; by eexists].
      destruct (getTsarDirective D (Dvm D) dn); simpl;
        [|repeat split; by eexists].
      rewrite Hnone. simpl. repeat split. by eexists.
Qed.

End DvmThroughReplacer.

Section DvmThroughReplacerWitness.
Import Directives DefaultPragmaHandlers HandlerRegistry Lex PragmaHandlers
       MoreSamples.

Lemma AddTsar_replacer_lookup_witness :
  let '(PP', _, q) :=
    HandlePragma sample_table 2 "dvm"
      (FindHandler_in sample_table (fun _ => no_body)
                      (mkNamespaceReplacer 2 []))
      pp_actual_directive PIK_HashPragma (ident "dvm" 8) in
  entered PP' = [] /\ q = [] /\
  exists diag, diagnostics PP' = [] ++ [diag].
Proof.
  assert (HNR : mkNamespaceReplacer 2 [] ∈ namespace_replacers sample_table).
  { vm_compute. apply elem_of_cons. right. apply list_elem_of_here. }
  apply (AddTsar_replacer_lookup sample_table (mkNamespaceReplacer 2 []) HNR
           (fun _ => no_body) "dvm" pp_actual_directive PIK_HashPragma
           (ident "dvm" 8)).
  reflexivity.
Defined.

End DvmThroughReplacerWitness.

(* --------------------------------------------------------------------- *)
(** ** What the distribution limits checker does to the arrays            *)
(* --------------------------------------------------------------------- *)

Section CheckerMore.
Import Memory DistributionLimits Flags MoreSamples.

Variable Array : Type.
Variable SetDistributeFlag : distFlag -> Array -> Array.
Variable IsNotDistribute : Array -> bool.
Variable getRawDIMemoryIfExists : nat -> option nat.

Local Abbreviation disable' := (disable Array SetDistributeFlag).
Local Abbreviation on_store'' :=
  (on_store Array SetDistributeFlag IsNotDistribute getRawDIMemoryIfExists).
Local Abbreviation on_memory'' :=
  (on_memory Array SetDistributeFlag IsNotDistribute getRawDIMemoryIfExists).
Local Abbreviation for_each_memory'' :=
  (for_each_memory Array SetDistributeFlag IsNotDistribute
                   getRawDIMemoryIfExists).
Local Abbreviation on_instruction'' :=
  (on_instruction Array SetDistributeFlag IsNotDistribute
                  getRawDIMemoryIfExists).
Local Abbreviation on_instructions'' :=
  (on_instructions Array SetDistributeFlag IsNotDistribute
                   getRawDIMemoryIfExists).
Local Abbreviation runOnFunction'' :=
  (runOnFunction Array SetDistributeFlag IsNotDistribute
                 getRawDIMemoryIfExists).
Local Abbreviation only_flagged' := (only_flagged Array SetDistributeFlag).
Local Abbreviation flags_grow' := (flags_grow Array IsNotDistribute).

Lemma only_flagged_refl (C : APCContext Array) : only_flagged' C C.
Proof.
  repeat split. intros a. destruct (arrays Array C !! a); [|done].
  by exists [].
Qed.

Lemma only_flagged_trans (C1 C2 C3 : APCContext Array) :
  only_flagged' C1 C2 -> only_flagged' C2 C3 -> only_flagged' C1 C3.
Proof.
  intros (Ha1 & Hf1 & H1) (Ha2 & Hf2 & H2).
  split; [congruence|]. split; [congruence|]. intros a.
  specialize (H1 a). specialize (H2 a).
  destruct (arrays Array C1 !! a) as [A1|], (arrays Array C2 !! a) as [A2|],
    (arrays Array C3 !! a) as [A3|]; try done.
  destruct H1 as [fl1 ->], H2 as [fl2 ->]. exists (fl2 ++ fl1).
  unfold flagged_with. by rewrite foldr_app.
Qed.

Lemma only_flagged_disable (flag : distFlag) (a : nat) (C : APCContext Array) :
  only_flagged' C (disable' flag a C).
Proof.
  split; [reflexivity|]. split; [reflexivity|]. intros b. simpl.
  destruct (decide (a = b)) as [->|Hne].
  - rewrite lookup_alter_eq. destruct (arrays Array C !! b) as [A|]; [|done].
    by exists [flag].
  - rewrite lookup_alter_ne by exact Hne.
    destruct (arrays Array C !! b); [|done]. by exists [].
Qed.

Lemma on_store_only_flagged (AT : AliasTree) (Op : nat)
  (C C' : APCContext Array) :
  on_store'' AT Op C = Ok C' -> only_flagged' C C'.
Proof.
  unfold on_store. destruct (find AT _); [|discriminate].
  destruct (getRawDIMemoryIfExists _);
    [|intros [= <-]; apply only_flagged_refl].
  destruct (findArray _ _ _) as [[a A]|];
    [|intros [= <-]; apply only_flagged_refl].
  destruct (IsNotDistribute A); intros [= <-];
    [apply only_flagged_refl|apply only_flagged_disable].
Qed.

Lemma on_memory_only_flagged (AT : AliasTree) (k : InstKind)
  (Loc : MemoryLocation) (OpIdx : nat) (C C' : APCContext Array) :
  on_memory'' AT k Loc OpIdx C = Ok C' -> only_flagged' C C'.
Proof.
  unfold on_memory. destruct (find AT _); [|discriminate].
  destruct (getRawDIMemoryIfExists _);
    [|intros [= <-]; apply only_flagged_refl].
  destruct (findArray _ _ _) as [[a A]|];
    [|intros [= <-]; apply only_flagged_refl].
  destruct (IsNotDistribute A); [intros [= <-]; apply only_flagged_refl|].
  destruct k as [[]|callee|];
    try (intros [= <-]; first [apply only_flagged_refl
                              |apply only_flagged_disable]).
  destruct (decide _); [intros [= <-]; apply only_flagged_disable|].
  destruct callee as [c|]; [|intros [= <-]; apply only_flagged_disable].
  destruct (isDeclaration c || LibFunc c);
    [intros [= <-]; apply only_flagged_disable|].
  destruct (findFunction _ _ _) as [F|];
    [|intros [= <-]; apply only_flagged_disable].
  destruct (funcParams F !! OpIdx) as [p|];
    [|intros [= <-]; apply only_flagged_disable].
  destruct (decide _); intros [= <-];
    [apply only_flagged_disable|apply only_flagged_refl].
Qed.

Lemma for_each_memory_only_flagged (AT : AliasTree) (k : InstKind)
  (accs : list (MemoryLocation * nat)) (C C' : APCContext Array) :
  for_each_memory'' AT k accs C = Ok C' -> only_flagged' C C'.
Proof.
  revert C. induction accs as [|[Loc OpIdx] accs IH]; intros C; simpl.
  - intros [= <-]. apply only_flagged_refl.
  - destruct (on_memory'' AT k Loc OpIdx C) as [C1|] eqn:H1; [|discriminate].
    simpl. intros H2. eapply only_flagged_trans;
      [by eapply on_memory_only_flagged|by apply IH].
Qed.

Lemma on_instructions_only_flagged (AT : AliasTree) (Is : list Instruction)
  (C C' : APCContext Array) :
  on_instructions'' AT Is C = Ok C' -> only_flagged' C C'.
Proof.
  revert C. induction Is as [|Inst Is IH]; intros C; simpl.
  - intros [= <-]. apply only_flagged_refl.
  - destruct (on_instruction'' AT Inst C) as [C1|] eqn:H1; [|discriminate].
    simpl. intros H2. eapply only_flagged_trans; [|by apply IH].
    destruct Inst as [|Op [|]|k accs]; simpl in H1.
    + injection H1 as <-. apply only_flagged_refl.
    + by eapply on_store_only_flagged.
    + injection H1 as <-. apply only_flagged_refl.
    + by eapply for_each_memory_only_flagged.
Qed.

Lemma disable_params_only_flagged (ps : list FuncParam)
  (C C' : APCContext Array) :
  disable_params Array SetDistributeFlag ps C = Ok C' -> only_flagged' C C'.
Proof.
  revert C. induction ps as [|p ps IH]; intros C; simpl.
  - intros [= <-]. apply only_flagged_refl.
  - destruct (decide _); [|apply IH].
    destruct (parameter p) as [a|]; [|discriminate].
    intros H. eapply only_flagged_trans;
      [apply only_flagged_disable|by apply IH].
Qed.

(** X12. A run of [runOnFunction] that completes reports no change of the
    IR ([false]) and touches nothing but distribution flags: the
    registered functions and the arrays of the debug memories are as
    before, no array appears or disappears, and every array is the array
    that was there with the flags that [SetDistributeFlag] has set on
    it. *)
Theorem runOnFunction_only_flags (AT : AliasTree) (F : Function)
  (C C' : APCContext Array) (b : bool)
  (H : runOnFunction'' AT F C = Ok (b, C')) :
  b = false /\ only_flagged' C C' /\
  forall a, is_Some (arrays Array C' !! a) <-> is_Some (arrays Array C !! a).
Proof.
  unfold runOnFunction in H.
  destruct (if IndirectCall F then _ else _) as [C1|] eqn:H1;
    [|discriminate]. simpl in H.
  destruct (on_instructions'' AT (instructions F) C1) as [C2|] eqn:H2;
    [|discriminate].
  simpl in H. injection H as <- <-. split; [reflexivity|].
  assert (Hof : only_flagged' C C2).
  { eapply only_flagged_trans; [|by eapply on_instructions_only_flagged].
    destruct (IndirectCall F);
      [|injection H1 as <-; apply only_flagged_refl].
    destruct (findFunction Array C (fn_id F));
      [by eapply disable_params_only_flagged
      |injection H1 as <-; apply only_flagged_refl]. }
  split; [exact Hof|]. intros a. destruct Hof as (_ & _ & Ha).
  specialize (Ha a).
  destruct (arrays Array C !! a), (arrays Array C2 !! a); done.
Qed.

End CheckerMore.

Section CheckerIdempotent.
Import Memory DistributionLimits Flags MoreSamples.

Variable Array : Type.
Variable SetDistributeFlag : distFlag -> Array -> Array.
Variable IsNotDistribute : Array -> bool.
Variable getRawDIMemoryIfExists : nat -> option nat.
(** A flagged array is not distributable. *)
Hypothesis Hflag :
  forall flag A, IsNotDistribute (SetDistributeFlag flag A) = true.

Local Abbreviation disable_ := (disable Array SetDistributeFlag).
Local Abbreviation on_store_ :=
  (on_store Array SetDistributeFlag IsNotDistribute getRawDIMemoryIfExists).
Local Abbreviation on_memory_ :=
  (on_memory Array SetDistributeFlag IsNotDistribute getRawDIMemoryIfExists).
Local Abbreviation for_each_memory_ :=
  (for_each_memory Array SetDistributeFlag IsNotDistribute
                   getRawDIMemoryIfExists).
Local Abbreviation on_instruction_ :=
  (on_instruction Array SetDistributeFlag IsNotDistribute
                  getRawDIMemoryIfExists).
Local Abbreviation on_instructions_ :=
  (on_instructions Array SetDistributeFlag IsNotDistribute
                   getRawDIMemoryIfExists).
Local Abbreviation runOnFunction_ :=
  (runOnFunction Array SetDistributeFlag IsNotDistribute
                 getRawDIMemoryIfExists).
Local Abbreviation grow := (flags_grow Array IsNotDistribute).

Lemma grow_refl (C : APCContext Array) : grow C C.
Proof.
  repeat split. intros a. by destruct (arrays Array C !! a).
Qed.

Lemma grow_trans (C1 C2 C3 : APCContext Array) :
  grow C1 C2 -> grow C2 C3 -> grow C1 C3.
Proof.
  intros (Ha1 & Hf1 & H1) (Ha2 & Hf2 & H2).
  split; [congruence|]. split; [congruence|]. intros a.
  specialize (H1 a). specialize (H2 a).
  destruct (arrays Array C1 !! a), (arrays Array C2 !! a),
    (arrays Array C3 !! a); by auto.
Qed.

Lemma grow_disable (flag : distFlag) (a : nat) (C : APCContext Array) :
  grow C (disable_ flag a C).
Proof.
  split; [reflexivity|]. split; [reflexivity|]. intros b. simpl.
  destruct (decide (a = b)) as [->|Hne].
  - rewrite lookup_alter_eq. destruct (arrays Array C !! b); simpl; [|done].
    intros _. apply Hflag.
  - rewrite lookup_alter_ne by done. by destruct (arrays Array C !! b).
Qed.

(** The array that a debug memory stands for, in a later context. *)
Lemma findArray_grow (C1 C2 : APCContext Array) (RawDIM : nat) :
  grow C1 C2 ->
  match findArray Array C1 RawDIM, findArray Array C2 RawDIM with
  | Some (a1, A1), Some (a2, A2) =>
      a1 = a2 /\ arrays Array C1 !! a1 = Some A1 /\
      (IsNotDistribute A1 = true -> IsNotDistribute A2 = true)
  | None, None => True
  | _, _ => False
  end.
Proof.
  intros (Ha & _ & H). unfold findArray. rewrite Ha.
  destruct (array_of Array C1 !! RawDIM) as [a|]; [|done].
  specialize (H a).
  destruct (arrays Array C1 !! a) as [A1|] eqn:H1,
    (arrays Array C2 !! a) as [A2|]; by auto.
Qed.

Lemma findArray_disabled (flag : distFlag) (C : APCContext Array)
  (RawDIM a : nat) (A : Array) :
  findArray Array C RawDIM = Some (a, A) ->
  arrays Array (disable_ flag a C) !! a = Some (SetDistributeFlag flag A).
Proof.
  unfold findArray. destruct (array_of Array C !! RawDIM) as [a'|];
    [|discriminate].
  destruct (arrays Array C !! a') as [A'|] eqn:HA; [|discriminate].
  intros [= -> ->]. simpl. by rewrite lookup_alter_eq, HA.
Qed.

(** In a context where the array that a step looked at is excluded, the
    step changes nothing. *)
Lemma excluded_after (C1 C1' C2 : APCContext Array) (RawDIM a : nat)
  (A : Array) :
  findArray Array C1 RawDIM = Some (a, A) ->
  (exists A', arrays Array C1' !! a = Some A' /\ IsNotDistribute A' = true) ->
  grow C1' C2 -> array_of Array C1' = array_of Array C1 ->
  exists A2, findArray Array C2 RawDIM = Some (a, A2) /\
             IsNotDistribute A2 = true.
Proof.
  intros Hf (A' & HA' & Hex) (Ha & _ & H) Hao. unfold findArray in *.
  rewrite Ha, Hao. destruct (array_of Array C1 !! RawDIM) as [a'|];
    [|discriminate].
  destruct (arrays Array C1 !! a') as [A0|]; [|discriminate].
  injection Hf as -> ->. specialize (H a). rewrite HA' in H.
  destruct (arrays Array C2 !! a) as [A2|]; [|done]. exists A2. by auto.
Qed.

Lemma on_store_stable (AT : AliasTree) (Op : nat)
  (C1 C1' C2 : APCContext Array) :
  on_store_ AT Op C1 = Ok C1' -> grow C1' C2 -> on_store_ AT Op C2 = Ok C2.
Proof.
  unfold on_store. destruct (find AT _); [|discriminate].
  destruct (getRawDIMemoryIfExists _) as [RawDIM|]; [|done].
  destruct (findArray Array C1 RawDIM) as [[a A]|] eqn:Hf.
  - destruct (IsNotDistribute A) eqn:HA; intros [= <-] Hg.
    + destruct (excluded_after C1 C1 C2 RawDIM a A Hf) as (A2 & -> & ->);
        [|done..].
      exists A. split; [|done]. unfold findArray in Hf.
      destruct (array_of Array C1 !! RawDIM); [|done].
      destruct (arrays Array C1 !! n) eqn:E; by simplify_eq.
    + destruct (excluded_after C1 (disable_ SPF_PRIV a C1) C2 RawDIM a A Hf)
        as (A2 & -> & ->); [|done..].
      eexists. split; [by eapply findArray_disabled|apply Hflag].
  - intros [= <-] Hg. pose proof (findArray_grow C1 C2 RawDIM Hg) as H.
    rewrite Hf in H. by destruct (findArray Array C2 RawDIM).
Qed.

Lemma on_memory_stable (AT : AliasTree) (k : InstKind) (Loc : MemoryLocation)
  (OpIdx : nat) (C1 C1' C2 : APCContext Array) :
  on_memory_ AT k Loc OpIdx C1 = Ok C1' -> grow C1' C2 ->
  on_memory_ AT k Loc OpIdx C2 = Ok C2.
Proof.
  unfold on_memory. destruct (find AT _) as [EM|]; [|discriminate].
  destruct (getRawDIMemoryIfExists _) as [RawDIM|]; [|done].
  destruct (findArray Array C1 RawDIM) as [[a A]|] eqn:Hf.
  2: { intros [= <-] Hg. pose proof (findArray_grow C1 C2 RawDIM Hg) as H.
       rewrite Hf in H. by destruct (findArray Array C2 RawDIM). }
  assert (Hkept : forall C2, grow C1 C2 ->
            IsNotDistribute A = true ->
            exists A2, findArray Array C2 RawDIM = Some (a, A2) /\
                       IsNotDistribute A2 = true).
  { intros C Hg HA. apply (excluded_after C1 C1 C RawDIM a A Hf); [|done..].
    exists A. split; [|done]. unfold findArray in Hf.
    destruct (array_of Array C1 !! RawDIM); [|done].
    destruct (arrays Array C1 !! n) eqn:E; by simplify_eq. }
  assert (Hdis : forall flag C2, grow (disable_ flag a C1) C2 ->
            exists A2, findArray Array C2 RawDIM = Some (a, A2) /\
                       IsNotDistribute A2 = true).
  { intros flag C Hg.
    apply (excluded_after C1 (disable_ flag a C1) C RawDIM a A Hf); [|done..].
    eexists. split; [by eapply findArray_disabled|apply Hflag]. }
  assert (Hsame : forall C2, grow C1 C2 ->
            exists A2, findArray Array C2 RawDIM = Some (a, A2) /\
                       functions Array C2 = functions Array C1).
  { intros C Hg. pose proof (findArray_grow C1 C RawDIM Hg) as H.
    rewrite Hf in H. destruct (findArray Array C RawDIM) as [[a2 A2]|];
      [|done].
    destruct H as (-> & _). exists A2. split; [done|].
    by destruct Hg as (_ & ? & _). }
  destruct (IsNotDistribute A) eqn:HA.
  { intros [= <-] Hg. by destruct (Hkept C2 Hg eq_refl) as (A2 & -> & ->). }
  destruct k as [[]|callee|].
  - intros [= <-] Hg. destruct (Hsame C2 Hg) as (A2 & -> & _).
    by destruct (IsNotDistribute A2).
  - intros [= <-] Hg. by destruct (Hdis _ C2 Hg) as (A2 & -> & ->).
  - destruct (decide (em_id EM ≠ TopLevelParent EM)).
    { intros [= <-] Hg. by destruct (Hdis _ C2 Hg) as (A2 & -> & ->). }
    destruct callee as [c|].
    2: { intros [= <-] Hg. by destruct (Hdis _ C2 Hg) as (A2 & -> & ->). }
    destruct (isDeclaration c || LibFunc c).
    { intros [= <-] Hg. by destruct (Hdis _ C2 Hg) as (A2 & -> & ->). }
    unfold findFunction.
    destruct (functions Array C1 !! callee_id c) as [Fn|] eqn:HFn.
    2: { intros [= <-] Hg. by destruct (Hdis _ C2 Hg) as (A2 & -> & ->). }
    destruct (funcParams Fn !! OpIdx) as [p|] eqn:Hp.
    2: { intros [= <-] Hg. by destruct (Hdis _ C2 Hg) as (A2 & -> & ->). }
    destruct (decide (parameterT p ≠ ARRAY_T)) as [|Hd] eqn:Hdec.
    { intros [= <-] Hg. by destruct (Hdis _ C2 Hg) as (A2 & -> & ->). }
    intros [= <-] Hg. destruct (Hsame C2 Hg) as (A2 & -> & ->).
    rewrite HFn, Hp, Hdec. by destruct (IsNotDistribute A2).
  - intros [= <-] Hg. by destruct (Hdis _ C2 Hg) as (A2 & -> & ->).
Qed.

End CheckerIdempotent.

Section CheckerIdempotentRun.
Import Memory DistributionLimits Flags MoreSamples.

Variable Array : Type.
Variable SetDistributeFlag : distFlag -> Array -> Array.
Variable IsNotDistribute : Array -> bool.
Variable getRawDIMemoryIfExists : nat -> option nat.
Hypothesis Hflag :
  forall flag A, IsNotDistribute (SetDistributeFlag flag A) = true.

Local Abbreviation disable_ := (disable Array SetDistributeFlag).
Local Abbreviation on_store_ :=
  (on_store Array SetDistributeFlag IsNotDistribute getRawDIMemoryIfExists).
Local Abbreviation on_memory_ :=
  (on_memory Array SetDistributeFlag IsNotDistribute getRawDIMemoryIfExists).
Local Abbreviation for_each_memory_ :=
  (for_each_memory Array SetDistributeFlag IsNotDistribute
                   getRawDIMemoryIfExists).
Local Abbreviation on_instruction_ :=
  (on_instruction Array SetDistributeFlag IsNotDistribute
                  getRawDIMemoryIfExists).
Local Abbreviation on_instructions_ :=
  (on_instructions Array SetDistributeFlag IsNotDistribute
                   getRawDIMemoryIfExists).
Local Abbreviation runOnFunction_ :=
  (runOnFunction Array SetDistributeFlag IsNotDistribute
                 getRawDIMemoryIfExists).
Local Abbreviation grow := (flags_grow Array IsNotDistribute).

Lemma on_store_step (AT : AliasTree) (Op : nat) (C C' : APCContext Array) :
  on_store_ AT Op C = Ok C' -> C' = C \/ exists flag a, C' = disable_ flag a C.
Proof.
  unfold on_store. destruct (find AT _); [|discriminate].
  destruct (getRawDIMemoryIfExists _); [|intros [= <-]; by left].
  destruct (findArray _ _ _) as [[a A]|]; [|intros [= <-]; by left].
  destruct (IsNotDistribute A); intros [= <-]; [by left|right; by eauto].
Qed.

Lemma on_memory_step (AT : AliasTree) (k : InstKind) (Loc : MemoryLocation)
  (OpIdx : nat) (C C' : APCContext Array) :
  on_memory_ AT k Loc OpIdx C = Ok C' ->
  C' = C \/ exists flag a, C' = disable_ flag a C.
Proof.
  intros H. unfold on_memory in H.
  repeat match type of H with
         | Ok _ = Ok _ => injection H as <-
         | AssertionFailure _ = Ok _ => discriminate H
         | context [match ?x with _ => _ end] => destruct x
         end; by eauto.
Qed.

Lemma step_grow (C C' : APCContext Array) :
  C' = C \/ (exists flag a, C' = disable_ flag a C) -> grow C C'.
Proof.
  intros [->|(flag & a & ->)];
    [apply grow_refl|by apply grow_disable].
Qed.

(** A walk over instructions only lets flags grow, and from any context
    in which the flags have grown at least as far it goes through without
    a change. *)
Lemma for_each_memory_settles (AT : AliasTree) (k : InstKind)
  (accs : list (MemoryLocation * nat)) :
  forall C C', for_each_memory_ AT k accs C = Ok C' ->
    grow C C' /\
    forall C2, grow C' C2 -> for_each_memory_ AT k accs C2 = Ok C2.
Proof.
  induction accs as [|[Loc OpIdx] accs IH]; intros C C'; simpl.
  - intros [= <-]. split; [apply grow_refl|done].
  - destruct (on_memory_ AT k Loc OpIdx C) as [C1|] eqn:H1; [|discriminate].
    simpl. intros H2. destruct (IH _ _ H2) as [Hg Hst].
    pose proof (step_grow _ _ (on_memory_step _ _ _ _ _ _ H1)) as Hg1.
    split; [by eapply grow_trans|]. intros C2 Hg2.
    rewrite (on_memory_stable Array SetDistributeFlag IsNotDistribute
               getRawDIMemoryIfExists Hflag AT k Loc OpIdx C C1 C2 H1)
      by (by eapply grow_trans).
    simpl. by apply Hst.
Qed.

Lemma on_instructions_settles (AT : AliasTree) (Is : list Instruction) :
  forall C C', on_instructions_ AT Is C = Ok C' ->
    grow C C' /\
    forall C2, grow C' C2 -> on_instructions_ AT Is C2 = Ok C2.
Proof.
  induction Is as [|Inst Is IH]; intros C C'; simpl.
  - intros [= <-]. split; [apply grow_refl|done].
  - destruct (on_instruction_ AT Inst C) as [C1|] eqn:H1; [|discriminate].
    simpl. intros H2. destruct (IH _ _ H2) as [Hg Hst].
    assert (Hone : grow C C1 /\
              forall C2, grow C1 C2 -> on_instruction_ AT Inst C2 = Ok C2).
    { destruct Inst as [|Op [|]|k accs]; simpl in *.
      - injection H1 as <-. split; [apply grow_refl|done].
      - split; [by eapply step_grow, on_store_step|].
        intros C2 Hg2.
        by eapply (on_store_stable Array SetDistributeFlag IsNotDistribute
                     getRawDIMemoryIfExists Hflag).
      - injection H1 as <-. split; [apply grow_refl|done].
      - by apply for_each_memory_settles. }
    destruct Hone as [Hg1 Hst1].
    split; [by eapply grow_trans|]. intros C2 Hg2.
    rewrite Hst1 by (by eapply grow_trans). simpl. by apply Hst.
Qed.

(** X13. The checker is idempotent on a function that is not called
    indirectly, as soon as a flagged array counts as not distributable:
    running it again on the context it produced changes nothing more. The
    same holds for any later context in which no excluded array has become
    distributable again. *)
Theorem runOnFunction_idempotent (AT : AliasTree) (F : Function)
  (C C' : APCContext Array)
  (Hdirect : IndirectCall F = false)
  (H : runOnFunction_ AT F C = Ok (false, C')) :
  runOnFunction_ AT F C' = Ok (false, C') /\
  grow C C' /\
  forall C2, grow C' C2 -> runOnFunction_ AT F C2 = Ok (false, C2).
Proof.
  unfold runOnFunction in *. rewrite Hdirect in *. simpl in *.
  destruct (on_instructions_ AT (instructions F) C) as [C1|] eqn:H1;
    [|discriminate].
  simpl in H. injection H as <-.
  destruct (on_instructions_settles _ _ _ _ H1) as [Hg Hst].
  split; [by rewrite (Hst C1 (grow_refl Array IsNotDistribute C1))|].
  split; [exact Hg|]. intros C2 Hg2. by rewrite (Hst C2 Hg2).
Qed.

End CheckerIdempotentRun.

(* --------------------------------------------------------------------- *)
(** ** The checker over a module                                          *)
(* --------------------------------------------------------------------- *)

Section IPOFacts.
Import Memory DistributionLimits DistributionLimitsIPO Flags MoreSamples.

Variable Array : Type.
Variable SetDistributeFlag : distFlag -> Array -> Array.

Local Abbreviation disable_ := (disable Array SetDistributeFlag).
Local Abbreviation check_params_ := (check_params Array SetDistributeFlag).
Local Abbreviation check_calls_ := (check_calls Array SetDistributeFlag).
Local Abbreviation runOnFunctions_ :=
  (runOnFunctions Array SetDistributeFlag).
Local Abbreviation runOnModule_ := (runOnModule Array SetDistributeFlag).

Lemma check_params_passed (formals actuals : list FuncParam) :
  forall (I : nat) (Ctx : APCContext Array),
    (forall J p, formals !! J = Some p -> parameterT p = ARRAY_T ->
                 exists q, actuals !! (I + J) = Some q /\
                           parameterT q = ARRAY_T) ->
    check_params_ formals actuals I Ctx = Done Ctx.
Proof.
  induction formals as [|p formals IH]; intros I Ctx Hpass; simpl;
    [reflexivity|].
  assert (Hrest : check_params_ formals actuals (S I) Ctx = Done Ctx).
  { apply IH. intros J q HJ Hq. destruct (Hpass (S J) q HJ Hq) as (r & Hr & ?).
    exists r. split; [|done]. by replace (S I + J) with (I + S J) by lia. }
  case_bool_decide as Hp; simpl; [|exact Hrest].
  destruct (Hpass 0 p eq_refl Hp) as (q & Hq & Hqa).
  rewrite Nat.add_0_r in Hq. unfold no_array_at. rewrite Hq.
  by rewrite (bool_decide_eq_true_2 _ Hqa).
Qed.

(** X14. When every call made from a registered function of the module
    has its call statement, calls a registered function and passes an
    array wherever that function expects one, [runOnModule] changes
    nothing: it returns [false] and the context it was given. *)
Theorem runOnModule_consistent_calls (Calls : CallMap) (M : list nat)
  (Ctx : APCContext Array)
  (Hcalls : forall F calls c,
      F ∈ M -> is_Some (findFunction Array Ctx F) ->
      Calls !! F = Some calls -> c ∈ calls ->
      exists Callee APCCallee,
        parentForPointer c = Some Callee /\
        findFunction Array Ctx Callee = Some APCCallee /\
        arrays_passed (funcParams APCCallee) (Actuals c)) :
  runOnModule_ Calls M Ctx = Done (false, Ctx).
Proof.
  unfold runOnModule.
  assert (Hfun : runOnFunctions_ Calls M Ctx = Done Ctx); [|by rewrite Hfun].
  induction M as [|F M IH]; simpl; [reflexivity|].
  assert (HM : runOnFunctions_ Calls M Ctx = Done Ctx).
  { apply IH. intros F' calls c HF'. apply Hcalls. apply elem_of_cons.
    by right. }
  destruct (findFunction Array Ctx F) as [Func|] eqn:HF; [|exact HM].
  assert (Hc : forall calls,
            (forall c, c ∈ calls ->
               exists Callee APCCallee,
                 parentForPointer c = Some Callee /\
                 findFunction Array Ctx Callee = Some APCCallee /\
                 arrays_passed (funcParams APCCallee) (Actuals c)) ->
            check_calls_ calls Ctx = Done Ctx).
  { induction calls as [|c calls IHc]; intros Hall; simpl; [reflexivity|].
    destruct (Hall c (list_elem_of_here _ _)) as (Callee & APC & -> & -> & Hp).
    rewrite check_params_passed by (intros J p; apply Hp). simpl.
    apply IHc. intros c' Hc'. apply Hall. apply elem_of_cons. by right. }
  rewrite Hc; [exact HM|].
  destruct (Calls !! F) as [calls|] eqn:HC; simpl.
  - intros c Hin. apply (Hcalls F calls c); [apply list_elem_of_here| |done..].
    by rewrite HF.
  - intros c Hin. by apply elem_of_nil in Hin.
Qed.

Lemma check_params_only_flagged (formals actuals : list FuncParam) :
  forall (I : nat) (C C' : APCContext Array),
    check_params_ formals actuals I C = Done C' ->
    only_flagged Array SetDistributeFlag C C'.
Proof.
  induction formals as [|p formals IH]; intros I C C'; simpl.
  - intros [= <-]. apply only_flagged_refl.
  - destruct (bool_decide _ && no_array_at _ _); [|apply IH].
    destruct (parameter p) as [a|]; [|discriminate].
    intros H. eapply only_flagged_trans;
      [apply only_flagged_disable|by eapply IH].
Qed.

Lemma check_calls_only_flagged (calls : list CallFrom) :
  forall (C C' : APCContext Array),
    check_calls_ calls C = Done C' ->
    only_flagged Array SetDistributeFlag C C'.
Proof.
  induction calls as [|c calls IH]; intros C C'; simpl.
  - intros [= <-]. apply only_flagged_refl.
  - destruct (parentForPointer c); [|discriminate].
    destruct (findFunction _ _ _) as [APC|]; [|discriminate].
    destruct (check_params_ (funcParams APC) (Actuals c) 0 C) as [C1| |]
      eqn:H1; [|discriminate..].
    simpl. intros H2. eapply only_flagged_trans;
      [by eapply check_params_only_flagged|by apply IH].
Qed.

(** X15. A run of [runOnModule] that completes reports no change of the
    IR and touches nothing but distribution flags: functions and the
    arrays of debug memories are as before, and every array is the array
    that was there with the flags that [SetDistributeFlag] has set on
    it. *)
Theorem runOnModule_only_flags (Calls : CallMap) (M : list nat)
  (C C' : APCContext Array) (b : bool)
  (H : runOnModule_ Calls M C = Done (b, C')) :
  b = false /\ only_flagged Array SetDistributeFlag C C'.
Proof.
  unfold runOnModule in H.
  destruct (runOnFunctions_ Calls M C) as [C1| |] eqn:H1; [|discriminate..].
  simpl in H. injection H as <- <-. split; [reflexivity|].
  revert C H1. induction M as [|F M IH]; intros C; simpl.
  - intros [= <-]. apply only_flagged_refl.
  - destruct (findFunction Array C F); [|apply IH].
    destruct (check_calls_ _ C) as [C2| |] eqn:H2; [|discriminate..].
    simpl. intros H3. eapply only_flagged_trans;
      [by eapply check_calls_only_flagged|by apply IH].
Qed.

End IPOFacts.

Section IPOMismatch.
Import Memory DistributionLimits DistributionLimitsIPO Flags MoreSamples.

Variable Array : Type.
Variable SetDistributeFlag : distFlag -> Array -> Array.

Local Abbreviation disable_ := (disable Array SetDistributeFlag).
Local Abbreviation check_params_ := (check_params Array SetDistributeFlag).
Local Abbreviation check_calls_ := (check_calls Array SetDistributeFlag).
Local Abbreviation runOnFunctions_ :=
  (runOnFunctions Array SetDistributeFlag).
Local Abbreviation runOnModule_ := (runOnModule Array SetDistributeFlag).
Local Abbreviation excluded_ := (excluded SetDistributeFlag).

Local Abbreviation keeps := (keeps_array SetDistributeFlag).

Lemma keeps_refl (a : nat) (C : APCContext Array) : keeps a C C.
Proof. by repeat split. Qed.

Lemma keeps_trans (a : nat) (C1 C2 C3 : APCContext Array) :
  keeps a C1 C2 -> keeps a C2 C3 -> keeps a C1 C3.
Proof.
  intros (Hf1 & Hs1 & He1) (Hf2 & Hs2 & He2).
  split; [congruence|]. split; by auto.
Qed.

Lemma keeps_disable (a b : nat) (C : APCContext Array) :
  keeps a C (disable_ SPF_PRIV b C).
Proof.
  split; [reflexivity|]. simpl. destruct (decide (b = a)) as [->|Hne].
  - split.
    + intros [A HA]. rewrite lookup_alter_eq, HA. by eexists.
    + intros [A HA]. unfold excluded. simpl. rewrite lookup_alter_eq, HA.
      by eexists.
  - unfold excluded. simpl. by rewrite lookup_alter_ne.
Qed.

Lemma disable_excludes (a : nat) (C : APCContext Array) :
  is_Some (arrays Array C !! a) -> excluded_ a (disable_ SPF_PRIV a C).
Proof.
  intros [A HA]. exists A. simpl. by rewrite lookup_alter_eq, HA.
Qed.

Lemma check_params_keeps (a : nat) (formals actuals : list FuncParam) :
  forall (I : nat) (C C' : APCContext Array),
    check_params_ formals actuals I C = Done C' -> keeps a C C'.
Proof.
  induction formals as [|p formals IH]; intros I C C'; simpl.
  - intros [= <-]. apply keeps_refl.
  - destruct (bool_decide _ && no_array_at _ _); [|apply IH].
    destruct (parameter p) as [b|]; [|discriminate].
    intros H. eapply keeps_trans; [apply keeps_disable|by eapply IH].
Qed.

Lemma check_params_excludes (a : nat) (formals actuals : list FuncParam) :
  forall (I J : nat) (p : FuncParam) (C C' : APCContext Array),
    check_params_ formals actuals I C = Done C' ->
    formals !! J = Some p -> parameterT p = ARRAY_T ->
    no_array_at actuals (I + J) = true -> parameter p = Some a ->
    is_Some (arrays Array C !! a) -> excluded_ a C'.
Proof.
  induction formals as [|q formals IH]; intros I J p C C' H HJ Hp Hno Ha Hs;
    [done|].
  simpl in H. destruct J as [|J]; simpl in HJ.
  - injection HJ as ->. rewrite Nat.add_0_r in Hno.
    rewrite (bool_decide_eq_true_2 _ Hp), Hno, Ha in H. simpl in H.
    apply (check_params_keeps a) in H as (_ & _ & He).
    by apply He, disable_excludes.
  - replace (I + S J) with (S I + J) in Hno by lia.
    destruct (bool_decide _ && no_array_at _ _).
    + destruct (parameter q) as [b|]; [|discriminate].
      apply (IH (S I) J p _ _ H HJ Hp Hno Ha).
      by apply (keeps_disable a b C).
    + by apply (IH (S I) J p _ _ H HJ Hp Hno Ha).
Qed.

Lemma check_calls_keeps (a : nat) (calls : list CallFrom) :
  forall (C C' : APCContext Array),
    check_calls_ calls C = Done C' -> keeps a C C'.
Proof.
  induction calls as [|c calls IH]; intros C C'; simpl.
  - intros [= <-]. apply keeps_refl.
  - destruct (parentForPointer c); [|discriminate].
    destruct (findFunction _ _ _) as [APC|]; [|discriminate].
    destruct (check_params_ (funcParams APC) (Actuals c) 0 C) as [C1| |]
      eqn:H1; [|discriminate..].
    simpl. intros H2. eapply keeps_trans;
      [by eapply check_params_keeps|by apply IH].
Qed.

Lemma check_calls_excludes (a : nat) (calls : list CallFrom) :
  forall (C C' : APCContext Array) (c : CallFrom) (Callee I : nat)
         (APCCallee : FuncInfo) (p : FuncParam),
    check_calls_ calls C = Done C' -> c ∈ calls ->
    parentForPointer c = Some Callee ->
    findFunction Array C Callee = Some APCCallee ->
    funcParams APCCallee !! I = Some p -> parameterT p = ARRAY_T ->
    no_array_at (Actuals c) I = true -> parameter p = Some a ->
    is_Some (arrays Array C !! a) -> excluded_ a C'.
Proof.
  induction calls as [|c0 calls IH];
    intros C C' c Callee I APC p H Hin Hpar Hfun HI Hp Hno Ha Hs;
    [by apply elem_of_nil in Hin|].
  simpl in H.
  destruct (parentForPointer c0) as [Callee0|] eqn:Hpar0; [|discriminate].
  destruct (findFunction Array C Callee0) as [APC0|] eqn:Hfun0;
    [|discriminate].
  destruct (check_params_ (funcParams APC0) (Actuals c0) 0 C) as [C1| |]
    eqn:H1; [|discriminate..].
  simpl in H. apply elem_of_cons in Hin as [->|Hin].
  - rewrite Hpar in Hpar0. injection Hpar0 as <-.
    rewrite Hfun in Hfun0. injection Hfun0 as <-.
    apply (check_calls_keeps a) in H as (_ & _ & He). apply He.
    by apply (check_params_excludes a _ _ 0 I p C C1 H1).
  - pose proof (check_params_keeps a _ _ _ _ _ H1) as (Hf & Hs1 & _).
    apply (IH C1 C' c Callee I APC p H Hin Hpar); [|done..|by apply Hs1].
    unfold findFunction in *. by rewrite Hf.
Qed.

(** X16. Where a call made from a registered function fails to pass an
    array for a formal parameter of the callee that is an array, a run of
    [runOnModule] that completes has given that array the flag
    [SPF_PRIV]. *)
Theorem runOnModule_flags_mismatch (Calls : CallMap) (M : list nat)
  (C C' : APCContext Array) (b : bool) (F Callee I a : nat)
  (calls : list CallFrom) (c : CallFrom) (APCCallee : FuncInfo)
  (p : FuncParam)
  (H : runOnModule_ Calls M C = Done (b, C'))
  (HF : F ∈ M) (Hreg : is_Some (findFunction Array C F))
  (Hcalls : Calls !! F = Some calls) (Hc : c ∈ calls)
  (Hpar : parentForPointer c = Some Callee)
  (Hfun : findFunction Array C Callee = Some APCCallee)
  (HI : funcParams APCCallee !! I = Some p)
  (Hp : parameterT p = ARRAY_T)
  (Hno : no_array_at (Actuals c) I = true)
  (Ha : parameter p = Some a)
  (Hs : is_Some (arrays Array C !! a)) :
  excluded_ a C'.
Proof.
  unfold runOnModule in H.
  destruct (runOnFunctions_ Calls M C) as [C1| |] eqn:H1; [|discriminate..].
  simpl in H. injection H as _ <-.
  assert (Hkeep : forall M C C1,
            runOnFunctions_ Calls M C = Done C1 -> keeps a C C1).
  { clear. induction M as [|F M IH]; intros C C1; simpl.
    - intros [= <-]. apply keeps_refl.
    - destruct (findFunction Array C F); [|apply IH].
      destruct (check_calls_ _ C) as [C2| |] eqn:H2; [|discriminate..].
      simpl. intros H3. eapply keeps_trans;
        [by eapply check_calls_keeps|by apply IH]. }
  revert C H1 Hreg Hfun Hs. induction M as [|F0 M IH];
    intros C H1 Hreg Hfun Hs; [by apply elem_of_nil in HF|].
  simpl in H1. apply elem_of_cons in HF as [<-|HF].
  - destruct Hreg as [Func HFunc]. rewrite HFunc, Hcalls in H1. simpl in H1.
    destruct (check_calls_ calls C) as [C2| |] eqn:H2; [|discriminate..].
    simpl in H1. apply Hkeep in H1 as (_ & _ & He). apply He.
    by apply (check_calls_excludes a calls C C2 c Callee I APCCallee p).
  - destruct (findFunction Array C F0) as [Func0|] eqn:HF0.
    + destruct (check_calls_ _ C) as [C2| |] eqn:H2; [|discriminate..].
      simpl in H1.
      pose proof (check_calls_keeps a _ _ _ H2) as (Hf & Hs2 & _).
      apply (IH HF C2 H1); unfold findFunction in *;
        [by rewrite Hf|by rewrite Hf|by apply Hs2].
    + by apply (IH HF C H1).
Qed.

End IPOMismatch.

Section CheckerWitnesses.
Import Memory DistributionLimits DistributionLimitsIPO Flags MoreSamples.

Example store_of_pointer_excludes :
  runOnFunction bool set_bit bit_is_set Some tree_with_pointer
                store_of_pointer one_array
  = Ok (false, disable bool set_bit SPF_PRIV 5 one_array).
Proof. vm_compute. reflexivity. Qed.

Lemma runOnFunction_only_flags_witness :
  only_flagged bool set_bit one_array
               (disable bool set_bit SPF_PRIV 5 one_array).
Proof.
  apply (runOnFunction_only_flags bool set_bit bit_is_set Some
           tree_with_pointer store_of_pointer one_array
           (disable bool set_bit SPF_PRIV 5 one_array) false).
  vm_compute. reflexivity.
Defined.

Lemma runOnFunction_idempotent_witness :
  runOnFunction bool set_bit bit_is_set Some tree_with_pointer
                store_of_pointer (disable bool set_bit SPF_PRIV 5 one_array)
  = Ok (false, disable bool set_bit SPF_PRIV 5 one_array).
Proof.
  assert (H : runOnFunction bool set_bit bit_is_set Some tree_with_pointer
                store_of_pointer one_array
              = Ok (false, disable bool set_bit SPF_PRIV 5 one_array)).
  { vm_compute. reflexivity. }
  exact (proj1 (runOnFunction_idempotent bool set_bit bit_is_set Some
                  (fun _ _ => eq_refl) tree_with_pointer store_of_pointer
                  one_array (disable bool set_bit SPF_PRIV 5 one_array)
                  eq_refl H)).
Defined.

Lemma runOnModule_consistent_calls_witness :
  runOnModule bool set_bit call_with_array [0; 1] two_functions
  = Done (false, two_functions).
Proof.
  apply (runOnModule_consistent_calls bool set_bit call_with_array [0; 1]
           two_functions).
  intros F calls c HF _ HC Hc.
  apply elem_of_cons in HF as [->|HF];
    [|apply list_elem_of_singleton in HF; subst F; vm_compute in HC;
      discriminate HC].
  vm_compute in HC. injection HC as <-.
  apply list_elem_of_singleton in Hc. subst c.
  exists 1, (mkFuncInfo [mkParam ARRAY_T (Some 5)]).
  split; [reflexivity|]. split; [vm_compute; reflexivity|].
  intros I p HI Hp. destruct I as [|I]; [|discriminate HI].
  injection HI as <-. by eexists.
Defined.

Lemma runOnModule_only_flags_witness :
  only_flagged bool set_bit two_functions
               (disable bool set_bit SPF_PRIV 5 two_functions).
Proof.
  apply (runOnModule_only_flags bool set_bit call_with_scalar [0; 1]
           two_functions (disable bool set_bit SPF_PRIV 5 two_functions)
           false).
  vm_compute. reflexivity.
Defined.

Lemma runOnModule_flags_mismatch_witness :
  excluded set_bit 5 (disable bool set_bit SPF_PRIV 5 two_functions).
Proof.
  apply (runOnModule_flags_mismatch bool set_bit call_with_scalar [0; 1]
           two_functions (disable bool set_bit SPF_PRIV 5 two_functions)
           false 0 1 0 5 [scalar_call] scalar_call
           (mkFuncInfo [mkParam ARRAY_T (Some 5)])
           (mkParam ARRAY_T (Some 5))).
  - vm_compute. reflexivity.
  - apply list_elem_of_here.
  - vm_compute. by eexists.
  - vm_compute. reflexivity.
  - apply list_elem_of_here.
  - reflexivity.
  - vm_compute. reflexivity.
  - reflexivity.
  - reflexivity.
  - reflexivity.
  - reflexivity.
  - vm_compute. by eexists.
Defined.

End CheckerWitnesses.

(* --------------------------------------------------------------------- *)
(** ** Free names for the initialisation functions                        *)
(* --------------------------------------------------------------------- *)

Section SuffixFacts.
Import Suffix.

Lemma suffixed_inj (Name : string) (a b : N) :
  suffixed Name a = suffixed Name b -> a = b.
Proof.
  unfold suffixed. intros H. apply (String.app_inj Name) in H.
  by apply pretty_N_inj.
Qed.

Lemma incr_below (m : N) :
  (m < UINT_MAX)%N -> incr m = (m + 1)%N.
Proof.
  unfold incr, UINT_MAX. intros H. apply N.mod_small. lia.
Qed.

Lemma incr_max : incr UINT_MAX = 0%N.
Proof. reflexivity. Qed.

Lemma loop_ext (fuel : nat) : forall (M M' : Module) (k : N) (Name : string),
  (k < UINT_MAX)%N ->
  (forall v, (k <= v < UINT_MAX)%N ->
     suffixed Name v ∈ named_values M <-> suffixed Name v ∈ named_values M') ->
  findAvailableSuffix_loop fuel M k Name
  = findAvailableSuffix_loop fuel M' k Name.
Proof.
  induction fuel as [|fuel IH]; intros M M' k Name Hk Hsame; [reflexivity|].
  simpl. pose proof (Hsame k ltac:(lia)) as Hk'.
  rewrite (incr_below k Hk).
  destruct (decide (suffixed Name k ∈ named_values M)) as [Hin|Hout];
    destruct (decide (suffixed Name k ∈ named_values M')) as [Hin'|Hout'];
    try tauto.
  destruct (decide ((k + 1)%N = UINT_MAX)) as [|Hne]; [reflexivity|].
  apply IH; [lia|]. intros v Hv. apply Hsame. lia.
Qed.

Lemma loop_ends (fuel : nat) : forall (M : Module) (m : N) (Name : string),
  size (named_values M) < fuel ->
  findAvailableSuffix_loop fuel M m Name <> None.
Proof.
  induction fuel as [|fuel IH]; intros M m Name Hsize; [lia|].
  simpl.
  destruct (decide (suffixed Name m ∈ named_values M)) as [Hin|Hout];
    [|discriminate].
  destruct (decide (incr m = UINT_MAX)) as [|Hne]; [discriminate|].
  assert (Hlt : (incr m < UINT_MAX)%N).
  { assert (incr m < 4294967296)%N by (apply N.mod_lt; lia).
    unfold UINT_MAX in *. lia. }
  set (M' := mkModule (module_id M) (named_values M ∖ {[ suffixed Name m ]})).
  rewrite (loop_ext fuel M M' (incr m) Name Hlt).
  - apply IH. simpl.
    assert (size (named_values M) =
            size ({[ suffixed Name m ]} : gset string) +
            size (named_values M ∖ {[ suffixed Name m ]})) as Hs.
    { rewrite <- size_union
        by (apply elem_of_disjoint; intros y Hy1 Hy2;
            apply elem_of_difference in Hy2 as [_ Hy2]; done). f_equal.
      apply set_eq. intros x. rewrite elem_of_union, elem_of_difference,
        elem_of_singleton.
      destruct (decide (x = suffixed Name m)) as [->|]; tauto. }
    rewrite size_singleton in Hs. lia.
  - intros v Hv. simpl. rewrite elem_of_difference, elem_of_singleton.
    assert (v <> m).
    { destruct (decide (m < UINT_MAX)%N) as [Hm|Hm].
      - rewrite (incr_below m Hm) in Hv. lia.
      - lia. }
    split; [|tauto]. intros Hv'. split; [exact Hv'|].
    intros Heq. by apply suffixed_inj in Heq.
Qed.

(** The loop searches upwards: what it returns is free, is not below the
    start, and everything between the start and it is taken. *)
Lemma loop_found (fuel : nat) : forall (M : Module) (m s : N) (Name : string),
  (m < UINT_MAX)%N ->
  findAvailableSuffix_loop fuel M m Name = Some (Some s) ->
  (m <= s < UINT_MAX)%N /\
  (suffixed Name s ∉ named_values M) /\
  forall v, (m <= v < s)%N -> suffixed Name v ∈ named_values M.
Proof.
  induction fuel as [|fuel IH]; intros M m s Name Hm Hrun; [discriminate|].
  simpl in Hrun. rewrite (incr_below m Hm) in Hrun.
  destruct (decide (suffixed Name m ∈ named_values M)) as [Hin|Hout].
  - destruct (decide ((m + 1)%N = UINT_MAX)) as [|Hne]; [discriminate|].
    apply IH in Hrun as (Hle & Hfree & Htaken); [|lia].
    split; [lia|]. split; [exact Hfree|].
    intros v Hv. destruct (decide (v = m)) as [->|]; [exact Hin|].
    apply Htaken. lia.
  - injection Hrun as <-. split; [lia|]. split; [exact Hout|]. intros v Hv. lia.
Qed.

Lemma loop_gave_up (fuel : nat) : forall (M : Module) (m : N) (Name : string),
  (m < UINT_MAX)%N ->
  findAvailableSuffix_loop fuel M m Name = Some None ->
  forall v, (m <= v < UINT_MAX)%N -> suffixed Name v ∈ named_values M.
Proof.
  induction fuel as [|fuel IH]; intros M m Name Hm Hrun; [discriminate|].
  simpl in Hrun. rewrite (incr_below m Hm) in Hrun.
  destruct (decide (suffixed Name m ∈ named_values M)) as [Hin|Hout];
    [|discriminate].
  destruct (decide ((m + 1)%N = UINT_MAX)) as [Heq|Hne].
  - intros v Hv. replace v with m by lia. exact Hin.
  - intros v Hv. destruct (decide (v = m)) as [->|]; [exact Hin|].
    apply (IH M (m + 1)%N Name); [lia|exact Hrun|lia].
Qed.


(** X17. The search for a free suffix in one module ends, and it searches
    upwards from [MinSuffix]: what it returns is the least suffix from
    there on whose name the module does not have, and it gives up only
    when every suffix from there up to the largest but one is taken. *)
Theorem findAvailableSuffix_least (M : Module) (MinSuffix : N)
  (Name : string) (Hmin : (MinSuffix < UINT_MAX)%N) :
  exists r, findAvailableSuffix M MinSuffix Name = Some r /\
    match r with
    | Some s =>
        (MinSuffix <= s < UINT_MAX)%N /\
        (suffixed Name s ∉ named_values M) /\
        forall v, (MinSuffix <= v < s)%N -> suffixed Name v ∈ named_values M
    | None =>
        forall v, (MinSuffix <= v < UINT_MAX)%N ->
                  suffixed Name v ∈ named_values M
    end.
Proof.
  unfold findAvailableSuffix.
  destruct (findAvailableSuffix_loop _ M MinSuffix Name) as [r|] eqn:Hrun.
  - exists r. split; [reflexivity|]. destruct r as [s|].
    + eapply loop_found; eauto.
    + eapply loop_gave_up; eauto.
  - apply loop_ends in Hrun; [done|lia].
Qed.






End SuffixFacts.

Section SuffixWitnesses.
Import Suffix MoreSamples.

Lemma findAvailableSuffix_least_witness :
  exists r, findAvailableSuffix second_module 0 init_name = Some r /\
    match r with
    | Some s =>
        (0 <= s < UINT_MAX)%N /\
        (suffixed init_name s ∉ named_values second_module) /\
        forall v, (0 <= v < s)%N ->
                  suffixed init_name v ∈ named_values second_module
    | None =>
        forall v, (0 <= v < UINT_MAX)%N ->
                  suffixed init_name v ∈ named_values second_module
    end.
Proof.
  apply (findAvailableSuffix_least second_module 0 init_name).
  reflexivity.
Defined.



End SuffixWitnesses.

(* --------------------------------------------------------------------- *)
(** ** The strings of the metadata pool                                   *)
(* --------------------------------------------------------------------- *)

Section DIStringFacts.
Import Text DIString.

Lemma occurs_app (c : ascii) (a b : string) :
  occurs c (a +:+ b) = occurs c a || occurs c b.
Proof.
  induction a as [|x a IH]; [reflexivity|].
  change (occurs c (String x (a +:+ b)) = occurs c (String x a) || occurs c b).
  simpl. rewrite IH. by rewrite orb_assoc.
Qed.

Lemma occurs_replace (old new : ascii) (s : string) :
  old <> new -> occurs old (replace old new s) = false.
Proof.
  intros Hne. induction s as [|x s IH]; [reflexivity|]. simpl. rewrite IH.
  destruct (Ascii.eqb x old) eqn:Hx.
  - rewrite orb_false_r. apply Ascii.eqb_neq. congruence.
  - by rewrite Hx.
Qed.

Lemma replace_free (old new : ascii) (s : string) :
  occurs old s = false -> replace old new s = s.
Proof.
  induction s as [|x s IH]; [reflexivity|]. simpl.
  intros [Hx Hs]%orb_false_elim. rewrite Hx. by rewrite IH.
Qed.

Lemma occurs_digit (x : N) : Ascii.eqb (pretty_N_char x) "*" = false.
Proof.
  unfold pretty_N_char.
  repeat (match goal with |- context [match ?p with _ => _ end] =>
            destruct p end; try reflexivity).
Qed.

Lemma occurs_pretty_go (x : N) : forall s,
  occurs "*" s = false -> occurs "*" (pretty_N_go x s) = false.
Proof.
  induction (N.lt_wf_0 x) as [x _ IH]. intros s Hs.
  destruct (decide (0 < x)%N) as [Hx|Hx].
  - rewrite pretty_N_go_step by exact Hx. apply IH.
    + apply N.div_lt; [exact Hx|reflexivity].
    + simpl. by rewrite occurs_digit.
  - replace x with 0%N by lia. by rewrite pretty_N_go_0.
Qed.

Lemma occurs_pretty (x : N) : occurs "*" (pretty x) = false.
Proof.
  unfold pretty, pretty_N. destruct (decide (x = 0%N)); [reflexivity|].
  by apply occurs_pretty_go.
Qed.

Lemma split_on_free (c : ascii) (a : string) :
  occurs c a = false -> split_on c a = [a].
Proof.
  induction a as [|x a IH]; [reflexivity|]. simpl.
  intros [Hx Ha]%orb_false_elim. rewrite Hx, (IH Ha). reflexivity.
Qed.

Lemma split_on_field (c : ascii) (a b : string) :
  occurs c a = false ->
  split_on c (a +:+ String c b) = a :: split_on c b.
Proof.
  induction a as [|x a IH].
  - intros _. change (split_on c (String c b) = "" :: split_on c b).
    simpl. by rewrite Ascii.eqb_refl.
  - simpl. intros [Hx Ha]%orb_false_elim.
    change (split_on c (String x (a +:+ String c b))
            = String x a :: split_on c b).
    simpl. rewrite Hx, (IH Ha). reflexivity.
Qed.

Lemma split_closed_fields (fields : list string) :
  Forall (fun f => occurs "*" f = false) fields ->
  split_on "*" (closed_fields fields) = fields ++ [""].
Proof.
  induction 1 as [|f fields Hf _ IH]; [reflexivity|].
  simpl. rewrite split_on_field by exact Hf. by rewrite IH.
Qed.

Lemma closed_fields_app (l1 l2 : list string) :
  closed_fields (l1 ++ l2) = closed_fields l1 +:+ closed_fields l2.
Proof.
  induction l1 as [|f l1 IH]; [reflexivity|].
  simpl. rewrite IH. rewrite append_assoc. reflexivity.
Qed.

Lemma closed_field (f : string) (rest : string) :
  f +:+ "*" +:+ rest = closed_fields [f] +:+ rest.
Proof.
  simpl. rewrite append_assoc. reflexivity.
Qed.

Section RegisterFacts.
Variable getLanguage : DIVariable -> option N.
Variable unparseToString : N -> DIMemoryLocation -> option string.

Local Abbreviation DIName := (DIString.DIName getLanguage unparseToString).

Lemma DIName_free (DIM : option DIMemoryLocation) (n : string) :
  DIName DIM = Some n -> occurs "*" n = false.
Proof.
  unfold DIString.DIName. destruct (valid DIM) as [D|]; [|discriminate].
  destruct (getLanguage _) as [L|]; [|discriminate].
  destruct (unparseToString _ _) as [n'|]; [|discriminate].
  intros [= <-]. by apply occurs_replace.
Qed.

(** X20. The string under which [regValue] registers a variable can be
    taken apart again at its asterisks, whatever characters the name of
    the variable has: as long as the file name has no asterisk, the fields
    are the kind (with the rank of an array), the type, the file (with the
    line where the variable has valid metadata), the name where it could
    be unparsed, and two empty fields at the end. *)
Theorem regValue_fields (DIM : option DIMemoryLocation)
  (SourceFileName : string) (TypeId Rank : N)
  (Hfile : occurs "*" SourceFileName = false)
  (Hvar : forall D, valid DIM = Some D ->
                    occurs "*" (getFilename (Var D)) = false) :
  split_on "*" (regValue_string getLanguage unparseToString DIM
                                SourceFileName TypeId Rank)
  = (if decide (Rank = 0%N) then ["type=var_name"]
     else ["type=arr_name"; "rank=" +:+ pretty Rank])
    ++ ["vtype=" +:+ pretty TypeId]
    ++ match valid DIM with
       | Some D => ["file=" +:+ getFilename (Var D);
                    "line1=" +:+ pretty (getLine (Var D))]
       | None => ["file=" +:+ SourceFileName]
       end
    ++ match DIName DIM with
       | Some n => ["name1=" +:+ n]
       | None => []
       end
    ++ [""; ""].
Proof.
  set (type_fields := if decide (Rank = 0%N) then ["type=var_name"]
                      else ["type=arr_name"; "rank=" +:+ pretty Rank]).
  set (decl_fields := match valid DIM with
       | Some D => ["file=" +:+ getFilename (Var D);
                    "line1=" +:+ pretty (getLine (Var D))]
       | None => ["file=" +:+ SourceFileName]
       end).
  set (name_fields := match DIName DIM with
       | Some n => ["name1=" +:+ n]
       | None => []
       end).
  assert (Hstr : regValue_string getLanguage unparseToString DIM
                   SourceFileName TypeId Rank
                 = closed_fields (type_fields ++ ["vtype=" +:+ pretty TypeId]
                                  ++ decl_fields ++ name_fields ++ [""])).
  { unfold regValue_string, TypeStr, DeclStr, NameStr.
    subst type_fields decl_fields name_fields.
    destruct (decide (Rank = 0%N)); destruct (valid DIM) as [D|];
      destruct (DIName DIM) as [nm|]; simpl; rewrite ?append_assoc;
      reflexivity. }
  rewrite Hstr, split_closed_fields.
  - rewrite <- !app_assoc. reflexivity.
  - repeat apply Forall_app_2.
    + subst type_fields. destruct (decide (Rank = 0%N)).
      * by repeat constructor.
      * repeat constructor. rewrite occurs_app, occurs_pretty. reflexivity.
    + repeat constructor. rewrite occurs_app, occurs_pretty. reflexivity.
    + subst decl_fields. destruct (valid DIM) as [D|] eqn:HD.
      * repeat constructor.
        -- rewrite occurs_app, (Hvar D eq_refl). reflexivity.
        -- rewrite occurs_app, occurs_pretty. reflexivity.
      * repeat constructor. rewrite occurs_app, Hfile. reflexivity.
    + subst name_fields. destruct (DIName DIM) as [nm|] eqn:Hn.
      * repeat constructor. rewrite occurs_app, (DIName_free DIM nm Hn).
        reflexivity.
      * constructor.
    + by repeat constructor.
Qed.

End RegisterFacts.

(** X21. The string under which [regDebugLoc] registers a known source
    location can be taken apart again at its asterisks when the file name
    has none: kind, file and line, the column only where it is not zero,
    and two empty fields at the end. *)
Theorem regDebugLoc_fields (DbgLoc : DebugLoc)
  (Hfile : occurs "*" (ScopeFilename DbgLoc) = false) :
  split_on "*" (regDebugLoc_string DbgLoc)
  = ["type=file_name"; "file=" +:+ ScopeFilename DbgLoc;
     "line1=" +:+ pretty (Line DbgLoc)]
    ++ (if decide (Col DbgLoc = 0%N) then []
        else ["col1=" +:+ pretty (Col DbgLoc)])
    ++ [""; ""].
Proof.
  set (col_fields := if decide (Col DbgLoc = 0%N) then []
                     else ["col1=" +:+ pretty (Col DbgLoc)]).
  assert (Hstr : regDebugLoc_string DbgLoc
                 = closed_fields (["type=file_name";
                                   "file=" +:+ ScopeFilename DbgLoc;
                                   "line1=" +:+ pretty (Line DbgLoc)]
                                  ++ col_fields ++ [""])).
  { unfold regDebugLoc_string, ColStr. subst col_fields.
    destruct (decide (Col DbgLoc = 0%N)); simpl; rewrite ?append_assoc;
      reflexivity. }
  rewrite Hstr, split_closed_fields.
  - rewrite <- !app_assoc. reflexivity.
  - repeat apply Forall_app_2.
    + repeat constructor.
      * rewrite occurs_app, Hfile. reflexivity.
      * rewrite occurs_app, occurs_pretty. reflexivity.
    + subst col_fields. destruct (decide (Col DbgLoc = 0%N)).
      * constructor.
      * repeat constructor. rewrite occurs_app, occurs_pretty. reflexivity.
    + by repeat constructor.
Qed.

End DIStringFacts.

Section DIStringWitnesses.
Import Text DIString MoreSamples.

Lemma regValue_fields_witness :
  split_on "*" (regValue_string c_language unparse_deref
                  (Some fixture_variable) "private_array_2.c" 1 1)
  = ["type=arr_name"; "rank=1"; "vtype=1"; "file=private_array_2.c";
     "line1=1"; "name1=^X"; ""; ""].
Proof.
  pose proof (regValue_fields c_language unparse_deref
                (Some fixture_variable) "private_array_2.c" 1 1 eq_refl)
    as H.
  assert (Hvar : forall D, valid (Some fixture_variable) = Some D ->
                           occurs "*" (getFilename (Var D)) = false).
  { intros D [= <-]. reflexivity. }
  specialize (H Hvar). vm_compute in H. vm_compute. exact H.
Defined.

Lemma regDebugLoc_fields_witness :
  split_on "*" (regDebugLoc_string fixture_loop_loc)
  = ["type=file_name"; "file=private_array_2.c"; "line1=3"; "col1=3";
     ""; ""].
Proof.
  pose proof (regDebugLoc_fields fixture_loop_loc eq_refl) as H.
  vm_compute in H. vm_compute. exact H.
Defined.

End DIStringWitnesses.
